(** * OpenTenBase_AI: batching engine and result cache

    A shallow embedding of [contrib/opentenbase_ai/ai.c] (coalescing queue,
    dispatch worker, fan-out executor) and of
    [contrib/opentenbase_ai/ai_cache_enhancement.c] (TTL result cache kept in
    the tables [ai.result_cache] and [ai.cache_stats]).

    The two C files are separate compilation units; each gets a module. *)

From Stdlib Require Import ZArith Lia Bool Ascii String.
From stdpp Require Import base option list strings pretty sorting.

Local Open Scope string_scope.
Local Open Scope Z_scope.

(** ** PostgreSQL conventions shared by both units *)

(** [ereport(ERROR, ...)] / [elog(ERROR, ...)] leaves the function by a
    non-local jump and the enclosing transaction is rolled back: a call
    either yields a value or raises, and a raised call keeps no state. *)
Inductive Exn (A : Type) : Type :=
| Ok (a : A)
| Raise (msg : string).
Arguments Ok {A} a.
Arguments Raise {A} msg.

(** Sequencing stops at the first raise; written [x ← m; k]. *)
Global Instance Exn_bind : MBind Exn := fun A B k m =>
  match m with
  | Ok a => k a
  | Raise msg => Raise msg
  end.

(** A C [int] read from a [uint64] ([deleted_count = SPI_processed]):
    the value is reduced modulo 2^32 into the signed range. *)
Definition int32_of_uint64 (z : Z) : Z :=
  (z + 2147483648) mod 4294967296 - 2147483648.

(** The double-quote character, for the JSON text both units print. *)
Definition dquote : string := String (Ascii.ascii_of_nat 34) EmptyString.

(** ** Statement text *)

(** Both units print their SQL statements with [psprintf] / [snprintf] and
    hand the text to [SPI_exec] / [SPI_execute]; where an argument is
    printed between quotes without being quoted first, its characters
    become part of the statement.  This module reads statement text the
    way the server's scanner does, for the part of the lexical structure
    the statements of the units fall in: words (key words, identifiers and
    numbers; letters folded to lower case), string constants between
    single quotes, in which a doubled quote stands for one quote, and
    one-character symbols. *)
Module Sql.

Inductive token : Type :=
| Word (w : string)
| Constant (s : string)
| Symbol (c : ascii).

Global Instance token_eq_dec : EqDecision token.
Proof. solve_decision. Defined.

(** Where the scanner is: between tokens, inside a word, inside a string
    constant, or just after a quote met inside a constant (the end of the
    constant, or the first half of a doubled quote).  [Unread] is text
    this module does not follow: a backslash inside a constant (what it
    stands for depends on [standard_conforming_strings]), a double quote
    outside constants (a quoted identifier), and a constant with a
    one-letter prefix such as [E'...']. *)
Inductive mode : Type :=
| Between
| InWord (w : string)
| InConstant (s : string)
| AfterQuote (s : string)
| Unread.

Record scanner : Type := mkScanner {
  at_mode : mode;
  scanned : list token
}.

Definition quote : ascii := "'"%char.
Definition backslash : ascii := Ascii.ascii_of_nat 92.

Definition is_space (c : ascii) : bool :=
  let n := nat_of_ascii c in
  (n =? 32)%nat || ((9 <=? n)%nat && (n <=? 13)%nat).

Definition is_word_char (c : ascii) : bool :=
  let n := nat_of_ascii c in
  ((48 <=? n)%nat && (n <=? 57)%nat) || ((65 <=? n)%nat && (n <=? 90)%nat)
  || ((97 <=? n)%nat && (n <=? 122)%nat) || (n =? 95)%nat || (n =? 46)%nat
  || (128 <=? n)%nat.

Definition fold_case (c : ascii) : ascii :=
  let n := nat_of_ascii c in
  if (65 <=? n)%nat && (n <=? 90)%nat then ascii_of_nat (n + 32) else c.

Definition add_char (s : string) (c : ascii) : string := s +:+ String c EmptyString.

(** The words that, written right before a quote, change how the
    constant is read. *)
Definition constant_prefix (w : string) : bool :=
  existsb (String.eqb w) ["e"; "b"; "x"; "n"].

(** The first character of a token. *)
Definition begin (toks : list token) (c : ascii) : scanner :=
  if Ascii.eqb c quote then {| at_mode := InConstant EmptyString; scanned := toks |}
  else if is_space c then {| at_mode := Between; scanned := toks |}
  else if is_word_char c then
    {| at_mode := InWord (String (fold_case c) EmptyString); scanned := toks |}
  else if Ascii.eqb c (Ascii.ascii_of_nat 34) then {| at_mode := Unread; scanned := toks |}
  else {| at_mode := Between; scanned := (toks ++ [Symbol c])%list |}.

Definition scan_char (l : scanner) (c : ascii) : scanner :=
  match at_mode l with
  | Between => begin (scanned l) c
  | InWord w =>
      if is_word_char c then
        {| at_mode := InWord (add_char w (fold_case c)); scanned := scanned l |}
      else if Ascii.eqb c quote && constant_prefix w then
        {| at_mode := Unread; scanned := scanned l |}
      else begin (scanned l ++ [Word w])%list c
  | InConstant s =>
      if Ascii.eqb c quote then {| at_mode := AfterQuote s; scanned := scanned l |}
      else if Ascii.eqb c backslash then {| at_mode := Unread; scanned := scanned l |}
      else {| at_mode := InConstant (add_char s c); scanned := scanned l |}
  | AfterQuote s =>
      if Ascii.eqb c quote then
        {| at_mode := InConstant (add_char s quote); scanned := scanned l |}
      else begin (scanned l ++ [Constant s])%list c
  | Unread => l
  end.

Fixpoint scan_from (l : scanner) (text : string) : scanner :=
  match text with
  | EmptyString => l
  | String c rest => scan_from (scan_char l c) rest
  end.

(** What reading a text gives: its reading; [Unterminated] when the text
    ends inside a string constant, which the server refuses with
    "unterminated quoted string"; [NotFollowed] when the text is not of
    the form looked for (or is [Unread]): the server then raises a syntax
    or type error or runs whatever other statement the text is, and this
    module says nothing about it. *)
Inductive reading (A : Type) : Type :=
| Reads (a : A)
| Unterminated
| NotFollowed.
Arguments Reads {A} a.
Arguments Unterminated {A}.
Arguments NotFollowed {A}.

Definition start : scanner := {| at_mode := Between; scanned := [] |}.

Definition finish (l : scanner) : reading (list token) :=
  match at_mode l with
  | Between => Reads (scanned l)
  | InWord w => Reads (scanned l ++ [Word w])%list
  | AfterQuote s => Reads (scanned l ++ [Constant s])%list
  | InConstant _ => Unterminated
  | Unread => NotFollowed
  end.

Definition tokens (text : string) : reading (list token) := finish (scan_from start text).

(** The tokens left after a fixed beginning, if the text begins so. *)
Fixpoint strip (head toks : list token) : option (list token) :=
  match head with
  | [] => Some toks
  | h :: head' =>
      match toks with
      | t :: toks' => if bool_decide (h = t) then strip head' toks' else None
      | [] => None
      end
  end.

(** A text with no quote and no backslash: printed between quotes it is
    one string constant, standing for itself. *)
Fixpoint sql_plain (s : string) : bool :=
  match s with
  | EmptyString => true
  | String c rest =>
      negb (Ascii.eqb c quote) && negb (Ascii.eqb c backslash) && sql_plain rest
  end.

End Sql.

Module Cache.

(** *** Tables *)

(** A row of [ai.result_cache], with the columns the statements of the
    unit name.  [result_text] is tested for SQL NULL by
    [lookup_cache_result], hence the option.  Timestamps are
    [TimestampTz] values: microseconds as a 64-bit integer. *)
Record CacheRow : Type := mkCacheRow {
  model_name : string;
  args_hash : string;
  content_hash : string;
  result_text : option string;
  created_time : Z;
  expiry_time : Z;
  access_count : Z
}.

(** A row of [ai.cache_stats]; [max_entries] and [cache_enabled] are only
    read back by [ai_cache_stats] and are left out. *)
Record StatsRow : Type := mkStatsRow {
  total_requests : Z;
  cache_hits : Z;
  cache_misses : Z;
  batch_requests : Z;
  current_entries : Z
}.

(** The persistent store as the unit sees it.  [spi_connects] is the
    outcome of [SPI_connect() == SPI_OK_CONNECT], which guards every
    access.  Every [UPDATE ai.cache_stats] of the unit has no WHERE clause
    and so rewrites each row of that table. *)
Record Database : Type := mkDatabase {
  spi_connects : bool;
  result_cache : list CacheRow;
  cache_stats : list StatsRow
}.

Definition with_result_cache (db : Database) (rows : list CacheRow) : Database :=
  {| spi_connects := spi_connects db;
     result_cache := rows;
     cache_stats := cache_stats db |}.

Definition with_cache_stats (db : Database) (st : list StatsRow) : Database :=
  {| spi_connects := spi_connects db;
     result_cache := result_cache db;
     cache_stats := st |}.

(** [WHERE model_name = '%s' AND args_hash = '%s'] and the conflict target
    [(model_name, args_hash)], for strings that the server reads as they
    are: the comparison with the two strings as values.  The two strings
    are printed between the quotes unquoted; what the statement is for
    any string is followed in the part on statement text below
    ([lookup_cache_result_sql], [store_cache_result_sql]), and for
    strings without quote or backslash it is this comparison. *)
Definition has_key (m h : string) (r : CacheRow) : bool :=
  bool_decide (model_name r = m) && bool_decide (args_hash r = h).

(** The unique index that [ON CONFLICT (model_name, args_hash)] needs. *)
Definition row_key (r : CacheRow) : string * string := (model_name r, args_hash r).
Definition unique_keys (rows : list CacheRow) : Prop := NoDup (row_key <$> rows).

(** [now() + interval 'ttl seconds'] on microsecond timestamps. *)
Definition USECS_PER_SEC : Z := 1000000.
Definition expiry_of (now ttl_seconds : Z) : Z := now + ttl_seconds * USECS_PER_SEC.

(** [UPDATE ai.cache_stats SET current_entries = (SELECT count( * ) FROM ai.result_cache)] *)
Definition refresh_current_entries (db : Database) : Database :=
  with_cache_stats db
    ((fun s => {| total_requests := total_requests s;
                  cache_hits := cache_hits s;
                  cache_misses := cache_misses s;
                  batch_requests := batch_requests s;
                  current_entries := Z.of_nat (length (result_cache db)) |})
       <$> cache_stats db).

(** *** lookup_cache_result *)

(** [ORDER BY created_time DESC LIMIT 1]: the row with the greatest
    [created_time]; among equals the one met first. *)
Fixpoint newest (rows : list CacheRow) : option CacheRow :=
  match rows with
  | [] => None
  | r :: rest =>
      match newest rest with
      | Some r' => if created_time r <? created_time r' then Some r' else Some r
      | None => Some r
      end
  end.

Definition live_matches (now : Z) (m h : string) (rows : list CacheRow) : list CacheRow :=
  filter (fun r => has_key m h r = true /\ now < expiry_time r) rows.

(** Returns [Some (cached_result, cache_time)] when the C function returns
    true and [None] when it returns false.  The [ttl_seconds] argument is
    not used by the body.  The SELECT is taken as the query for the rows
    of the key given as values; [lookup_cache_result_sql] below follows
    the text printed. *)
Definition lookup_cache_result (db : Database) (now : Z) (m h : string)
    (ttl_seconds : Z) : option (string * Z) :=
  if spi_connects db then
    match newest (live_matches now m h (result_cache db)) with
    | Some r =>
        match result_text r with
        | Some txt => Some (txt, created_time r)
        | None => None
        end
    | None => None
    end
  else None.

(** *** store_cache_result *)

Definition inserted_row (now : Z) (m h c res : string) (ttl_seconds : Z) : CacheRow :=
  {| model_name := m; args_hash := h; content_hash := c;
     result_text := Some res;
     created_time := now;
     expiry_time := expiry_of now ttl_seconds;
     access_count := 1 |}.

(** [DO UPDATE SET result_text, created_time, expiry_time = EXCLUDED...,
    access_count = access_count + 1]; [content_hash] keeps its old value. *)
Definition conflict_update (excluded r : CacheRow) : CacheRow :=
  {| model_name := model_name r; args_hash := args_hash r;
     content_hash := content_hash r;
     result_text := result_text excluded;
     created_time := created_time excluded;
     expiry_time := expiry_time excluded;
     access_count := access_count r + 1 |}.

Definition upsert (new : CacheRow) (rows : list CacheRow) : list CacheRow :=
  if existsb (has_key (model_name new) (args_hash new)) rows then
    (fun r => if has_key (model_name new) (args_hash new) r
              then conflict_update new r else r) <$> rows
  else (rows ++ [new])%list.

(** The INSERT is taken as the upsert of the row with the strings given as
    values; [store_cache_result_sql] below follows the text printed. *)
Definition store_cache_result (db : Database) (now : Z) (m h c res : string)
    (ttl_seconds : Z) : Database :=
  if spi_connects db then
    refresh_current_entries
      (with_result_cache db
         (upsert (inserted_row now m h c res ttl_seconds) (result_cache db)))
  else db.

(** *** ai_cache_clear *)

Definition zero_on_clear_all (s : StatsRow) : StatsRow :=
  {| total_requests := 0;
     cache_hits := 0;
     cache_misses := 0;
     batch_requests := batch_requests s;
     current_entries := 0 |}.

(** [arg] is the SQL argument: [None] for NULL.  Returns the store after
    the call and the [int32] the function returns. *)
Definition ai_cache_clear (db : Database) (now : Z) (arg : option bool) : Database * Z :=
  let clear_all := match arg with None => true | Some b => b end in
  if spi_connects db then
    let kept :=
      if clear_all then []
      else filter (fun r => ~ (expiry_time r < now)) (result_cache db) in
    let deleted_count :=
      int32_of_uint64 (Z.of_nat (length (result_cache db)) - Z.of_nat (length kept)) in
    let db1 := with_result_cache db kept in
    let db2 :=
      if clear_all then with_cache_stats db1 (zero_on_clear_all <$> cache_stats db1)
      else refresh_current_entries db1 in
    (db2, deleted_count)
  else (db, 0).

(** *** Configuration and the PostgreSQL functions the unit calls *)

(** The GUC variables read by the functions below. *)
Record Guc : Type := mkGuc {
  enable_ai_result_cache : bool;
  ai_cache_default_ttl : Z
}.

(** Functions of the server that the unit calls and that are not part of
    it: the [jsonb] type with its input function, concatenation and
    printer, [hash_any], and the SQL function [ai.invoke_model] reached
    through [LookupFuncName] / [OidFunctionCall2].  Those that can
    [ereport(ERROR)] return in [Exn]. *)
Class Host : Type := mkHost {
  Jsonb : Type;
  jsonb_in : string -> Exn Jsonb;
  jsonb_concat : Jsonb -> Jsonb -> Jsonb;
  JsonbToCString : Jsonb -> string;
  hash_any : string -> Z;
  invoke_model : string -> Jsonb -> Exn string
}.

(** [psprintf("%08x", hash)] for a [uint32]. *)
Definition hex_digit (n : Z) : ascii :=
  match String.get (Z.to_nat n) "0123456789abcdef" with
  | Some c => c
  | None => "0"%char
  end.

Fixpoint hex_digits (k : nat) (z : Z) (acc : string) : string :=
  match k with
  | O => acc
  | S k' => hex_digits k' (z / 16) (String (hex_digit (z mod 16)) acc)
  end.

Definition hex08 (hash : Z) : string := hex_digits 8 (hash mod 4294967296) EmptyString.

Section Invoke.
Context {host : Host} (guc : Guc).

Definition compute_args_hash (args : Jsonb) : string :=
  hex08 (hash_any (JsonbToCString args)).

Definition compute_content_hash (content : string) : string :=
  hex08 (hash_any content).

Definition cache_in_use (ttl_seconds : Z) : bool :=
  enable_ai_result_cache guc && (0 <? ttl_seconds).

(** [UPDATE ai.cache_stats SET cache_hits = cache_hits + 1,
    total_requests = total_requests + 1], under its own [SPI_connect]. *)
Definition count_hit (db : Database) : Database :=
  if spi_connects db then
    with_cache_stats db
      ((fun s => {| total_requests := total_requests s + 1;
                    cache_hits := cache_hits s + 1;
                    cache_misses := cache_misses s;
                    batch_requests := batch_requests s;
                    current_entries := current_entries s |}) <$> cache_stats db)
  else db.

Definition count_miss (db : Database) : Database :=
  if spi_connects db then
    with_cache_stats db
      ((fun s => {| total_requests := total_requests s + 1;
                    cache_hits := cache_hits s;
                    cache_misses := cache_misses s + 1;
                    batch_requests := batch_requests s;
                    current_entries := current_entries s |}) <$> cache_stats db)
  else db.

(** *** ai_invoke_model_cached *)

(** [ttl_arg] is the third SQL argument, [None] for NULL. *)
Definition ai_invoke_model_cached (db : Database) (now : Z) (model : string)
    (user_args : Jsonb) (ttl_arg : option Z) : Exn (string * Database) :=
  let ttl_seconds := default (ai_cache_default_ttl guc) ttl_arg in
  let args_hash := compute_args_hash user_args in
  let cache_hit :=
    if cache_in_use ttl_seconds
    then lookup_cache_result db now model args_hash ttl_seconds
    else None in
  match cache_hit with
  | Some (cached_result, _) => Ok (cached_result, count_hit db)
  | None =>
      final_result ← invoke_model model user_args;
      let db1 :=
        if cache_in_use ttl_seconds
        then store_cache_result db now model args_hash
               (compute_content_hash final_result) final_result ttl_seconds
        else db in
      Ok (final_result, count_miss db1)
  end.

(** *** ai_batch_invoke_cached *)

(** [psprintf("batch_%s_%d", input_text, i)] *)
Definition simple_hash (input_text : string) (i : nat) : string :=
  "batch_" +:+ input_text +:+ "_" +:+ pretty (Z.of_nat i).

(** [psprintf("{\"input\": \"%s\"}", input_text)] *)
Definition input_json (input_text : string) : string :=
  "{" +:+ dquote +:+ "input" +:+ dquote +:+ ": " +:+ dquote +:+ input_text +:+ dquote +:+ "}".

(** The locals that live across iterations of the loop. *)
Record BatchLoop : Type := mkBatchLoop {
  astate : option (list string);
  hits : Z;
  misses : Z;
  store : Database
}.

(** [accumArrayResult]: a NULL state becomes a one-element one. *)
Definition accumArrayResult (a : option (list string)) (x : string) : option (list string) :=
  match a with
  | None => Some [x]
  | Some l => Some (l ++ [x])%list
  end.

(** The body of the loop for a non-NULL element: the text produced, whether
    it came from the lookup under [simple_hash], and the store after.
    The lookup is the one on values: the key holds the input text, so
    what is said of this body is said for input texts that the server
    reads as they are. *)
Definition batch_item (db : Database) (now : Z) (model : string)
    (user_args_text : option string) (ttl_seconds : Z)
    (i : nat) (input_text : string) : Exn (string * bool * Database) :=
  let cached :=
    if cache_in_use ttl_seconds
    then lookup_cache_result db now model (simple_hash input_text i) ttl_seconds
    else None in
  match cached with
  | Some (cached_result, _) => Ok (cached_result, true, db)
  | None =>
      empty_args ← jsonb_in "{}";
      args_jsonb ← match user_args_text with
                   | Some user_args_str => jsonb_in user_args_str
                   | None => Ok empty_args
                   end;
      input_jsonb ← jsonb_in (input_json input_text);
      let merged_args := jsonb_concat args_jsonb input_jsonb in
      '(result, db') ← ai_invoke_model_cached db now model merged_args (Some ttl_seconds);
      Ok (result, false, db')
  end.

Fixpoint batch_loop (now : Z) (model : string) (user_args_text : option string)
    (ttl_seconds : Z) (i : nat) (inputs : list (option string))
    (st : BatchLoop) : Exn BatchLoop :=
  match inputs with
  | [] => Ok st
  | None :: rest =>
      batch_loop now model user_args_text ttl_seconds (S i) rest st
  | Some input_text :: rest =>
      '(result, found_in_cache, db') ←
        batch_item (store st) now model user_args_text ttl_seconds i input_text;
      batch_loop now model user_args_text ttl_seconds (S i) rest
        {| astate := accumArrayResult (astate st) result;
           hits := if (found_in_cache : bool) then hits st + 1 else hits st;
           misses := if (found_in_cache : bool) then misses st else misses st + 1;
           store := db' |}
  end.

(** The closing [UPDATE ai.cache_stats] of the batch function. *)
Definition count_batch (db : Database) (cache_hits_n cache_misses_n input_count : Z)
    : Database :=
  if spi_connects db then
    with_cache_stats db
      ((fun s => {| total_requests := total_requests s + input_count;
                    cache_hits := cache_hits s + cache_hits_n;
                    cache_misses := cache_misses s + cache_misses_n;
                    batch_requests := batch_requests s + 1;
                    current_entries := current_entries s |}) <$> cache_stats db)
  else db.

(** [input_array] holds the elements with [None] for SQL NULL.  The value
    is the text array returned, [None] for a NULL result. *)
Definition ai_batch_invoke_cached (db : Database) (now : Z) (model : string)
    (input_array : list (option string)) (user_args_text : option string)
    (ttl_arg : option Z) : Exn (option (list string) * Database) :=
  let ttl_seconds := default (ai_cache_default_ttl guc) ttl_arg in
  st ← batch_loop now model user_args_text ttl_seconds 0 input_array
         {| astate := None; hits := 0; misses := 0; store := db |};
  Ok (astate st,
      count_batch (store st) (hits st) (misses st) (Z.of_nat (length input_array))).

(** The loop body run over elements given with their positions, one after
    the other, each on the store the one before left: the texts produced
    with their found-in-cache flags, in order, and the store after the
    last.  The first element that raises ends the run. *)
Fixpoint batch_items (db : Database) (now : Z) (model : string)
    (user_args_text : option string) (ttl_seconds : Z)
    (items : list (nat * string)) : Exn (list (string * bool) * Database) :=
  match items with
  | [] => Ok ([], db)
  | p :: rest =>
      '(result, found_in_cache, db1) ←
        batch_item db now model user_args_text ttl_seconds p.1 p.2;
      '(results, db2) ← batch_items db1 now model user_args_text ttl_seconds rest;
      Ok ((result, found_in_cache) :: results, db2)
  end.

End Invoke.

(** The non-NULL elements of the input array with their positions, from
    position [i] on: what the entries of the result line up with. *)
Fixpoint non_null_from (i : nat) (inputs : list (option string)) : list (nat * string) :=
  match inputs with
  | [] => []
  | None :: rest => non_null_from (S i) rest
  | Some x :: rest => (i, x) :: non_null_from (S i) rest
  end.

(** The text array made of the texts given: NULL when there is none. *)
Definition array_of (l : list string) : option (list string) :=
  match l with
  | [] => None
  | _ => Some l
  end.

(** How many of the texts produced came (or did not come) from the lookup
    under the batch key. *)
Definition count_found (b : bool) (rs : list (string * bool)) : Z :=
  Z.of_nat (length (filter (fun p => p.2 = b) rs)).

(** The elements of a text array, none for NULL. *)
Definition entries (a : option (list string)) : list string := default [] a.

(** A host to run the functions on: [jsonb] values are their text,
    concatenation joins the texts, the hash is a polynomial in the
    character codes and the model answers with its arguments; a model
    named "down" raises. *)
Fixpoint poly_hash (acc : Z) (s : string) : Z :=
  match s with
  | EmptyString => acc
  | String c rest => poly_hash ((acc * 31 + Z.of_nat (nat_of_ascii c)) mod 4294967296) rest
  end.

Definition echo_host : Host :=
  {| Jsonb := string;
     jsonb_in := fun s => Ok s;
     jsonb_concat := fun a b => a +:+ b;
     JsonbToCString := fun j => j;
     hash_any := poly_hash 7;
     invoke_model := fun m args =>
       if bool_decide (m = "down") then Raise "model endpoint failed"
       else Ok ("re:" +:+ args) |}.

Definition cache_on : Guc :=
  {| enable_ai_result_cache := true; ai_cache_default_ttl := 3600 |}.

Definition empty_store : Database :=
  {| spi_connects := true; result_cache := []; cache_stats := [mkStatsRow 0 0 0 0 0] |}.

(** How many rows carry a key. *)
Definition entries_for (m h : string) (rows : list CacheRow) : nat :=
  length (filter (fun r => has_key m h r = true) rows).

(** *** ai_cache_stats *)

(** The record returned, field by field in the order of [values]; the hit
    ratio is in hundredths of a percent. *)
Record CacheStatsTuple : Type := mkCacheStatsTuple {
  out_total_requests : Z;
  out_cache_hits : Z;
  out_cache_misses : Z;
  out_hit_ratio : Z;
  out_current_entries : Z;
  out_max_entries : Z;
  out_cache_enabled : bool;
  out_batch_requests : Z
}.

(** [round_percent hits total] stands for the server's numeric
    [round(cache_hits * 100.0 / total_requests, 2)], which the query
    evaluates only under [CASE WHEN total_requests > 0].  The row read is
    the first of [ai.cache_stats] ([LIMIT 1]); [max_entries] and
    [cache_enabled] come from the GUC variables.  With no row every value
    is zero but the enabled flag.  [None]: [SPI_connect] failed and the
    tuple is formed from values never set. *)
Definition ai_cache_stats (round_percent : Z -> Z -> Z) (guc : Guc)
    (ai_cache_max_entries : Z) (db : Database) : option CacheStatsTuple :=
  if spi_connects db then
    Some
      match cache_stats db with
      | s :: _ =>
          {| out_total_requests := total_requests s;
             out_cache_hits := cache_hits s;
             out_cache_misses := cache_misses s;
             out_hit_ratio :=
               if 0 <? total_requests s
               then round_percent (cache_hits s) (total_requests s) else 0;
             out_current_entries := current_entries s;
             out_max_entries := ai_cache_max_entries;
             out_cache_enabled := enable_ai_result_cache guc;
             out_batch_requests := batch_requests s |}
      | [] =>
          {| out_total_requests := 0; out_cache_hits := 0; out_cache_misses := 0;
             out_hit_ratio := 0; out_current_entries := 0; out_max_entries := 0;
             out_cache_enabled := enable_ai_result_cache guc;
             out_batch_requests := 0 |}
      end
  else None.

(** *** Reading the tables *)

(** The value of a [%08x] text. *)
Definition hex_value (c : ascii) : option Z :=
  (fix find (n : nat) (digits : string) : option Z :=
     match digits with
     | EmptyString => None
     | String d rest => if bool_decide (c = d) then Some (Z.of_nat n) else find (S n) rest
     end) O "0123456789abcdef".

Fixpoint hex_decode_from (acc : Z) (s : string) : option Z :=
  match s with
  | EmptyString => Some acc
  | String c rest =>
      match hex_value c with
      | Some v => hex_decode_from (acc * 16 + v) rest
      | None => None
      end
  end.

Definition hex_decode (s : string) : option Z := hex_decode_from 0 s.




(** The lookup [ai_invoke_model_cached] makes, none when the cache is not
    in use. *)
Definition effective_lookup `{Host} (guc : Guc) (db : Database) (now : Z)
    (model : string) (args : Jsonb) (ttl : Z) : option (string * Z) :=
  if cache_in_use guc ttl
  then lookup_cache_result db now model (compute_args_hash args) ttl
  else None.

(** The cache is off for a call: not in use for its TTL, or unreachable. *)
Definition off (guc : Guc) (ttl : Z) (db : Database) : Prop :=
  cache_in_use guc ttl = false \/ spi_connects db = false.

(** The same server with another [ai.invoke_model] behind the name. *)
Definition with_invoke_model (h : Host) (f : string -> @Jsonb h -> Exn string) : Host :=
  {| Jsonb := @Jsonb h;
     jsonb_in := @jsonb_in h;
     jsonb_concat := @jsonb_concat h;
     JsonbToCString := @JsonbToCString h;
     hash_any := @hash_any h;
     invoke_model := f |}.



(** Whether a text holds the separator of the batch key. *)
Fixpoint has_underscore (s : string) : bool :=
  match s with
  | EmptyString => false
  | String c rest => bool_decide (c = "_"%char) || has_underscore rest
  end.

(** *** The statements as text *)

(** The definitions above read each statement as the operation it means
    on the strings given.  Those below follow the text the functions
    print: [lookup_cache_result] and [store_cache_result] print
    [model_name], [args_hash] and [content_hash] between quotes as they
    are, [result] through [quote_literal_cstr], and the TTL with [%d]. *)
Import Sql.

Definition lookup_query_sql (m h : string) : string :=
  "SELECT result_text, created_time FROM ai.result_cache WHERE model_name = '" +:+ m
  +:+ "' AND args_hash = '" +:+ h
  +:+ "' AND expiry_time > now() ORDER BY created_time DESC LIMIT 1".

(** The conditions a WHERE clause is made of here: a text column compared
    with a constant, two constants compared, [true] / [false], and
    [expiry_time > now()]. *)
Inductive atom : Type :=
| ColumnIs (column value : string)
| ConstantsEqual (a b : string)
| Truth (b : bool)
| Unexpired.

Definition text_column (w : string) : bool :=
  existsb (String.eqb w) ["model_name"; "args_hash"; "content_hash"].

Definition read_atom (toks : list token) : option (atom * list token) :=
  match toks with
  | Word w :: rest =>
      if String.eqb w "true" then Some (Truth true, rest)
      else if String.eqb w "false" then Some (Truth false, rest)
      else
        match rest with
        | Symbol op :: Constant v :: rest' =>
            if Ascii.eqb op "="%char && text_column w then Some (ColumnIs w v, rest')
            else None
        | Symbol op :: Word f :: Symbol l :: Symbol r :: rest' =>
            if String.eqb w "expiry_time" && Ascii.eqb op ">"%char && String.eqb f "now"
               && Ascii.eqb l "("%char && Ascii.eqb r ")"%char
            then Some (Unexpired, rest')
            else None
        | _ => None
        end
  | Constant a :: Symbol op :: Constant b :: rest =>
      if Ascii.eqb op "="%char then Some (ConstantsEqual a b, rest) else None
  | _ => None
  end.

(** Atoms joined by AND and OR, without parentheses: AND binds before OR,
    so the condition is a list of alternatives, each a list of atoms that
    must all hold.  [conj] is the alternative being read, [alts] those
    read before it. *)
Fixpoint read_condition (fuel : nat) (toks : list token) (conj : list atom)
    (alts : list (list atom)) : option (list (list atom) * list token) :=
  match fuel with
  | O => None
  | S fuel' =>
      match read_atom toks with
      | None => None
      | Some (a, rest) =>
          match rest with
          | Word w :: rest' =>
              if String.eqb w "and" then read_condition fuel' rest' (conj ++ [a])%list alts
              else if String.eqb w "or"
                   then read_condition fuel' rest' [] (alts ++ [(conj ++ [a])%list])%list
                   else Some ((alts ++ [(conj ++ [a])%list])%list, rest)
          | _ => Some ((alts ++ [(conj ++ [a])%list])%list, rest)
          end
      end
  end.

Definition select_head : list token :=
  [Word "select"; Word "result_text"; Symbol ","; Word "created_time"; Word "from";
   Word "ai.result_cache"; Word "where"].

Definition select_tail : list token :=
  [Word "order"; Word "by"; Word "created_time"; Word "desc"; Word "limit"; Word "1"].

(** The WHERE clause of a text of the form
    [SELECT result_text, created_time FROM ai.result_cache WHERE ...
     ORDER BY created_time DESC LIMIT 1]. *)
Definition read_select (text : string) : reading (list (list atom)) :=
  match tokens text with
  | Reads toks =>
      match strip select_head toks with
      | Some rest =>
          match read_condition (length rest) rest [] [] with
          | Some (cond, rest') =>
              if bool_decide (rest' = select_tail) then Reads cond else NotFollowed
          | None => NotFollowed
          end
      | None => NotFollowed
      end
  | Unterminated => Unterminated
  | NotFollowed => NotFollowed
  end.

Definition holds (now : Z) (r : CacheRow) (a : atom) : bool :=
  match a with
  | ColumnIs col v =>
      if String.eqb col "model_name" then bool_decide (model_name r = v)
      else if String.eqb col "args_hash" then bool_decide (args_hash r = v)
      else if String.eqb col "content_hash" then bool_decide (content_hash r = v)
      else false
  | ConstantsEqual a b => bool_decide (a = b)
  | Truth b => b
  | Unexpired => bool_decide (now < expiry_time r)
  end.

Definition satisfies (now : Z) (cond : list (list atom)) (r : CacheRow) : bool :=
  existsb (forallb (holds now r)) cond.

(** [lookup_cache_result] on the statement it sends: the newest row that
    satisfies the WHERE clause as the text reads. *)
Definition lookup_cache_result_sql (db : Database) (now : Z) (m h : string)
    : reading (option (string * Z)) :=
  if spi_connects db then
    match read_select (lookup_query_sql m h) with
    | Reads cond =>
        Reads
          match newest (filter (fun r => satisfies now cond r = true) (result_cache db)) with
          | Some r =>
              match result_text r with
              | Some txt => Some (txt, created_time r)
              | None => None
              end
          | None => None
          end
    | Unterminated => Unterminated
    | NotFollowed => NotFollowed
    end
  else Reads None.

(** PostgreSQL's [quote_literal_cstr]: the text between quotes with every
    quote and backslash doubled, and [E] in front when there is a
    backslash. *)
Fixpoint has_backslash (s : string) : bool :=
  match s with
  | EmptyString => false
  | String c rest => Ascii.eqb c backslash || has_backslash rest
  end.

Fixpoint doubled (s : string) : string :=
  match s with
  | EmptyString => EmptyString
  | String c rest =>
      if Ascii.eqb c quote || Ascii.eqb c backslash
      then String c (String c (doubled rest))
      else String c (doubled rest)
  end.

Definition quote_literal_cstr (s : string) : string :=
  (if has_backslash s then "E" else EmptyString) +:+ "'" +:+ doubled s +:+ "'".

Definition store_insert_sql (m h c quoted_result : string) (ttl_seconds : Z) : string :=
  "INSERT INTO ai.result_cache (model_name, args_hash, content_hash, result_text,  created_time, expiry_time, access_count) VALUES ('"
  +:+ m +:+ "', '" +:+ h +:+ "', '" +:+ c +:+ "', " +:+ quoted_result
  +:+ ", now(), now() + interval '" +:+ pretty ttl_seconds
  +:+ " seconds', 1) ON CONFLICT (model_name, args_hash) DO UPDATE SET result_text = EXCLUDED.result_text, created_time = EXCLUDED.created_time, expiry_time = EXCLUDED.expiry_time, access_count = ai.result_cache.access_count + 1".

Definition insert_head : list token :=
  [Word "insert"; Word "into"; Word "ai.result_cache"; Symbol "(";
   Word "model_name"; Symbol ","; Word "args_hash"; Symbol ","; Word "content_hash";
   Symbol ","; Word "result_text"; Symbol ","; Word "created_time"; Symbol ",";
   Word "expiry_time"; Symbol ","; Word "access_count"; Symbol ")";
   Word "values"; Symbol "("].

(** What follows the four constants: the two times, then the interval
    constant, the access count and the conflict clause.  The interval
    constant is the one [%d] prints for the TTL. *)
Definition insert_times : list token :=
  [Symbol ","; Word "now"; Symbol "("; Symbol ")"; Symbol ",";
   Word "now"; Symbol "("; Symbol ")"; Symbol "+"; Word "interval"].

Definition insert_conflict (interval : string) : list token :=
  [Constant interval; Symbol ","; Word "1"; Symbol ")";
   Word "on"; Word "conflict"; Symbol "("; Word "model_name"; Symbol ",";
   Word "args_hash"; Symbol ")"; Word "do"; Word "update"; Word "set";
   Word "result_text"; Symbol "="; Word "excluded.result_text"; Symbol ",";
   Word "created_time"; Symbol "="; Word "excluded.created_time"; Symbol ",";
   Word "expiry_time"; Symbol "="; Word "excluded.expiry_time"; Symbol ",";
   Word "access_count"; Symbol "="; Word "ai.result_cache.access_count"; Symbol "+";
   Word "1"].

Definition insert_tail (ttl_seconds : Z) : list token :=
  (insert_times ++ insert_conflict (pretty ttl_seconds +:+ " seconds"))%list.

(** The four constants of a text of the form of the INSERT statement:
    the values the row gets for [model_name], [args_hash], [content_hash]
    and [result_text]. *)
Definition read_insert (text : string) (ttl_seconds : Z)
    : reading (string * string * string * string) :=
  match tokens text with
  | Reads toks =>
      match strip insert_head toks with
      | Some (Constant m :: Symbol c1 :: Constant h :: Symbol c2 :: Constant c
                :: Symbol c3 :: Constant v :: rest) =>
          if Ascii.eqb c1 ","%char && Ascii.eqb c2 ","%char && Ascii.eqb c3 ","%char
             && bool_decide (rest = insert_tail ttl_seconds)
          then Reads (m, h, c, v)
          else NotFollowed
      | _ => NotFollowed
      end
  | Unterminated => Unterminated
  | NotFollowed => NotFollowed
  end.

(** [store_cache_result] on the statement it sends: the upsert of the row
    the text reads as. *)
Definition store_cache_result_sql (db : Database) (now : Z) (m h c res : string)
    (ttl_seconds : Z) : reading Database :=
  if spi_connects db then
    match read_insert (store_insert_sql m h c (quote_literal_cstr res) ttl_seconds)
            ttl_seconds with
    | Reads (m', h', c', v') => Reads (store_cache_result db now m' h' c' v' ttl_seconds)
    | Unterminated => Unterminated
    | NotFollowed => NotFollowed
    end
  else Reads db.

End Cache.

Module Batch.

(** *** Requests and the shared context *)

(** [struct BatchRequest].  The [next] pointer is carried by the order of
    the queue below. *)
Record BatchRequest : Type := mkBatchRequest {
  request_id : Z;
  model_name : string;
  input_data : string;
  user_args_json : string;
  completed : bool;
  result : option string;
  error_msg : option string
}.

(** Requests are [malloc]ed by their callers and reached through
    pointers: a pointer is an index into the heap. *)
Definition addr : Type := nat.

(** [struct BatchContext]: [requests] is the linked list from its head,
    as the addresses met by following [next].  The mutex makes each
    critical section one atomic step; the condition variable shows as the
    signals a step sends and the wake-ups a waiter receives. *)
Record BatchContext : Type := mkBatchContext {
  requests : list addr;
  request_count : Z;
  processing : bool
}.

Record Guc : Type := mkGuc {
  batch_size : Z;
  batch_timeout_ms : Z;
  enable_batch_processing : bool
}.

(** The value [pthread_cond_timedwait] returns when the time is up. *)
Definition ETIMEDOUT : Z := 110.

(** *** process_batch_requests_enhanced *)

(** The columns of [public.ai_model_list] the executor reads. *)
Record ModelRow : Type := mkModelRow {
  uri : string;
  content_type : string;
  default_args : string;
  request_type : string
}.

(** What [CURLOPT_POSTFIELDS] points to.  curl keeps the pointer and
    reads the bytes when the transfer is performed.  [input_of_request s]
    is the request's own [input_data], still there at that time.
    [merged_args_array] is the array [merged_args[2048]], local to the
    block of one loop iteration: every iteration gets the same storage
    and it is out of scope when the transfers are performed, so what is
    sent from it is not given by the request the handle was made for. *)
Inductive PostFields : Type :=
| input_of_request (s : string)
| merged_args_array.

(** What a curl handle carries when it is added to the multi handle. *)
Record Transfer : Type := mkTransfer {
  CURLOPT_URL : string;
  CURLOPT_POSTFIELDS : option PostFields;
  CURLOPT_HTTPHEADER : list string;
  CURLOPT_TIMEOUT : Z
}.

(** What the executor calls outside the unit: SPI; the server's answer to
    the text handed to [SPI_execute(query, true, 1)] ([Ok (Some row)]: a
    SELECT that gave a row; [Ok None]: any other return; [Raise]: the
    server left through [ereport(ERROR)]); curl handle creation; the bytes
    each transfer has written into its response buffer when the multi
    loop ends; and what the one byte of a buffer no transfer wrote to
    reads as ([malloc(1)], never initialised). *)
Class Net : Type := mkNet {
  SPI_connect_ok : bool;
  SPI_execute : string -> Exn (option ModelRow);
  curl_easy_init : nat -> bool;
  response_data : nat -> Transfer -> string;
  unwritten_data : nat -> string
}.

(** [snprintf(query, sizeof(query), "SELECT ... WHERE model_name = '%s'",
    req->model_name)] with [char query[1024]]: the name goes between the
    quotes as it is and the text is cut to 1023 characters. *)
Definition model_query (name : string) : string :=
  String.substring 0 1023
    ("SELECT uri, request_header, content_type, default_args, request_type FROM public.ai_model_list WHERE model_name = '"
     +:+ name +:+ "'").

(** [snprintf(merged_args, 2048, "{\"prompt\": \"%s\", %s}", input_data,
    user_args_json + 1)]: what is written into the array.  The first
    character of the user arguments is skipped; with empty user arguments
    the read starts past the terminator and nothing is given here. *)
Definition merged_args (req : BatchRequest) : option string :=
  match user_args_json req with
  | EmptyString => None
  | String _ tail =>
      Some (String.substring 0 2047
              ("{" +:+ dquote +:+ "prompt" +:+ dquote +:+ ": " +:+ dquote +:+ input_data req
               +:+ dquote +:+ ", " +:+ tail +:+ "}"))
  end.

(** The options set on the handle.  The header is printed into
    [content_type_header[256]] and so cut to 255 characters. *)
Definition configure (row : ModelRow) : Transfer :=
  {| CURLOPT_URL := uri row;
     CURLOPT_POSTFIELDS :=
       if bool_decide (request_type row = "POST") then Some merged_args_array else None;
     CURLOPT_HTTPHEADER := [String.substring 0 255 ("Content-Type: " +:+ content_type row)];
     CURLOPT_TIMEOUT := 30 |}.

Section Executor.
Context {net : Net}.

(** First loop, one element: the request after it and the transfer added
    to the multi handle, if any.  A raise of the server leaves the
    function. *)
Definition set_up (i : nat) (req : BatchRequest) : Exn (BatchRequest * option Transfer) :=
  if curl_easy_init i then
    found ← SPI_execute (model_query (model_name req));
    match found with
    | Some row => Ok (req, Some (configure row))
    | None =>
        Ok ({| request_id := request_id req; model_name := model_name req;
               input_data := input_data req; user_args_json := user_args_json req;
               completed := true;
               result := result req;
               error_msg := Some "Model not found" |}, None)
    end
  else Ok (req, None).

(** The first loop, from index [i] on. *)
Fixpoint set_up_from (i : nat) (reqs : list BatchRequest)
    : Exn (list (BatchRequest * option Transfer)) :=
  match reqs with
  | [] => Ok []
  | req :: rest =>
      p ← set_up i req;
      ps ← set_up_from (S i) rest;
      Ok (p :: ps)
  end.

(** [responses[i].data] after the multi loop. *)
Definition response_of (i : nat) (t : option Transfer) : string :=
  match t with
  | Some tr => response_data i tr
  | None => unwritten_data i
  end.

(** Last loop, one element. *)
Definition store_result (i : nat) (p : BatchRequest * option Transfer) : BatchRequest :=
  let req := p.1 in
  if completed req then req
  else {| request_id := request_id req; model_name := model_name req;
          input_data := input_data req; user_args_json := user_args_json req;
          completed := true;
          result := Some (response_of i p.2);
          error_msg := error_msg req |}.

(** The transfers handed to the network, with their array index. *)
Definition dispatched (set : list (BatchRequest * option Transfer)) : list (nat * Transfer) :=
  omap (fun p => t ← p.2.2; Some (p.1, t)) (imap (fun i x => (i, x)) set).

(** The array after the call and the transfers made; [None] when the
    function leaves through an error before its last loop: [SPI_connect]
    fails ([elog(ERROR)]) or the server raises on one of the queries. *)
Definition process_batch_requests_enhanced (reqs : list BatchRequest)
    : option (list BatchRequest * list (nat * Transfer)) :=
  if SPI_connect_ok then
    match set_up_from 0 reqs with
    | Ok set => Some (imap store_result set, dispatched set)
    | Raise _ => None
    end
  else None.

End Executor.

(** *** The queue, the worker and the callers *)

(** One flush: the addresses whose structs were copied into [req_array]
    (kept for reference only; the C array holds the copies alone), the
    copies, and, once the executor has run, what it left in the array. *)
Record Flush : Type := mkFlush {
  batch_addrs : list addr;
  req_array : list BatchRequest;
  outcome : option (list BatchRequest * list (nat * Transfer))
}.

Record World : Type := mkWorld {
  heap : list BatchRequest;
  ctx : BatchContext;
  in_flight : option Flush;
  flushed : list Flush
}.

(** [init_batch_context] *)
Definition init_batch_context : World :=
  {| heap := [];
     ctx := {| requests := []; request_count := 0; processing := false |};
     in_flight := None;
     flushed := [] |}.

Inductive signal : Type :=
| cond_signal
| cond_broadcast.

(** [ai_batch_invoke], from the [malloc] of the request to the first
    unlock: the request goes to the tail of the list.  Gives the address
    of the new request and the signals sent.  A request is named by its
    allocation; the [free] a caller makes when its call returns
    (ai.c:427-433), possibly while the request is still linked, is not
    followed, so the walk to the tail is the walk of a list of live
    requests: see [enqueues_between_flushes]. *)
Definition ai_batch_invoke_enqueue (guc : Guc) (w : World) (rid : Z) (model input args : string)
    : World * addr * list signal :=
  let new_request :=
    {| request_id := rid; model_name := model; input_data := input;
       user_args_json := args; completed := false; result := None;
       error_msg := None |} in
  let a := length (heap w) in
  let count := request_count (ctx w) + 1 in
  ({| heap := (heap w ++ [new_request])%list;
      ctx := {| requests := (requests (ctx w) ++ [a])%list;
                request_count := count;
                processing := processing (ctx w) |};
      in_flight := in_flight w;
      flushed := flushed w |},
   a,
   if batch_size guc <=? count then [cond_signal] else []).

(** The test the worker makes once [pthread_cond_timedwait] returns. *)
Definition flush_due (guc : Guc) (c : BatchContext) (wait_result : Z) : bool :=
  (0 <? request_count c)
  && ((batch_size guc <=? request_count c) || (wait_result =? ETIMEDOUT)).

(** The copy loop: [req_array[i] = *current] for the first
    [request_count] nodes of the list. *)
Definition copy_requests (w : World) : list addr * list BatchRequest :=
  let walked := take (Z.to_nat (request_count (ctx w))) (requests (ctx w)) in
  (walked, omap (fun a => heap w !! a) walked).

(** [batch_processor] from the return of the timed wait to the unlock
    before the executor is called.  [wait_result] is what the wait
    returned; which values it can return for the deadline computed from
    [batch_timeout_ms] is given by [wait_deadline] and
    [timedwait_returns] below. *)
Definition batch_processor_wake (guc : Guc) (w : World) (wait_result : Z) : World :=
  if flush_due guc (ctx w) wait_result then
    let '(walked, copies) := copy_requests w in
    {| heap := heap w;
       ctx := {| requests := requests (ctx w);
                 request_count := request_count (ctx w);
                 processing := true |};
       in_flight := Some {| batch_addrs := walked; req_array := copies; outcome := None |};
       flushed := flushed w |}
  else w.

(** [batch_processor] from the executor call to the end of the
    iteration: the executor works on [req_array], which is then freed,
    and the context is reset.  The count handed to the executor is read
    from the context right after the unlock (ai.c:207); it is taken here
    as read before any further enqueue, that is as the length of the
    array, which is what it is in every run where no request arrives
    between the unlock and the call ([enqueues_between_flushes]). *)
Definition batch_processor_finish `{Net} (w : World) (f : Flush) : World * list signal :=
  ({| heap := heap w;
      ctx := {| requests := []; request_count := 0; processing := false |};
      in_flight := None;
      flushed := (flushed w ++
                  [{| batch_addrs := batch_addrs f; req_array := req_array f;
                      outcome := process_batch_requests_enhanced (req_array f) |}])%list |},
   [cond_broadcast]).

(** What can happen next: a caller enters [ai_batch_invoke] (with batch
    processing disabled the call returns NULL at once and touches
    nothing), the parked worker returns from its timed wait, or the
    flushing worker completes.  A world exists once [init_batch_context]
    has run, so [global_batch_ctx] is not NULL. *)
Inductive event : Type :=
| Enqueue (rid : Z) (model input args : string)
| WorkerWakes (wait_result : Z)
| WorkerFinishes.

Definition step `{Net} (guc : Guc) (w : World) (e : event) : option (World * list signal) :=
  match e with
  | Enqueue rid model input args =>
      if enable_batch_processing guc then
        let '(w', _, sigs) := ai_batch_invoke_enqueue guc w rid model input args in
        Some (w', sigs)
      else Some (w, [])
  | WorkerWakes wait_result =>
      match in_flight w with
      | None => Some (batch_processor_wake guc w wait_result, [])
      | Some _ => None
      end
  | WorkerFinishes =>
      match in_flight w with
      | Some f => Some (batch_processor_finish w f)
      | None => None
      end
  end.

Fixpoint run `{Net} (guc : Guc) (w : World) (es : list event) : option World :=
  match es with
  | [] => Some w
  | e :: rest =>
      match step guc w e with
      | Some (w', _) => run guc w' rest
      | None => None
      end
  end.

(** The caller's side of [ai_batch_invoke] after the enqueue. *)
Inductive invoke_result : Type :=
| ReturnText (payload : string)
| ReturnNull
| RaiseError (msg : string).

(** [!new_request->completed && !global_batch_ctx->processing] *)
Definition keeps_waiting (w : World) (a : addr) : bool :=
  match heap w !! a with
  | Some r => negb (completed r) && negb (processing (ctx w))
  | None => false
  end.

(** The code after the loop. *)
Definition ai_batch_invoke_result (w : World) (a : addr) : invoke_result :=
  match heap w !! a with
  | Some r =>
      if completed r then
        match result r with
        | Some s => ReturnText s
        | None => ReturnNull
        end
      else ReturnNull
  | None => ReturnNull
  end.

(** The wait loop.  [w] is the world when the caller holds the mutex and
    tests the loop condition; each element of [wakes] is one return of
    [pthread_cond_timedwait]: its value and the world found on
    re-acquiring the mutex.  [None]: the caller is still blocked after
    the wake-ups given. *)
Fixpoint ai_batch_invoke_wait (a : addr) (w : World) (wakes : list (Z * World))
    : option invoke_result :=
  if keeps_waiting w a then
    match wakes with
    | [] => None
    | (wait_result, w') :: rest =>
        if wait_result =? ETIMEDOUT then Some (RaiseError "Batch processing timeout")
        else ai_batch_invoke_wait a w' rest
    end
  else Some (ai_batch_invoke_result w a).

(** The queue is consistent: the counter is the length of the list and
    every node is a request of the heap. *)
Definition consistent (w : World) : Prop :=
  request_count (ctx w) = Z.of_nat (length (requests (ctx w)))
  /\ Forall (fun a => (a < length (heap w))%nat) (requests (ctx w)).

(** Request [a] exists, is not in the queue, and no flush, finished or
    running, has taken it. *)
Definition dropped (a : addr) (w : World) : Prop :=
  (a < length (heap w))%nat
  /\ (a ∉ requests (ctx w))
  /\ (forall f, f ∈ flushed w -> a ∉ batch_addrs f)
  /\ (forall f, in_flight w = Some f -> a ∉ batch_addrs f).

(** No request of the heap has its [completed] flag set. *)
Definition all_pending (w : World) : Prop :=
  Forall (fun r => completed r = false) (heap w).

(** The name a text of the form [SELECT uri, request_header, content_type,
    default_args, request_type FROM public.ai_model_list WHERE model_name
    = '...'] asks for. *)
Definition model_query_head : list Sql.token :=
  [Sql.Word "select"; Sql.Word "uri"; Sql.Symbol ","; Sql.Word "request_header";
   Sql.Symbol ","; Sql.Word "content_type"; Sql.Symbol ","; Sql.Word "default_args";
   Sql.Symbol ","; Sql.Word "request_type"; Sql.Word "from";
   Sql.Word "public.ai_model_list"; Sql.Word "where"; Sql.Word "model_name";
   Sql.Symbol "="].

Definition read_model_query (text : string) : Sql.reading string :=
  match Sql.tokens text with
  | Sql.Reads toks =>
      match Sql.strip model_query_head toks with
      | Some [Sql.Constant name] => Sql.Reads name
      | _ => Sql.NotFollowed
      end
  | Sql.Unterminated => Sql.Unterminated
  | Sql.NotFollowed => Sql.NotFollowed
  end.

(** A network to run the unit on: the server reads the query, knows the
    model "gpt" and raises on text it cannot read as a query for one
    name; every handle is created, a transfer answers with its URL, and
    an unwritten buffer reads as the empty text. *)
Definition sample_net : Net :=
  {| SPI_connect_ok := true;
     SPI_execute := fun query =>
       match read_model_query query with
       | Sql.Reads name =>
           Ok (if bool_decide (name = "gpt")
               then Some {| uri := "https://models.example/gpt";
                            content_type := "application/json";
                            default_args := "{}"; request_type := "POST" |}
               else None)
       | Sql.Unterminated => Raise "unterminated quoted string"
       | Sql.NotFollowed => Raise "syntax error"
       end;
     curl_easy_init := fun _ => true;
     response_data := fun i t => "answer from " +:+ CURLOPT_URL t;
     unwritten_data := fun _ => EmptyString |}.

Definition sample_guc (size : Z) : Guc :=
  {| batch_size := size; batch_timeout_ms := 500; enable_batch_processing := true |}.

(** Three requests queued for a batch size of 3, the worker parked. *)
Definition three_queued_events : list event :=
  [Enqueue 1 "gpt" "A" "{}"; Enqueue 2 "gpt" "B" "{}"; Enqueue 3 "gpt" "C" "{}"].

Definition three_queued : World :=
  Eval vm_compute in
    default init_batch_context
      (run (H := sample_net) (sample_guc 3) init_batch_context three_queued_events).

(** *** WriteCallback *)

(** [HttpResponse]: the bytes received so far and their number; the
    terminating zero byte the callback writes after them is not part of
    [data]. *)
Record HttpResponse : Type := mkHttpResponse {
  data : string;
  size : Z
}.

(** [size_t] arithmetic. *)
Definition size_t (z : Z) : Z := z mod 18446744073709551616.

(** [realloc_ok] tells whether [realloc] gave memory; [contents] holds the
    bytes curl hands over, of which [size * nmemb] are copied.  Gives the
    value returned and the response after the call. *)
Definition WriteCallback (realloc_ok : bool) (contents : string) (size_arg nmemb : Z)
    (response : HttpResponse) : Z * HttpResponse :=
  let total_size := size_t (size_arg * nmemb) in
  if realloc_ok then
    (total_size,
     {| data := data response +:+ String.substring 0 (Z.to_nat total_size) contents;
        size := size_t (size response + total_size) |})
  else (0, response).

(** The buffer a transfer starts with: [malloc(1)], size 0. *)
Definition empty_response : HttpResponse := {| data := EmptyString; size := 0 |}.

(** A transfer that delivers its chunks one call each, as curl does with
    [size] 1 and [nmemb] the length of the chunk, memory never failing. *)
Definition receive (chunks : list string) (response : HttpResponse) : HttpResponse :=
  foldl (fun r chunk =>
           (WriteCallback true chunk 1 (Z.of_nat (String.length chunk)) r).2)
        response chunks.

(** The chunks of a transfer joined. *)
Definition joined (chunks : list string) : string :=
  foldr String.append EmptyString chunks.

(** *** process_batch_requests *)

(** The handle of the plain executor: a fixed URL, the input as body. *)
Definition plain_transfer (req : BatchRequest) : Transfer :=
  {| CURLOPT_URL := "https://api.example.com/v1/completions";
     CURLOPT_POSTFIELDS := Some (input_of_request (input_data req));
     CURLOPT_HTTPHEADER := [];
     CURLOPT_TIMEOUT := 30 |}.

(** The array after the call and the transfers made.  The model table is
    not read; the last loop assigns result and completed to every
    element. *)
Definition process_batch_requests `{Net} (reqs : list BatchRequest)
    : list BatchRequest * list (nat * Transfer) :=
  let set := imap (fun i req =>
                     (req, if curl_easy_init i then Some (plain_transfer req) else None))
                  reqs in
  (imap (fun i p =>
           {| request_id := request_id p.1; model_name := model_name p.1;
              input_data := input_data p.1; user_args_json := user_args_json p.1;
              completed := true;
              result := Some (response_of i p.2);
              error_msg := error_msg p.1 |}) set,
   dispatched set).

(** *** ai_configure_batch *)

(** The three variables the function can set. *)
Record Settings : Type := mkSettings {
  set_batch_size : Z;
  set_batch_timeout_ms : Z;
  set_max_concurrent_requests : Z
}.

(** Their initial values. *)
Definition default_settings : Settings :=
  {| set_batch_size := 10; set_batch_timeout_ms := 500; set_max_concurrent_requests := 50 |}.

(** The value returned and the variables after the call; [elog(ERROR)]
    raises. *)
Definition ai_configure_batch (s : Settings) (param_name : string) (param_value : Z)
    : Exn (bool * Settings) :=
  if bool_decide (param_name = "batch_size") then
    if (1 <=? param_value) && (param_value <=? 100) then
      Ok (true, {| set_batch_size := param_value;
                   set_batch_timeout_ms := set_batch_timeout_ms s;
                   set_max_concurrent_requests := set_max_concurrent_requests s |})
    else Raise "Batch size must be between 1 and 100"
  else if bool_decide (param_name = "batch_timeout_ms") then
    if (100 <=? param_value) && (param_value <=? 5000) then
      Ok (true, {| set_batch_size := set_batch_size s;
                   set_batch_timeout_ms := param_value;
                   set_max_concurrent_requests := set_max_concurrent_requests s |})
    else Raise "Batch timeout must be between 100 and 5000 ms"
  else if bool_decide (param_name = "max_concurrent_requests") then
    if (1 <=? param_value) && (param_value <=? 200) then
      Ok (true, {| set_batch_size := set_batch_size s;
                   set_batch_timeout_ms := set_batch_timeout_ms s;
                   set_max_concurrent_requests := param_value |})
    else Raise "Max concurrent requests must be between 1 and 200"
  else Raise ("Unknown parameter: " +:+ param_name).

(** A session of calls: a call that raises leaves the variables as they
    were. *)
Definition configure_all (s : Settings) (calls : list (string * Z)) : Settings :=
  foldl (fun s c =>
           match ai_configure_batch s c.1 c.2 with
           | Ok (_, s') => s'
           | Raise _ => s
           end) s calls.

Definition in_bounds (s : Settings) : Prop :=
  1 <= set_batch_size s <= 100
  /\ 100 <= set_batch_timeout_ms s <= 5000
  /\ 1 <= set_max_concurrent_requests s <= 200.

(** *** Reading the worlds *)

(** The addresses handed to the executor so far, flush after flush. *)
Definition history (w : World) : list addr :=
  concat (batch_addrs <$> flushed w).

(** The batch of the running flush, if any. *)
Definition current_batch (w : World) : list addr :=
  match in_flight w with
  | Some f => batch_addrs f
  | None => []
  end.

(** What holds of every world the unit builds. *)
Definition well_formed (w : World) : Prop :=
  request_count (ctx w) = Z.of_nat (length (requests (ctx w)))
  /\ StronglySorted lt (history w ++ requests (ctx w))
  /\ Forall (fun a => (a < length (heap w))%nat) (history w ++ requests (ctx w))
  /\ processing (ctx w) = bool_decide (is_Some (in_flight w))
  /\ (forall f, in_flight w = Some f ->
        batch_addrs f `prefix_of` requests (ctx w)
        /\ req_array f = omap (fun a => heap w !! a) (batch_addrs f)
        /\ batch_addrs f <> []).

(** Request [a] can no longer reach the executor: it exists, no flush has
    taken it, and it is not in the queue the next flush will copy. *)
Definition doomed (a : addr) (w : World) : Prop :=
  (a < length (heap w))%nat
  /\ (forall f, f ∈ flushed w -> a ∉ batch_addrs f)
  /\ match in_flight w with
     | Some f => a ∉ batch_addrs f
     | None => a ∉ requests (ctx w)
     end.

(** The three requests once the worker has started their flush. *)
Definition flushing_events : list event := (three_queued_events ++ [WorkerWakes 0])%list.

Definition flushing : World :=
  Eval vm_compute in
    default init_batch_context
      (run (H := sample_net) (sample_guc 3) init_batch_context flushing_events).

(** *** The worker's timed wait *)

(** [struct timespec] *)
Record timespec : Type := mkTimespec {
  tv_sec : Z;
  tv_nsec : Z
}.

Definition INT_MAX : Z := 2147483647.

(** The value [pthread_cond_timedwait] returns for an invalid argument. *)
Definition EINVAL : Z := 22.

(** The deadline the worker computes (ai.c:177-183) from the clock
    reading: [batch_timeout_ms * 1000000] is an [int] product, added to
    [tv_nsec], and one second is carried over when the sum reaches 10^9.
    [None]: the product overflows [int], which C leaves undefined. *)
Definition wait_deadline (guc : Guc) (clock : timespec) : option timespec :=
  let added := batch_timeout_ms guc * 1000000 in
  if (- INT_MAX - 1 <=? added) && (added <=? INT_MAX) then
    let nsec := tv_nsec clock + added in
    Some (if 1000000000 <=? nsec
          then {| tv_sec := tv_sec clock + 1; tv_nsec := nsec - 1000000000 |}
          else {| tv_sec := tv_sec clock; tv_nsec := nsec |})
  else None.

(** The values [pthread_cond_timedwait] can return for a deadline: with
    [tv_nsec] outside 0 .. 10^9 - 1 the call fails with [EINVAL] without
    waiting; otherwise it returns 0 once woken or [ETIMEDOUT] once the
    deadline has passed. *)
Definition timedwait_returns (abstime : timespec) (r : Z) : bool :=
  if (0 <=? tv_nsec abstime) && (tv_nsec abstime <? 1000000000)
  then (r =? 0) || (r =? ETIMEDOUT)
  else r =? EINVAL.

(** One return of the worker's wait: the clock reading it started from
    and the value returned.  It can happen when the deadline computed
    from the reading allows the value. *)
Definition wait_can_return (guc : Guc) (p : timespec * Z) : Prop :=
  0 <= tv_nsec p.1 < 1000000000
  /\ exists deadline, wait_deadline guc p.1 = Some deadline
                      /\ timedwait_returns deadline p.2 = true.

(** One request queued for a batch size of 10, the worker parked. *)
Definition one_queued : World :=
  Eval vm_compute in
    (ai_batch_invoke_enqueue
       {| batch_size := 10; batch_timeout_ms := 2000; enable_batch_processing := true |}
       init_batch_context 1 "gpt" "A" "{}").1.1.

(** *** Runs in which no request arrives during a flush *)

(** Every [Enqueue] of the run happens while no flush is in flight.  In
    such a run no caller walks the list while a request of it may have
    been freed by its caller (ai.c:427-433), and the count the executor is
    given (read at ai.c:207, after the unlock) is the one the copy loop
    used. *)
Fixpoint enqueues_between_flushes `{Net} (guc : Guc) (w : World) (es : list event) : bool :=
  match es with
  | [] => true
  | e :: rest =>
      match e with
      | Enqueue _ _ _ _ => match in_flight w with None => true | Some _ => false end
      | _ => true
      end
      && match step guc w e with
         | Some (w', _) => enqueues_between_flushes guc w' rest
         | None => true
         end
  end.

(** The flush in flight, if any, has taken the whole queue. *)
Definition whole_queue_taken (w : World) : Prop :=
  forall f, in_flight w = Some f -> batch_addrs f = requests (ctx w).

End Batch.

(** ** The result cache: lookup, store and clear *)

Module CacheSpec.
Import Sql Cache.

Lemma has_key_true m h r :
  has_key m h r = true <-> model_name r = m /\ args_hash r = h.
Proof.
  unfold has_key. rewrite andb_true_iff, !bool_decide_eq_true. tauto.
Qed.

Lemma has_key_row_key m h r : has_key m h r = true <-> row_key r = (m, h).
Proof.
  rewrite has_key_true. unfold row_key. split.
  - intros [-> ->]. reflexivity.
  - intros [= -> ->]. auto.
Qed.

Lemma newest_elem rows r : newest rows = Some r -> r ∈ rows.
Proof.
  revert r. induction rows as [|x rows IH]; intros r; simpl; [discriminate|].
  destruct (newest rows) as [r'|] eqn:E.
  - destruct (created_time x <? created_time r'); intros [= <-].
    + right. apply IH. reflexivity.
    + left.
  - intros [= <-]. left.
Qed.

Lemma newest_nonempty rows : rows <> [] -> is_Some (newest rows).
Proof.
  destruct rows as [|x rows]; [congruence|]. intros _. simpl.
  destruct (newest rows) as [r'|]; [destruct (_ <? _)|]; eauto.
Qed.

(** A lookup that hits was served by a row with that key which is not yet
    expired. *)
Lemma lookup_hit_inv db now m h ttl txt ct :
  lookup_cache_result db now m h ttl = Some (txt, ct) ->
  exists r, r ∈ result_cache db /\ has_key m h r = true /\ now < expiry_time r
            /\ result_text r = Some txt /\ created_time r = ct.
Proof.
  unfold lookup_cache_result. destruct (spi_connects db); [|discriminate].
  destruct (newest _) as [r|] eqn:E; [|discriminate].
  destruct (result_text r) as [t|] eqn:Et; [|discriminate].
  intros [= <- <-]. apply newest_elem in E.
  unfold live_matches in E. apply list_elem_of_filter in E as [[Hk Hl] Hin].
  exists r. auto.
Qed.

(** When every live row under the key carries the same text and creation
    time, the lookup returns them as soon as one such row exists. *)
Lemma lookup_uniform db now m h ttl txt ct :
  spi_connects db = true ->
  (forall r, r ∈ result_cache db -> has_key m h r = true -> now < expiry_time r ->
             result_text r = Some txt /\ created_time r = ct) ->
  (exists r, r ∈ result_cache db /\ has_key m h r = true /\ now < expiry_time r) ->
  lookup_cache_result db now m h ttl = Some (txt, ct).
Proof.
  intros Hspi Hall (r0 & Hin & Hk & Hl). unfold lookup_cache_result. rewrite Hspi.
  assert (Hne : live_matches now m h (result_cache db) <> []).
  { intros E. assert (r0 ∈ live_matches now m h (result_cache db)) as Hr.
    { unfold live_matches. apply list_elem_of_filter. auto. }
    rewrite E in Hr. inversion Hr. }
  destruct (newest_nonempty _ Hne) as [r Hr]. rewrite Hr.
  apply newest_elem in Hr. unfold live_matches in Hr.
  apply list_elem_of_filter in Hr as [[Hk' Hl'] Hin'].
  destruct (Hall r Hin' Hk' Hl') as [-> ->]. reflexivity.
Qed.

Lemma lookup_no_live db now m h ttl :
  (forall r, r ∈ result_cache db -> has_key m h r = true -> ~ now < expiry_time r) ->
  lookup_cache_result db now m h ttl = None.
Proof.
  intros Hno. destruct (lookup_cache_result db now m h ttl) as [[txt ct]|] eqn:E; [|reflexivity].
  apply lookup_hit_inv in E as (r & Hin & Hk & Hl & _). exfalso. eapply Hno; eauto.
Qed.

Lemma existsb_has_key m h rows :
  existsb (has_key m h) rows = true <-> exists r, r ∈ rows /\ has_key m h r = true.
Proof.
  rewrite existsb_exists. setoid_rewrite list_elem_of_In. reflexivity.
Qed.

(** The rows under the key after an upsert all carry the new payload and
    times; at least one exists. *)
Lemma upsert_rows_of_key new rows r :
  r ∈ upsert new rows -> has_key (model_name new) (args_hash new) r = true ->
  result_text r = result_text new /\ created_time r = created_time new
  /\ expiry_time r = expiry_time new.
Proof.
  unfold upsert. destruct (existsb _ rows) eqn:E.
  - intros Hin Hk. apply list_elem_of_fmap in Hin as (r0 & -> & Hin0).
    destruct (has_key _ _ r0) eqn:E0.
    + simpl. auto.
    + congruence.
  - intros Hin Hk. apply elem_of_app in Hin as [Hin|Hin].
    + assert (existsb (has_key (model_name new) (args_hash new)) rows = true).
      { apply existsb_has_key. eauto. }
      congruence.
    + apply list_elem_of_singleton in Hin as ->. auto.
Qed.

Lemma upsert_has_row new rows :
  exists r, r ∈ upsert new rows /\ has_key (model_name new) (args_hash new) r = true.
Proof.
  unfold upsert. destruct (existsb _ rows) eqn:E.
  - apply existsb_has_key in E as (r & Hin & Hk).
    exists (conflict_update new r). split.
    + apply list_elem_of_fmap. exists r. rewrite Hk. auto.
    + apply has_key_true. simpl. apply has_key_true in Hk. exact Hk.
  - exists new. split.
    + apply elem_of_app. right. left.
    + apply has_key_true. auto.
Qed.

Lemma store_result_cache db now m h c v ttl :
  spi_connects db = true ->
  result_cache (store_cache_result db now m h c v ttl)
  = upsert (inserted_row now m h c v ttl) (result_cache db)
  /\ spi_connects (store_cache_result db now m h c v ttl) = true.
Proof.
  intros Hspi. unfold store_cache_result. rewrite Hspi. simpl. auto.
Qed.

Lemma entries_for_pos m h rows :
  (0 < entries_for m h rows)%nat <-> exists r, r ∈ rows /\ has_key m h r = true.
Proof.
  unfold entries_for. split.
  - intros Hlen. destruct (filter _ rows) as [|r l] eqn:E; [simpl in Hlen; lia|].
    assert (r ∈ filter (fun r => has_key m h r = true) rows) as Hr by (rewrite E; left).
    apply list_elem_of_filter in Hr. exists r. tauto.
  - intros (r & Hin & Hk).
    assert (r ∈ filter (fun r => has_key m h r = true) rows) as Hr
      by (apply list_elem_of_filter; auto).
    destruct (filter _ rows); [inversion Hr | simpl; lia].
Qed.

Lemma lookup_after_store_live db t0 t m h c v ttl ttl' :
  spi_connects db = true ->
  t < expiry_of t0 ttl ->
  lookup_cache_result (store_cache_result db t0 m h c v ttl) t m h ttl' = Some (v, t0).
Proof.
  intros Hspi Hlt.
  destruct (store_result_cache db t0 m h c v ttl Hspi) as [Hrc Hspi'].
  pose proof (upsert_rows_of_key (inserted_row t0 m h c v ttl) (result_cache db)) as Hrows.
  pose proof (upsert_has_row (inserted_row t0 m h c v ttl) (result_cache db)) as Hex.
  rewrite <- Hrc in Hrows, Hex. simpl in Hrows, Hex.
  apply lookup_uniform; [exact Hspi'| |].
  - intros r Hin Hk _. destruct (Hrows r Hin Hk) as (-> & -> & _). auto.
  - destruct Hex as (r & Hin & Hk). exists r. split; [exact Hin|]. split; [exact Hk|].
    destruct (Hrows r Hin Hk) as (_ & _ & ->). exact Hlt.
Qed.

Lemma lookup_after_store_expired db t0 t m h c v ttl ttl' :
  spi_connects db = true ->
  expiry_of t0 ttl <= t ->
  lookup_cache_result (store_cache_result db t0 m h c v ttl) t m h ttl' = None
  /\ (0 < entries_for m h (result_cache (store_cache_result db t0 m h c v ttl)))%nat.
Proof.
  intros Hspi Hge.
  destruct (store_result_cache db t0 m h c v ttl Hspi) as [Hrc Hspi'].
  pose proof (upsert_rows_of_key (inserted_row t0 m h c v ttl) (result_cache db)) as Hrows.
  pose proof (upsert_has_row (inserted_row t0 m h c v ttl) (result_cache db)) as Hex.
  rewrite <- Hrc in Hrows, Hex. simpl in Hrows, Hex. split.
  - apply lookup_no_live. intros r Hin Hk.
    destruct (Hrows r Hin Hk) as (_ & _ & ->). lia.
  - apply entries_for_pos. exact Hex.
Qed.

(** *** The statement text *)

Lemma append_cons c s t : String c s +:+ t = String c (s +:+ t).
Proof. reflexivity. Qed.

Lemma append_nil_l s : EmptyString +:+ s = s.
Proof. reflexivity. Qed.

Lemma append_nil_r s : s +:+ EmptyString = s.
Proof. induction s as [|c s IH]; [reflexivity|]. rewrite append_cons, IH. reflexivity. Qed.

Lemma append_assoc s t u : (s +:+ t) +:+ u = s +:+ (t +:+ u).
Proof.
  induction s as [|c s IH]; [reflexivity|]. rewrite !append_cons, IH. reflexivity.
Qed.

(** Scanning goes left to right. *)
Lemma scan_from_app l a b : scan_from l (a +:+ b) = scan_from (scan_from l a) b.
Proof.
  revert l. induction a as [|c a IH]; intros l; [reflexivity|].
  rewrite append_cons. simpl. apply IH.
Qed.

Lemma add_char_app acc c s : add_char acc c +:+ s = acc +:+ String c s.
Proof. unfold add_char. rewrite append_assoc. reflexivity. Qed.

(** Inside a string constant a text with no quote and no backslash is
    taken as it is. *)
Lemma scan_plain acc toks s :
  sql_plain s = true ->
  scan_from {| at_mode := InConstant acc; scanned := toks |} s
  = {| at_mode := InConstant (acc +:+ s); scanned := toks |}.
Proof.
  revert acc. induction s as [|c s IH]; intros acc Hs.
  - simpl. rewrite append_nil_r. reflexivity.
  - simpl in Hs. apply andb_true_iff in Hs as [Hc Hs]. apply andb_true_iff in Hc as [Hq Hb].
    apply negb_true_iff in Hq, Hb.
    simpl. unfold scan_char. simpl. rewrite Hq, Hb. rewrite IH by exact Hs.
    rewrite add_char_app. reflexivity.
Qed.

(** What [quote_literal_cstr] puts between the quotes reads back as the
    text quoted. *)
Lemma scan_doubled acc toks s :
  has_backslash s = false ->
  scan_from {| at_mode := InConstant acc; scanned := toks |} (doubled s)
  = {| at_mode := InConstant (acc +:+ s); scanned := toks |}.
Proof.
  revert acc. induction s as [|c s IH]; intros acc Hs.
  - simpl. rewrite append_nil_r. reflexivity.
  - simpl in Hs. apply orb_false_iff in Hs as [Hb Hs].
    simpl. rewrite Hb, orb_false_r.
    destruct (Ascii.eqb c quote) eqn:Hq.
    + apply Ascii.eqb_eq in Hq. subst c. simpl. unfold scan_char at 2. simpl.
      unfold scan_char at 1. simpl. rewrite IH by exact Hs. rewrite add_char_app. reflexivity.
    + simpl. unfold scan_char. simpl. rewrite Hq, Hb. rewrite IH by exact Hs.
      rewrite add_char_app. reflexivity.
Qed.

Lemma sql_plain_app s t : sql_plain (s +:+ t) = sql_plain s && sql_plain t.
Proof.
  induction s as [|c s IH]; [reflexivity|]. rewrite append_cons. simpl. rewrite IH.
  rewrite !andb_assoc. reflexivity.
Qed.

Lemma pretty_N_go_plain x s : sql_plain (pretty_N_go x s) = sql_plain s.
Proof.
  revert s. induction (N.lt_wf_0 x) as [x _ IH]; intros s.
  destruct (decide (x = 0)%N) as [->|Hx].
  - rewrite pretty_N_go_0. reflexivity.
  - rewrite pretty_N_go_step by lia. rewrite IH by (apply N.div_lt; lia).
    simpl. unfold pretty_N_char. repeat case_match; reflexivity.
Qed.

(** What [%d] prints holds no quote and no backslash. *)
Lemma pretty_plain (z : Z) : sql_plain (pretty z) = true.
Proof.
  assert (HN : forall p, sql_plain (pretty (N.pos p)) = true).
  { intros p. unfold pretty, pretty_N. destruct (decide (N.pos p = 0%N)); [reflexivity|].
    apply pretty_N_go_plain. }
  unfold pretty, pretty_Z. destruct z as [|p|p]; [reflexivity|apply HN|].
  rewrite sql_plain_app. apply andb_true_iff. split; [reflexivity|apply HN].
Qed.

Lemma hex_digit_plain n acc : sql_plain (String (hex_digit n) acc) = sql_plain acc.
Proof.
  unfold hex_digit. generalize (Z.to_nat n). intros k.
  do 16 (destruct k as [|k]; [reflexivity|]). reflexivity.
Qed.

(** A [%08x] text holds no quote and no backslash. *)
Lemma hex08_plain z : sql_plain (hex08 z) = true.
Proof.
  unfold hex08. generalize (z mod 4294967296). intros y.
  assert (H : forall k y acc, sql_plain (hex_digits k y acc) = sql_plain acc).
  { induction k as [|k IH]; intros y' acc; [reflexivity|].
    cbn [hex_digits]. rewrite IH. apply hex_digit_plain. }
  rewrite H. reflexivity.
Qed.

(** The key of the batch lookup is as plain as the input text. *)
Lemma simple_hash_plain x i : sql_plain (simple_hash x i) = sql_plain x.
Proof.
  unfold simple_hash. rewrite !sql_plain_app, pretty_plain.
  change (sql_plain "batch_") with true. change (sql_plain "_") with true.
  rewrite andb_true_r. reflexivity.
Qed.

Lemma strip_app head rest : strip head (head ++ rest) = Some rest.
Proof.
  induction head as [|h head IH]; [reflexivity|].
  simpl. rewrite bool_decide_eq_true_2 by reflexivity. exact IH.
Qed.

(** With a plain key the SELECT printed asks for the rows of that key
    that are not expired. *)
Lemma read_select_plain m h :
  sql_plain m = true -> sql_plain h = true ->
  read_select (lookup_query_sql m h)
  = Reads [[ColumnIs "model_name" m; ColumnIs "args_hash" h; Unexpired]].
Proof.
  intros Hm Hh. unfold read_select, tokens, lookup_query_sql.
  rewrite !scan_from_app.
  match goal with |- context [scan_from start ?a] =>
    assert (E : scan_from start a
                = {| at_mode := InConstant EmptyString;
                     scanned := (select_head ++ [Word "model_name"; Symbol "="])%list |})
      by (vm_compute; reflexivity); rewrite E; clear E end.
  rewrite (scan_plain _ _ m Hm), append_nil_l.
  match goal with |- context [scan_from {| at_mode := InConstant m; scanned := ?t |} ?a] =>
    assert (E : scan_from {| at_mode := InConstant m; scanned := t |} a
                = {| at_mode := InConstant EmptyString;
                     scanned := (t ++ [Constant m; Word "and"; Word "args_hash";
                                       Symbol "="])%list |})
      by reflexivity; rewrite E; clear E end.
  rewrite (scan_plain _ _ h Hh), append_nil_l.
  match goal with |- context [scan_from {| at_mode := InConstant h; scanned := ?t |} ?a] =>
    assert (E : scan_from {| at_mode := InConstant h; scanned := t |} a
                = {| at_mode := InWord "1";
                     scanned := (t ++ [Constant h; Word "and"; Word "expiry_time"; Symbol ">";
                                       Word "now"; Symbol "("; Symbol ")";
                                       Word "order"; Word "by"; Word "created_time";
                                       Word "desc"; Word "limit"])%list |})
      by reflexivity; rewrite E; clear E end.
  unfold finish. cbn [at_mode scanned].
  rewrite <- !app_assoc, strip_app. reflexivity.
Qed.

Lemma satisfies_key now m h r :
  satisfies now [[ColumnIs "model_name" m; ColumnIs "args_hash" h; Unexpired]] r = true
  <-> has_key m h r = true /\ now < expiry_time r.
Proof.
  unfold satisfies, has_key. simpl. rewrite orb_false_r, andb_true_r.
  rewrite !andb_true_iff, !bool_decide_eq_true. tauto.
Qed.

Lemma lookup_sql_plain db now m h ttl :
  sql_plain m = true -> sql_plain h = true ->
  lookup_cache_result_sql db now m h = Reads (lookup_cache_result db now m h ttl).
Proof.
  intros Hm Hh. unfold lookup_cache_result_sql, lookup_cache_result.
  destruct (spi_connects db); [|reflexivity].
  rewrite (read_select_plain m h Hm Hh).
  assert (filter (fun r => satisfies now
                             [[ColumnIs "model_name" m; ColumnIs "args_hash" h; Unexpired]] r
                           = true) (result_cache db)
          = live_matches now m h (result_cache db)) as ->; [|reflexivity].
  unfold live_matches. apply list_filter_iff. intros r. apply satisfies_key.
Qed.

(** With plain key texts and a result without backslash the INSERT
    printed has the four texts as its constants. *)
Lemma read_insert_plain m h c v ttl :
  sql_plain m = true -> sql_plain h = true -> sql_plain c = true ->
  has_backslash v = false ->
  read_insert (store_insert_sql m h c (quote_literal_cstr v) ttl) ttl = Reads (m, h, c, v).
Proof.
  intros Hm Hh Hc Hv. unfold read_insert, tokens, store_insert_sql, quote_literal_cstr.
  rewrite Hv, append_nil_l, !scan_from_app.
  match goal with |- context [scan_from start ?a] =>
    assert (E : scan_from start a
                = {| at_mode := InConstant EmptyString; scanned := insert_head |})
      by (vm_compute; reflexivity); rewrite E; clear E end.
  rewrite (scan_plain _ _ m Hm), append_nil_l.
  match goal with |- context [scan_from {| at_mode := InConstant m; scanned := ?t |} ?a] =>
    assert (E : scan_from {| at_mode := InConstant m; scanned := t |} a
                = {| at_mode := InConstant EmptyString;
                     scanned := (t ++ [Constant m; Symbol ","])%list |})
      by reflexivity; rewrite E; clear E end.
  rewrite (scan_plain _ _ h Hh), append_nil_l.
  match goal with |- context [scan_from {| at_mode := InConstant h; scanned := ?t |} ?a] =>
    assert (E : scan_from {| at_mode := InConstant h; scanned := t |} a
                = {| at_mode := InConstant EmptyString;
                     scanned := (t ++ [Constant h; Symbol ","])%list |})
      by reflexivity; rewrite E; clear E end.
  rewrite (scan_plain _ _ c Hc), append_nil_l.
  match goal with |- context [scan_from {| at_mode := InConstant c; scanned := ?t |} ?a] =>
    assert (E : scan_from {| at_mode := InConstant c; scanned := t |} a
                = {| at_mode := Between; scanned := (t ++ [Constant c; Symbol ","])%list |})
      by reflexivity; rewrite E; clear E end.
  match goal with |- context [scan_from {| at_mode := Between; scanned := ?t |} "'"] =>
    change (scan_from {| at_mode := Between; scanned := t |} "'")
      with {| at_mode := InConstant EmptyString; scanned := t |} end.
  rewrite (scan_doubled _ _ v Hv), append_nil_l.
  match goal with |- context [scan_from {| at_mode := InConstant v; scanned := ?t |} "'"] =>
    change (scan_from {| at_mode := InConstant v; scanned := t |} "'")
      with {| at_mode := AfterQuote v; scanned := t |} end.
  match goal with |- context [scan_from {| at_mode := AfterQuote v; scanned := ?t |} ?a] =>
    assert (E : scan_from {| at_mode := AfterQuote v; scanned := t |} a
                = {| at_mode := InConstant EmptyString;
                     scanned := ((t ++ [Constant v]) ++ insert_times)%list |})
      by reflexivity; rewrite E; clear E end.
  rewrite (scan_plain _ _ (pretty ttl) (pretty_plain ttl)), append_nil_l.
  match goal with |- context [scan_from {| at_mode := InConstant ?p; scanned := ?t |} ?a] =>
    change a with (" seconds" +:+ String.substring 8 (String.length a) a) end.
  rewrite scan_from_app, (scan_plain _ _ " seconds" eq_refl).
  match goal with |- context [scan_from {| at_mode := InConstant ?p; scanned := ?t |} ?a] =>
    assert (E : scan_from {| at_mode := InConstant p; scanned := t |} a
                = {| at_mode := InWord "1";
                     scanned := (t ++ removelast (insert_conflict p))%list |})
      by reflexivity; rewrite E; clear E end.
  unfold finish. cbn [at_mode scanned].
  rewrite <- !app_assoc, strip_app.
  cbn [app]. rewrite !Ascii.eqb_refl. cbn [andb].
  rewrite bool_decide_eq_true_2; reflexivity.
Qed.

Lemma store_sql_plain db now m h c v ttl :
  sql_plain m = true -> sql_plain h = true -> sql_plain c = true ->
  has_backslash v = false ->
  store_cache_result_sql db now m h c v ttl = Reads (store_cache_result db now m h c v ttl).
Proof.
  intros Hm Hh Hc Hv. unfold store_cache_result_sql.
  rewrite (read_insert_plain m h c v ttl Hm Hh Hc Hv).
  unfold store_cache_result. destruct (spi_connects db); reflexivity.
Qed.

(** C5. Evaluation of [lookup_cache_result] on the statements it sends.
    A result is stored at time 0 with a TTL of 60 seconds under the key
    ("m", "0000002a"); the time is then 90 s.  Looked up under its own
    key the row is a miss.  With the model name [x' OR true OR '1'='1]
    the text sent has the WHERE clause [model_name = 'x' OR true OR
    '1'='1' AND args_hash = '0000002a' AND expiry_time > now()], which
    holds of every row, and the expired row of the other key is returned
    as a hit.  With the model name [o'brien] the text sent ends inside a
    string constant. *)
Theorem crafted_model_name_is_served_an_expired_row :
  let crafted := "x' OR true OR '1'='1" in
  exists db,
    store_cache_result_sql {| spi_connects := true; result_cache := []; cache_stats := [] |}
      0 "m" "0000002a" "c" "stale" 60 = Reads db
    /\ result_cache db = [mkCacheRow "m" "0000002a" "c" (Some "stale") 0 60000000 1]
    /\ lookup_cache_result_sql db 59999999 "m" "0000002a" = Reads (Some ("stale", 0))
    /\ lookup_cache_result_sql db 90000000 "m" "0000002a" = Reads None
    /\ lookup_query_sql crafted "0000002a"
       = "SELECT result_text, created_time FROM ai.result_cache WHERE model_name = 'x' OR true OR '1'='1' AND args_hash = '0000002a' AND expiry_time > now() ORDER BY created_time DESC LIMIT 1"
    /\ read_select (lookup_query_sql crafted "0000002a")
       = Reads [[ColumnIs "model_name" "x"]; [Truth true];
                [ConstantsEqual "1" "1"; ColumnIs "args_hash" "0000002a"; Unexpired]]
    /\ lookup_cache_result_sql db 90000000 crafted "0000002a" = Reads (Some ("stale", 0))
    /\ lookup_cache_result_sql db 90000000 "o'brien" "0000002a" = Unterminated.
Proof.
  intros crafted. eexists. split; [vm_compute; reflexivity|].
  repeat split; vm_compute; reflexivity.
Qed.

(** *** Upsert *)

Lemma upsert_keys_conflict new rows :
  existsb (has_key (model_name new) (args_hash new)) rows = true ->
  row_key <$> upsert new rows = row_key <$> rows.
Proof.
  intros E. unfold upsert. rewrite E. rewrite <- list_fmap_compose.
  apply list_fmap_ext. intros i r _. simpl.
  destruct (has_key _ _ r); reflexivity.
Qed.

Lemma upsert_unique_keys new rows :
  unique_keys rows -> unique_keys (upsert new rows).
Proof.
  unfold unique_keys. intros Hnd.
  destruct (existsb (has_key (model_name new) (args_hash new)) rows) eqn:E.
  - rewrite upsert_keys_conflict by exact E. exact Hnd.
  - unfold upsert. rewrite E, fmap_app. apply NoDup_app. split; [exact Hnd|].
    split; [|apply NoDup_singleton].
    intros k Hk Hk'. simpl in Hk'. apply list_elem_of_singleton in Hk'. subst k.
    apply list_elem_of_fmap in Hk as (r & Hr & Hin).
    assert (existsb (has_key (model_name new) (args_hash new)) rows = true); [|congruence].
    apply existsb_has_key. exists r. split; [exact Hin|].
    apply has_key_row_key. symmetry. exact Hr.
Qed.

(** Under the unique index a key has one row or none. *)
Lemma entries_for_unique m h rows :
  unique_keys rows ->
  entries_for m h rows = if existsb (has_key m h) rows then 1%nat else 0%nat.
Proof.
  unfold unique_keys, entries_for. induction rows as [|r rows IH]; [reflexivity|].
  rewrite fmap_cons, NoDup_cons. intros [Hnotin Hnd]. simpl existsb.
  rewrite filter_cons. destruct (has_key m h r) eqn:Hk.
  - rewrite decide_True by reflexivity. simpl. rewrite (IH Hnd).
    destruct (existsb (has_key m h) rows) eqn:E; [|reflexivity].
    exfalso. apply Hnotin. apply existsb_has_key in E as (r' & Hin & Hk').
    apply list_elem_of_fmap. exists r'. split; [|exact Hin].
    apply has_key_row_key in Hk, Hk'. congruence.
  - rewrite decide_False by congruence. simpl. apply IH. exact Hnd.
Qed.

Lemma upsert_entries_for new rows :
  unique_keys rows ->
  entries_for (model_name new) (args_hash new) (upsert new rows) = 1%nat.
Proof.
  intros Hu. rewrite entries_for_unique by (apply upsert_unique_keys; exact Hu).
  destruct (upsert_has_row new rows) as (r & Hin & Hk).
  assert (existsb (has_key (model_name new) (args_hash new)) (upsert new rows) = true) as ->.
  { apply existsb_has_key. eauto. }
  reflexivity.
Qed.

(** Rows under other keys are left as they are. *)
Lemma upsert_other_keys new rows m h :
  (m, h) <> (model_name new, args_hash new) ->
  filter (fun r => has_key m h r = true) (upsert new rows)
  = filter (fun r => has_key m h r = true) rows.
Proof.
  intros Hne. unfold upsert.
  assert (Hnew : forall r, has_key (model_name new) (args_hash new) r = true ->
                           has_key m h r = false).
  { intros r Hk. destruct (has_key m h r) eqn:E; [|reflexivity].
    apply has_key_row_key in Hk, E. congruence. }
  destruct (existsb _ rows).
  - induction rows as [|r rows IH]; [reflexivity|].
    rewrite fmap_cons, !filter_cons.
    destruct (has_key (model_name new) (args_hash new) r) eqn:Hk.
    + assert (has_key m h (conflict_update new r) = false) as E1.
      { apply Hnew. apply has_key_true. simpl. apply has_key_true. exact Hk. }
      rewrite (Hnew r Hk), E1. rewrite !decide_False by congruence. exact IH.
    + destruct (decide (has_key m h r = true)); rewrite IH; reflexivity.
  - rewrite filter_app. rewrite (filter_cons _ new), filter_nil.
    rewrite decide_False.
    + apply app_nil_r.
    + rewrite Hnew; [congruence|]. apply has_key_true. auto.
Qed.

(** The upsert on the values given, the table carrying its unique index:
    with no row of the key a row is appended; with a row of the key that
    row is rewritten and its access count goes up by one, the other rows
    staying as they were; two stores leave one row of the key. *)
Lemma upsert_on_values db m h :
  spi_connects db = true ->
  unique_keys (result_cache db) ->
  (forall now c v ttl,
     entries_for m h (result_cache db) = 0%nat ->
     result_cache (store_cache_result db now m h c v ttl)
     = (result_cache db ++ [mkCacheRow m h c (Some v) now (expiry_of now ttl) 1])%list)
  /\ (forall now c v ttl old,
        old ∈ result_cache db -> has_key m h old = true ->
        let db' := store_cache_result db now m h c v ttl in
        mkCacheRow m h (content_hash old) (Some v) now (expiry_of now ttl)
                   (access_count old + 1) ∈ result_cache db'
        /\ entries_for m h (result_cache db') = 1%nat
        /\ length (result_cache db') = length (result_cache db)
        /\ (forall m' h', (m', h') <> (m, h) ->
              filter (fun r => has_key m' h' r = true) (result_cache db')
              = filter (fun r => has_key m' h' r = true) (result_cache db)))
  /\ (forall t1 c1 v1 ttl1 t2 c2 v2 ttl2 t ttl',
        let db2 := store_cache_result (store_cache_result db t1 m h c1 v1 ttl1)
                     t2 m h c2 v2 ttl2 in
        unique_keys (result_cache db2)
        /\ entries_for m h (result_cache db2) = 1%nat
        /\ (t < expiry_of t2 ttl2 -> lookup_cache_result db2 t m h ttl' = Some (v2, t2))).
Proof.
  intros Hspi Hu. split; [|split].
  - intros now c v ttl Hzero.
    destruct (store_result_cache db now m h c v ttl Hspi) as [-> _].
    unfold upsert. simpl.
    rewrite (entries_for_unique m h _ Hu) in Hzero.
    destruct (existsb (has_key m h) (result_cache db)); [discriminate|reflexivity].
  - intros now c v ttl old Hin Hk db'.
    destruct (store_result_cache db now m h c v ttl Hspi) as [Hrc _]. fold db' in Hrc.
    rewrite Hrc. split; [|split; [|split]].
    + unfold upsert. simpl.
      assert (existsb (has_key m h) (result_cache db) = true) as ->
        by (apply existsb_has_key; eauto).
      apply list_elem_of_fmap. exists old. rewrite Hk. split; [|exact Hin].
      unfold conflict_update. simpl. apply has_key_true in Hk as [-> ->]. reflexivity.
    + apply (upsert_entries_for (inserted_row now m h c v ttl)). exact Hu.
    + unfold upsert. simpl.
      assert (existsb (has_key m h) (result_cache db) = true) as ->
        by (apply existsb_has_key; eauto).
      apply length_fmap.
    + intros m' h' Hne. apply upsert_other_keys. simpl. exact Hne.
  - intros t1 c1 v1 ttl1 t2 c2 v2 ttl2 t ttl' db2.
    destruct (store_result_cache db t1 m h c1 v1 ttl1 Hspi) as [Hrc1 Hspi1].
    destruct (store_result_cache _ t2 m h c2 v2 ttl2 Hspi1) as [Hrc2 Hspi2].
    fold db2 in Hrc2, Hspi2.
    assert (Hu1 : unique_keys (result_cache (store_cache_result db t1 m h c1 v1 ttl1))).
    { rewrite Hrc1. apply upsert_unique_keys. exact Hu. }
    split; [|split].
    + rewrite Hrc2. apply upsert_unique_keys. exact Hu1.
    + rewrite Hrc2. apply (upsert_entries_for (inserted_row t2 m h c2 v2 ttl2)). exact Hu1.
    + intros Hlt.
      apply lookup_after_store_live; assumption.
Qed.


(** *** Clear *)

Lemma int32_of_uint64_small z :
  0 <= z < 2147483648 -> int32_of_uint64 z = z.
Proof.
  intros Hz. unfold int32_of_uint64. rewrite Z.mod_small; lia.
Qed.

Lemma filter_split_length {A} (P : A -> Prop) `{forall x, Decision (P x)} (l : list A) :
  (length (filter P l) + length (filter (fun x => ~ P x) l) = length l)%nat.
Proof.
  induction l as [|x l IH]; [reflexivity|].
  rewrite !filter_cons. destruct (decide (P x)) as [HP|HP].
  - rewrite decide_False by tauto. simpl. lia.
  - rewrite decide_True by tauto. simpl. lia.
Qed.

(** What [ai_cache_clear] does with clear_all true: no row is left, each
    statistics row has its hit, miss, total and current-entries counters
    at zero and keeps its batch counter, and the rows removed are
    counted. *)
Lemma clear_all_effect db now :
  spi_connects db = true ->
  let out := ai_cache_clear db now (Some true) in
  result_cache out.1 = []
  /\ cache_stats out.1 = zero_on_clear_all <$> cache_stats db
  /\ out.2 = int32_of_uint64 (Z.of_nat (length (result_cache db))).
Proof.
  intros Hspi. unfold ai_cache_clear. rewrite Hspi. simpl.
  repeat split. f_equal. lia.
Qed.

(** What it does with clear_all false: the rows with [expiry_time < now]
    go and no other, the current-entries counter is refreshed, the other
    counters stay, and the rows removed are counted. *)
Lemma clear_expired_effect db now :
  spi_connects db = true ->
  let out := ai_cache_clear db now (Some false) in
  result_cache out.1 = filter (fun r => ~ expiry_time r < now) (result_cache db)
  /\ cache_stats out.1
     = (fun s => mkStatsRow (total_requests s) (cache_hits s) (cache_misses s)
                   (batch_requests s) (Z.of_nat (length (result_cache out.1))))
         <$> cache_stats db
  /\ out.2 = int32_of_uint64
               (Z.of_nat (length (filter (fun r => expiry_time r < now) (result_cache db)))).
Proof.
  intros Hspi. unfold ai_cache_clear. rewrite Hspi. simpl.
  repeat split. f_equal.
  pose proof (filter_split_length (fun r => expiry_time r < now) (result_cache db)). lia.
Qed.

(** C3. Evaluation of [ai_cache_clear] with clear_all true on a table of
    one row and statistics with batch_requests = 5: the row is deleted, 1
    is returned, total_requests, cache_hits, cache_misses and
    current_entries are zeroed, and batch_requests is still 5. *)
Theorem clear_all_leaves_batch_requests :
  ai_cache_clear
    {| spi_connects := true;
       result_cache := [mkCacheRow "m" "0000002a" "c" (Some "v") 0 60000000 1];
       cache_stats := [mkStatsRow 9 4 5 5 1] |}
    1000 (Some true)
  = ({| spi_connects := true;
        result_cache := [];
        cache_stats := [mkStatsRow 0 0 0 5 0] |}, 1).
Proof. reflexivity. Qed.

(** C9. A NULL argument is read as clear_all = true: the call is the same
    as [ai_cache_clear(true)] on every store, so with the store reachable
    it deletes every row, zeroes the hit, miss, total and current-entries
    counters and returns the row count; and it is not the expired-only
    cleanup, which keeps an unexpired row. *)
Theorem clear_null_is_clear_all db now :
  ai_cache_clear db now None = ai_cache_clear db now (Some true)
  /\ (spi_connects db = true ->
      result_cache (ai_cache_clear db now None).1 = []
      /\ Forall (fun s => total_requests s = 0 /\ cache_hits s = 0
                          /\ cache_misses s = 0 /\ current_entries s = 0)
                (cache_stats (ai_cache_clear db now None).1)
      /\ (ai_cache_clear db now None).2
         = int32_of_uint64 (Z.of_nat (length (result_cache db))))
  /\ (forall r, now <= expiry_time r ->
        let d := {| spi_connects := true; result_cache := [r]; cache_stats := [] |} in
        result_cache (ai_cache_clear d now None).1 = []
        /\ result_cache (ai_cache_clear d now (Some false)).1 = [r]).
Proof.
  split; [reflexivity|]. split.
  - intros Hspi. destruct (clear_all_effect db now Hspi) as (Hrc & Hst & Hn).
    change (ai_cache_clear db now None) with (ai_cache_clear db now (Some true)).
    split; [exact Hrc|]. split; [|exact Hn].
    rewrite Hst. apply Forall_fmap, Forall_true. intros s. simpl. auto.
  - intros r Hr d. split; [reflexivity|].
    unfold ai_cache_clear. simpl. rewrite filter_cons, decide_True by lia. reflexivity.
Qed.

Lemma clear_null_is_clear_all_witness :
  let db := {| spi_connects := true;
               result_cache := [mkCacheRow "m" "0000002a" "c" (Some "v") 0 60000000 1];
               cache_stats := [mkStatsRow 9 4 5 5 1] |} in
  result_cache (ai_cache_clear db 1000 None).1 = []
  /\ result_cache (ai_cache_clear db 1000 (Some false)).1 = result_cache db.
Proof.
  intros db.
  destruct (clear_null_is_clear_all db 1000) as (_ & Hall & Hkeep).
  split.
  - apply Hall. reflexivity.
  - refine (proj2 (Hkeep (mkCacheRow "m" "0000002a" "c" (Some "v") 0 60000000 1) _)).
    vm_compute. discriminate.
Defined.

(** *** The batch function *)

Section BatchShape.
Context {host : Host} (guc : Guc).
Variables (now : Z) (model : string) (user_args_text : option string) (ttl_seconds : Z).

Lemma entries_accum a x : entries (accumArrayResult a x) = (entries a ++ [x])%list.
Proof. destruct a; reflexivity. Qed.

(** The array state after more texts have been accumulated. *)
Lemma accum_all a l :
  foldl accumArrayResult a l
  = match l with [] => a | _ => Some (entries a ++ l)%list end.
Proof.
  revert a. induction l as [|x l IH]; intros a; [reflexivity|].
  simpl. rewrite IH. destruct l as [|y l].
  - destruct a; reflexivity.
  - rewrite entries_accum, <- app_assoc. reflexivity.
Qed.

Lemma count_found_cons b r f rs :
  count_found b ((r, f) :: rs) = (if bool_decide (f = b) then 1 else 0) + count_found b rs.
Proof.
  unfold count_found. rewrite filter_cons. simpl.
  destruct (decide (f = b)) as [->|Hne].
  - rewrite bool_decide_eq_true_2 by reflexivity. simpl length. lia.
  - rewrite bool_decide_eq_false_2 by exact Hne. lia.
Qed.

(** The loop over the input array is the loop body run over its non-NULL
    elements. *)
Lemma batch_loop_items i inputs st :
  batch_loop guc now model user_args_text ttl_seconds i inputs st
  = match batch_items guc (store st) now model user_args_text ttl_seconds
            (non_null_from i inputs) with
    | Ok (rs, d) =>
        Ok {| astate := foldl accumArrayResult (astate st) rs.*1;
              hits := hits st + count_found true rs;
              misses := misses st + count_found false rs;
              store := d |}
    | Raise msg => Raise msg
    end.
Proof.
  revert i st. induction inputs as [|[x|] inputs IH]; intros i st; simpl.
  - unfold count_found. simpl. rewrite !Z.add_0_r. destruct st; reflexivity.
  - destruct (batch_item guc (store st) now model user_args_text ttl_seconds i x)
      as [[[r found] d']|msg]; simpl; [|reflexivity].
    rewrite IH. simpl.
    destruct (batch_items guc d' now model user_args_text ttl_seconds
                (non_null_from (S i) inputs)) as [[rs d]|msg]; simpl; [|reflexivity].
    rewrite !count_found_cons. f_equal. f_equal; destruct found; simpl; lia.
  - apply IH.
Qed.

Lemma non_null_from_length i inputs :
  Forall is_Some inputs -> length (non_null_from i inputs) = length inputs.
Proof.
  intros Hall. revert i. induction Hall as [|[x|] inputs Hx _ IH]; intros i; simpl.
  - reflexivity.
  - f_equal. apply IH.
  - destruct Hx as [? [=]].
Qed.

(** With no NULL element the non-NULL elements are at positions 0, 1, ... *)
Lemma non_null_from_positions i inputs :
  Forall is_Some inputs -> (non_null_from i inputs).*1 = seq i (length inputs).
Proof.
  intros Hall. revert i. induction Hall as [|[x|] inputs Hx _ IH]; intros i; simpl.
  - reflexivity.
  - f_equal. apply IH.
  - destruct Hx as [? [=]].
Qed.

Lemma batch_items_length db items rs d :
  batch_items guc db now model user_args_text ttl_seconds items = Ok (rs, d) ->
  length rs = length items.
Proof.
  revert db rs d. induction items as [|p items IH]; intros db rs d; simpl.
  - intros [= <- _]. reflexivity.
  - destruct (batch_item guc db now model user_args_text ttl_seconds p.1 p.2)
      as [[[r found] d1]|]; simpl; [|discriminate].
    destruct (batch_items guc d1 now model user_args_text ttl_seconds items)
      as [[rs' d2]|] eqn:E; simpl; [|discriminate].
    intros [= <- _]. simpl. f_equal. eapply IH. exact E.
Qed.

Lemma batch_items_app db l1 l2 :
  batch_items guc db now model user_args_text ttl_seconds (l1 ++ l2)
  = match batch_items guc db now model user_args_text ttl_seconds l1 with
    | Ok (rs1, d1) =>
        match batch_items guc d1 now model user_args_text ttl_seconds l2 with
        | Ok (rs2, d2) => Ok ((rs1 ++ rs2)%list, d2)
        | Raise msg => Raise msg
        end
    | Raise msg => Raise msg
    end.
Proof.
  revert db. induction l1 as [|p l1 IH]; intros db; simpl.
  - destruct (batch_items guc db now model user_args_text ttl_seconds l2) as [[rs d]|];
      reflexivity.
  - destruct (batch_item guc db now model user_args_text ttl_seconds p.1 p.2)
      as [[[r found] d1]|]; simpl; [|reflexivity].
    rewrite IH.
    destruct (batch_items guc d1 now model user_args_text ttl_seconds l1)
      as [[rs1 d2]|]; simpl; [|reflexivity].
    destruct (batch_items guc d2 now model user_args_text ttl_seconds l2)
      as [[rs2 d3]|]; reflexivity.
Qed.

End BatchShape.

(** C8 (as stated, refuted). On the input [a, NULL, b] the call returns
    two entries for three elements, so the entry at position 1 belongs to
    the element at position 2; and when the model function raises, the
    call raises as a whole: no entry stands for the failure. *)
Lemma batch_result_not_positional :
  (exists db',
      ai_batch_invoke_cached (host := echo_host) cache_on empty_store 1000 "m"
        [Some "a"; None; Some "b"] None (Some 60)
      = Ok (Some ["re:{}" +:+ input_json "a"; "re:{}" +:+ input_json "b"], db'))
  /\ ai_batch_invoke_cached (host := echo_host) cache_on empty_store 1000 "down"
       [Some "a"; Some "b"] None (Some 60)
     = Raise "model endpoint failed".
Proof.
  split; [eexists|]; vm_compute; reflexivity.
Qed.

(** C8 (amended). For a model name and input texts without quote or
    backslash.  The batch function is the loop body run over the non-NULL
    elements alone, in input order, each with the key made of its own
    text and position and on the store the element before left; NULL
    elements are skipped.  So the result holds one entry per non-NULL
    element, in input order (a NULL result exactly when there is none):
    the entry of an element is the text the body gives for it on the
    store left by the elements before it, and with no NULL element the
    entries are at the positions of their inputs.  There is no error
    entry: an element whose body raises makes the whole call raise.  For
    such texts the batch-level lookup sends the statement that asks for
    the rows of the element's key. *)
Theorem batch_results_follow_non_null_inputs `{host : Host} (guc : Guc)
    (db : Database) (now : Z) (model : string) (inputs : list (option string))
    (user_args_text : option string) (ttl_arg : option Z) :
  let ttl := default (ai_cache_default_ttl guc) ttl_arg in
  let items := non_null_from 0 inputs in
  sql_plain model = true ->
  Forall (fun p => sql_plain p.2 = true) items ->
  ai_batch_invoke_cached guc db now model inputs user_args_text ttl_arg
  = match batch_items guc db now model user_args_text ttl items with
    | Ok (rs, d) =>
        Ok (array_of rs.*1,
            count_batch d (count_found true rs) (count_found false rs)
              (Z.of_nat (length inputs)))
    | Raise msg => Raise msg
    end
  /\ (forall rs d,
        batch_items guc db now model user_args_text ttl items = Ok (rs, d) ->
        length rs = length items /\ (array_of rs.*1 = None <-> items = []))
  /\ (forall before p after rs d,
        items = (before ++ p :: after)%list ->
        batch_items guc db now model user_args_text ttl items = Ok (rs, d) ->
        exists rs1 d1 r found d2 rs2,
          batch_items guc db now model user_args_text ttl before = Ok (rs1, d1)
          /\ batch_item guc d1 now model user_args_text ttl p.1 p.2 = Ok (r, found, d2)
          /\ rs = (rs1 ++ (r, found) :: rs2)%list
          /\ length rs1 = length before)
  /\ (forall before p after rs1 d1 msg,
        items = (before ++ p :: after)%list ->
        batch_items guc db now model user_args_text ttl before = Ok (rs1, d1) ->
        batch_item guc d1 now model user_args_text ttl p.1 p.2 = Raise msg ->
        ai_batch_invoke_cached guc db now model inputs user_args_text ttl_arg = Raise msg)
  /\ (Forall is_Some inputs -> items.*1 = seq 0 (length inputs))
  /\ (forall p d, p ∈ items ->
        lookup_cache_result_sql d now model (simple_hash p.2 p.1)
        = Reads (lookup_cache_result d now model (simple_hash p.2 p.1) ttl)).
Proof.
  intros ttl items Hmodel Hinputs.
  assert (Hcall : ai_batch_invoke_cached guc db now model inputs user_args_text ttl_arg
                  = match batch_items guc db now model user_args_text ttl items with
                    | Ok (rs, d) =>
                        Ok (array_of rs.*1,
                            count_batch d (count_found true rs) (count_found false rs)
                              (Z.of_nat (length inputs)))
                    | Raise msg => Raise msg
                    end).
  { unfold ai_batch_invoke_cached. fold ttl. rewrite batch_loop_items. simpl. fold items.
    destruct (batch_items guc db now model user_args_text ttl items) as [[rs d]|];
      [|reflexivity].
    simpl. rewrite accum_all. destruct (rs.*1); reflexivity. }
  split; [exact Hcall|]. split; [|split; [|split; [|split]]].
  - intros rs d Hrun. pose proof (batch_items_length _ _ _ _ _ _ _ _ _ Hrun) as Hlen.
    split; [exact Hlen|]. destruct rs as [|r rs]; destruct items as [|p its];
      simpl in *; try discriminate; split; intros; try reflexivity; discriminate.
  - intros before p after rs d Hsplit. rewrite Hsplit, batch_items_app.
    destruct (batch_items guc db now model user_args_text ttl before) as [[rs1 d1]|] eqn:E1;
      [|discriminate].
    simpl.
    destruct (batch_item guc d1 now model user_args_text ttl p.1 p.2)
      as [[[r found] d2]|] eqn:E2; simpl; [|discriminate].
    destruct (batch_items guc d2 now model user_args_text ttl after) as [[rs2 d3]|];
      simpl; [|discriminate].
    intros [= <- <-]. exists rs1, d1, r, found, d2, rs2.
    split; [reflexivity|]. split; [exact E2|]. split; [reflexivity|].
    eapply batch_items_length. exact E1.
  - intros before p after rs1 d1 msg Hsplit Hbefore Hp.
    rewrite Hcall, Hsplit, batch_items_app, Hbefore. simpl. rewrite Hp. reflexivity.
  - intros Hsome. apply non_null_from_positions. exact Hsome.
  - intros p d Hp. apply lookup_sql_plain; [exact Hmodel|].
    rewrite simple_hash_plain.
    exact (proj1 (Forall_forall _ _) Hinputs p Hp).
Qed.

Lemma batch_results_follow_non_null_inputs_witness :
  ai_batch_invoke_cached (host := echo_host) cache_on empty_store 1000 "m"
    [Some "a"; None; Some "b"] None (Some 60)
  = Ok (Some ["re:{}" +:+ input_json "a"; "re:{}" +:+ input_json "b"],
        {| spi_connects := true;
           result_cache :=
             [mkCacheRow "m" (compute_args_hash (host := echo_host) ("{}" +:+ input_json "a"))
                (compute_content_hash (host := echo_host) ("re:{}" +:+ input_json "a"))
                (Some ("re:{}" +:+ input_json "a")) 1000 60001000 1;
              mkCacheRow "m" (compute_args_hash (host := echo_host) ("{}" +:+ input_json "b"))
                (compute_content_hash (host := echo_host) ("re:{}" +:+ input_json "b"))
                (Some ("re:{}" +:+ input_json "b")) 1000 60001000 1];
           cache_stats := [mkStatsRow 5 0 4 1 2] |}).
Proof.
  rewrite (proj1 (batch_results_follow_non_null_inputs (host := echo_host) cache_on
                    empty_store 1000 "m" [Some "a"; None; Some "b"] None (Some 60)
                    eq_refl ltac:(repeat constructor))).
  vm_compute. reflexivity.
Defined.

(** *** The key of the batch lookup *)


Section BatchKey.
Context {host : Host} (guc : Guc).

Lemma count_hit_result_cache db : result_cache (count_hit db) = result_cache db.
Proof. unfold count_hit. destruct (spi_connects db); reflexivity. Qed.

Lemma count_miss_result_cache db : result_cache (count_miss db) = result_cache db.
Proof. unfold count_miss. destruct (spi_connects db); reflexivity. Qed.

End BatchKey.




End CacheSpec.

(** ** The fan-out executor *)

Module BatchSpec.
Import Batch.

Section ExecutorFacts.
Context {net : Net}.

Lemma dispatched_elem (set : list (BatchRequest * option Transfer)) i t :
  (i, t) ∈ dispatched set <-> exists req, set !! i = Some (req, Some t).
Proof.
  unfold dispatched. rewrite list_elem_of_omap. split.
  - intros ([j [req ot]] & Hin & Hf). simpl in Hf.
    destruct ot as [t'|]; simpl in Hf; [|discriminate]. injection Hf as -> ->.
    apply elem_of_lookup_imap in Hin as (k & y & [= -> <-] & Hk). eauto.
  - intros (req & Hi). exists (i, (req, Some t)). split; [|reflexivity].
    apply elem_of_lookup_imap. exists i, (req, Some t). auto.
Qed.

Lemma set_up_from_lookup n reqs set :
  set_up_from n reqs = Ok set ->
  length set = length reqs
  /\ forall i req, reqs !! i = Some req ->
       exists p, set_up (n + i) req = Ok p /\ set !! i = Some p.
Proof.
  revert n set. induction reqs as [|r reqs IH]; intros n set; simpl.
  - intros [= <-]. split; [reflexivity|]. intros i req [=].
  - destruct (set_up n r) as [p|] eqn:Ep; simpl; [|discriminate].
    destruct (set_up_from (S n) reqs) as [ps|] eqn:Eps; simpl; [|discriminate].
    intros [= <-]. destruct (IH _ _ Eps) as [Hlen Hat]. split; [simpl; lia|].
    intros [|i] req Hi; simpl in Hi.
    + injection Hi as <-. exists p. rewrite Nat.add_0_r. auto.
    + destruct (Hat i req Hi) as (q & Hq & Hset). exists q.
      replace (n + S i)%nat with (S n + i)%nat by lia. auto.
Qed.

(** The first loop gets through when no query raises. *)
Lemma set_up_from_ok n reqs :
  (forall i req, reqs !! i = Some req -> exists p, set_up (n + i) req = Ok p) ->
  exists set, set_up_from n reqs = Ok set.
Proof.
  revert n. induction reqs as [|r reqs IH]; intros n Hall; simpl; [eauto|].
  destruct (Hall 0%nat r eq_refl) as [p Hp]. rewrite Nat.add_0_r in Hp. rewrite Hp. simpl.
  destruct (IH (S n)) as [ps Hps].
  - intros i req Hi. destruct (Hall (S i) req Hi) as [q Hq]. exists q.
    replace (S n + i)%nat with (n + S i)%nat by lia. exact Hq.
  - rewrite Hps. simpl. eauto.
Qed.

(** One query that raises ends it. *)
Lemma set_up_from_raise n reqs i req msg :
  reqs !! i = Some req -> set_up (n + i) req = Raise msg ->
  exists msg', set_up_from n reqs = Raise msg'.
Proof.
  revert n i. induction reqs as [|r reqs IH]; intros n i; [intros [=]|].
  destruct i as [|i]; simpl.
  - intros [= ->]. rewrite Nat.add_0_r. intros ->. simpl. eauto.
  - intros Hi Hraise. destruct (set_up n r) as [p|]; simpl; [|eauto].
    destruct (IH (S n) i Hi) as [msg' ->].
    + replace (S n + i)%nat with (n + S i)%nat by lia. exact Hraise.
    + simpl. eauto.
Qed.

Lemma process_lookup reqs out sent i req :
  process_batch_requests_enhanced reqs = Some (out, sent) ->
  reqs !! i = Some req ->
  exists p,
    set_up i req = Ok p
    /\ length out = length reqs
    /\ out !! i = Some (store_result i p)
    /\ (forall t, (i, t) ∈ sent <-> p.2 = Some t).
Proof.
  unfold process_batch_requests_enhanced. destruct SPI_connect_ok; [|discriminate].
  destruct (set_up_from 0 reqs) as [set|] eqn:Eset; [|discriminate].
  intros [= <- <-] Hi. destruct (set_up_from_lookup _ _ _ Eset) as [Hlen Hat].
  destruct (Hat i req Hi) as (p & Hp & Hset). simpl in Hp. exists p.
  split; [exact Hp|]. split; [rewrite length_imap; exact Hlen|]. split.
  - rewrite list_lookup_imap, Hset. reflexivity.
  - intros t. rewrite dispatched_elem, Hset. split.
    + intros (r & [= ->]). reflexivity.
    + intros E. exists p.1. rewrite <- E. destruct p; reflexivity.
Qed.

End ExecutorFacts.

(** ** The queue and the dispatch worker *)

Section WorkerFacts.
Context {net : Net} (guc : Guc).

Lemma step_consistent w e w' sigs :
  consistent w -> step guc w e = Some (w', sigs) -> consistent w'.
Proof.
  intros [Hc Hall]. destruct e as [rid m i a|wr|]; simpl.
  - destruct (enable_batch_processing guc); [|intros [= <- <-]; split; assumption].
    intros [= <- <-]. split; simpl.
    + rewrite length_app. simpl. lia.
    + rewrite length_app. simpl. apply Forall_app. split.
      * eapply Forall_impl; [exact Hall|]. simpl. intros; lia.
      * constructor; [lia|constructor].
  - destruct (in_flight w); [discriminate|]. intros [= <- <-].
    unfold batch_processor_wake. destruct (flush_due guc (ctx w) wr); split; simpl; assumption.
  - destruct (in_flight w) as [f|]; [|discriminate]. intros [= <- <-].
    split; simpl; [reflexivity|constructor].
Qed.

Lemma run_consistent es w w' :
  consistent w -> run guc w es = Some w' -> consistent w'.
Proof.
  revert w. induction es as [|e es IH]; intros w Hw; simpl.
  - intros [= <-]. exact Hw.
  - destruct (step guc w e) as [[w1 sigs]|] eqn:E; [|discriminate].
    apply IH. eapply step_consistent; eauto.
Qed.

Lemma init_consistent : consistent init_batch_context.
Proof. split; [reflexivity|constructor]. Qed.

Lemma length_copies (h : list BatchRequest) (l : list addr) :
  Forall (fun a => (a < length h)%nat) l ->
  length (omap (fun a => h !! a) l) = length l.
Proof.
  induction 1 as [|a l Ha _ IH]; [reflexivity|].
  cbn. case_match eqn:E.
  - cbn. f_equal. exact IH.
  - apply lookup_ge_None in E. lia.
Qed.

(** On a consistent queue the copy loop takes the whole list, one struct
    per node. *)
Lemma copy_requests_all w :
  consistent w ->
  (copy_requests w).1 = requests (ctx w)
  /\ length (copy_requests w).2 = length (requests (ctx w)).
Proof.
  intros [Hc Hall]. unfold copy_requests. simpl.
  rewrite Hc, Nat2Z.id, firstn_all. split; [reflexivity|].
  apply length_copies. exact Hall.
Qed.

Lemma wake_in_flight w wr :
  in_flight w = None ->
  in_flight (batch_processor_wake guc w wr)
  = if flush_due guc (ctx w) wr
    then Some {| batch_addrs := (copy_requests w).1; req_array := (copy_requests w).2;
                 outcome := None |}
    else None.
Proof.
  intros Hidle. unfold batch_processor_wake. destruct (flush_due guc (ctx w) wr); [|exact Hidle].
  destruct (copy_requests w). reflexivity.
Qed.

Lemma wake_processing w wr :
  flush_due guc (ctx w) wr = true -> processing (ctx (batch_processor_wake guc w wr)) = true.
Proof.
  intros E. unfold batch_processor_wake. rewrite E. destruct (copy_requests w). reflexivity.
Qed.

Lemma flush_due_spec c wr :
  flush_due guc c wr = true
  <-> 0 < request_count c /\ (batch_size guc <= request_count c \/ wr = ETIMEDOUT).
Proof.
  unfold flush_due. rewrite andb_true_iff, orb_true_iff.
  rewrite Z.ltb_lt, Z.leb_le, Z.eqb_eq. reflexivity.
Qed.

End WorkerFacts.

Section LostRequests.
Context {net : Net} (guc : Guc).

Lemma step_dropped a w e w' sigs :
  dropped a w -> step guc w e = Some (w', sigs) -> dropped a w'.
Proof.
  intros (Hlt & Hq & Hfl & Hin). destruct e as [rid m i args|wr|]; simpl.
  - destruct (enable_batch_processing guc);
      [|intros [= <- <-]; repeat split; assumption].
    intros [= <- <-]. repeat split; simpl.
    + rewrite length_app. simpl. lia.
    + rewrite elem_of_app, list_elem_of_singleton. intros [?|?]; [tauto|lia].
    + exact Hfl.
    + exact Hin.
  - destruct (in_flight w) eqn:Eidle; [discriminate|]. intros [= <- <-].
    unfold batch_processor_wake. destruct (flush_due guc (ctx w) wr).
    + unfold copy_requests. repeat split; simpl; try assumption.
      intros f [= <-]. simpl. intros Ha. apply Hq. eapply subseteq_take. exact Ha.
    + repeat split; try assumption. rewrite Eidle. discriminate.
  - destruct (in_flight w) as [f|] eqn:Ef; [|discriminate]. intros [= <- <-].
    repeat split; simpl.
    + exact Hlt.
    + apply not_elem_of_nil.
    + intros f' Hf'. apply elem_of_app in Hf' as [Hf'|Hf'].
      * apply Hfl. exact Hf'.
      * apply list_elem_of_singleton in Hf' as ->. simpl. apply Hin. reflexivity.
    + discriminate.
Qed.

Lemma run_dropped a es w w' :
  dropped a w -> run guc w es = Some w' -> dropped a w'.
Proof.
  revert w. induction es as [|e es IH]; intros w Hw; simpl.
  - intros [= <-]. exact Hw.
  - destruct (step guc w e) as [[w1 sigs]|] eqn:E; [|discriminate].
    apply IH. eapply step_dropped; eauto.
Qed.

(** No step sets the [completed] flag of a request of the heap: the
    executor writes into the copies of [req_array]. *)
Lemma step_all_pending w e w' sigs :
  all_pending w -> step guc w e = Some (w', sigs) -> all_pending w'.
Proof.
  unfold all_pending. intros Hall. destruct e as [rid m i args|wr|]; simpl.
  - destruct (enable_batch_processing guc); [|intros [= <- <-]; exact Hall].
    intros [= <- <-]. simpl. apply Forall_app. split; [exact Hall|].
    constructor; [reflexivity|constructor].
  - destruct (in_flight w); [discriminate|]. intros [= <- <-].
    unfold batch_processor_wake. destruct (flush_due guc (ctx w) wr); [|exact Hall].
    destruct (copy_requests w). exact Hall.
  - destruct (in_flight w); [|discriminate]. intros [= <- <-]. exact Hall.
Qed.

Lemma run_all_pending es w w' :
  all_pending w -> run guc w es = Some w' -> all_pending w'.
Proof.
  revert w. induction es as [|e es IH]; intros w Hw; simpl.
  - intros [= <-]. exact Hw.
  - destruct (step guc w e) as [[w1 sigs]|] eqn:E; [|discriminate].
    apply IH. eapply step_all_pending; eauto.
Qed.

Lemma result_pending w a : all_pending w -> ai_batch_invoke_result w a = ReturnNull.
Proof.
  unfold all_pending, ai_batch_invoke_result. intros Hall.
  destruct (heap w !! a) as [r|] eqn:E; [|reflexivity].
  rewrite (proj1 (Forall_lookup _ _) Hall a r E). reflexivity.
Qed.

(** Whatever wake-ups a caller gets in worlds the unit can reach, its call
    does not return a payload. *)
Lemma wait_never_returns_text a w wakes s :
  all_pending w -> Forall (fun p => all_pending p.2) wakes ->
  ai_batch_invoke_wait a w wakes <> Some (ReturnText s).
Proof.
  intros Hw Hwakes. revert w Hw.
  induction Hwakes as [|[wr w1] wakes Hw1 _ IH]; intros w Hw; simpl.
  - destruct (keeps_waiting w a); [discriminate|].
    rewrite result_pending by exact Hw. discriminate.
  - destruct (keeps_waiting w a).
    + destruct (wr =? ETIMEDOUT); [discriminate|]. apply IH. exact Hw1.
    + rewrite result_pending by exact Hw. discriminate.
Qed.

End LostRequests.

(** C1. Evaluation of the unit with batch size 1: request 0 is enqueued
    and the worker starts a flush of [0]; the queue is not emptied at that
    point and still holds 0.  Request 1, enqueued while the flush runs,
    is linked behind 0 on that same queue.  When the flush completes the
    worker resets the queue to empty: request 1 was in no batch, is in no
    queue, and stays so in every continuation. *)
Theorem request_enqueued_during_flush_is_dropped :
  let guc := sample_guc 1 in
  exists w2 w3 w4,
    run (H := sample_net) guc init_batch_context
      [Enqueue 1 "gpt" "first" "{}"; WorkerWakes 0] = Some w2
    /\ batch_addrs <$> in_flight w2 = Some [0%nat]
    /\ requests (ctx w2) = [0%nat]
    /\ step (H := sample_net) guc w2 (Enqueue 2 "gpt" "second" "{}")
       = Some (w3, [cond_signal])
    /\ requests (ctx w3) = [0%nat; 1%nat]
    /\ processing (ctx w3) = true
    /\ step (H := sample_net) guc w3 WorkerFinishes = Some (w4, [cond_broadcast])
    /\ requests (ctx w4) = []
    /\ request_count (ctx w4) = 0
    /\ batch_addrs <$> flushed w4 = [[0%nat]]
    /\ (forall es w,
          run (H := sample_net) guc w4 es = Some w ->
          (1%nat ∉ requests (ctx w))
          /\ (forall f, f ∈ flushed w \/ in_flight w = Some f -> 1%nat ∉ batch_addrs f)).
Proof.
  intros guc. eexists _, _, _.
  split; [vm_compute; reflexivity|].
  split; [reflexivity|]. split; [reflexivity|].
  split; [vm_compute; reflexivity|].
  split; [reflexivity|]. split; [reflexivity|].
  split; [vm_compute; reflexivity|].
  split; [reflexivity|]. split; [reflexivity|]. split; [reflexivity|].
  intros es w Hrun.
  eapply (run_dropped guc 1%nat) in Hrun.
  - destruct Hrun as (_ & Hq & Hfl & Hin). split; [exact Hq|].
    intros f [Hf|Hf]; [apply Hfl|apply Hin]; exact Hf.
  - repeat split; simpl.
    + lia.
    + apply not_elem_of_nil.
    + intros f Hf. apply list_elem_of_singleton in Hf as ->. simpl.
      rewrite list_elem_of_singleton. lia.
    + discriminate.
Qed.

(** C2. Evaluation of the unit with batch size 2: caller 0 enqueues and
    blocks in its wait.  A second caller enqueues and the worker starts
    the flush.  Woken then, caller 0 finds [processing] set and leaves
    the loop with its own request not completed: the call returns NULL
    instead of waiting on.  When the flush is over, the executor has
    completed its copy of request 0 with a result, the request caller 0
    holds is still not completed, and a caller woken by the broadcast
    waits on until the time is up and the call raises. *)
Theorem caller_leaves_wait_when_flush_starts :
  let guc := sample_guc 2 in
  exists w1 w2 w3 (arr : list BatchRequest * list (nat * Transfer)),
    run (H := sample_net) guc init_batch_context [Enqueue 1 "gpt" "first" "{}"] = Some w1
    /\ ai_batch_invoke_wait 0%nat w1 [] = None
    /\ run (H := sample_net) guc w1 [Enqueue 2 "gpt" "second" "{}"; WorkerWakes 0] = Some w2
    /\ processing (ctx w2) = true
    /\ completed <$> heap w2 !! 0%nat = Some false
    /\ ai_batch_invoke_wait 0%nat w1 [(0, w2)] = Some ReturnNull
    /\ run (H := sample_net) guc w2 [WorkerFinishes] = Some w3
    /\ (outcome <$> flushed w3) = [Some arr]
    /\ (fun r => (completed r, result r)) <$> arr.1 !! 0%nat
       = Some (true, Some "answer from https://models.example/gpt")
    /\ completed <$> heap w3 !! 0%nat = Some false
    /\ ai_batch_invoke_wait 0%nat w1 [(0, w3)] = None
    /\ ai_batch_invoke_wait 0%nat w1 [(0, w3); (ETIMEDOUT, w3)]
       = Some (RaiseError "Batch processing timeout").
Proof.
  intros guc. eexists _, _, _, _.
  split; [vm_compute; reflexivity|].
  split; [reflexivity|].
  split; [vm_compute; reflexivity|].
  split; [reflexivity|]. split; [reflexivity|]. split; [reflexivity|].
  split; [vm_compute; reflexivity|].
  split; [reflexivity|]. split; [reflexivity|]. split; [reflexivity|].
  split; reflexivity.
Qed.

(** C4. Evaluation of the unit with batch size 2 on a batch of a request
    for the model "gpt", which the table knows, and one for "nope", which
    it does not.  The executor completes its copy of the first with the
    answer, marks its copy of the second with "Model not found" and makes
    one transfer, for index 0.  Both are copies in [req_array]: when the
    flush is over, the requests the two callers hold are as they were
    enqueued, not completed, without result and without error.  Neither
    caller is given an outcome: woken by the broadcast each waits on, and
    when the time is up the call for "nope" raises "Batch processing
    timeout", not the resolution error.  And in a batch where a model
    name does not resolve because it holds a quote, the server raises on
    its query and the executor leaves without completing any request. *)
Theorem outcomes_stay_in_the_copies :
  let guc := sample_guc 2 in
  exists w0 w (arr : list BatchRequest * list (nat * Transfer)),
    run (H := sample_net) guc init_batch_context
      [Enqueue 1 "gpt" "first" "{}"; Enqueue 2 "nope" "second" "{}"] = Some w0
    /\ run (H := sample_net) guc w0 [WorkerWakes 0; WorkerFinishes] = Some w
    /\ (outcome <$> flushed w) = [Some arr]
    /\ (fun r => (completed r, result r, error_msg r)) <$> arr.1
       = [(true, Some "answer from https://models.example/gpt", None);
          (true, None, Some "Model not found")]
    /\ arr.2.*1 = [0%nat]
    /\ (fun r => (completed r, result r, error_msg r)) <$> heap w
       = [(false, None, None); (false, None, None)]
    /\ ai_batch_invoke_wait 0%nat w0 [(0, w)] = None
    /\ ai_batch_invoke_wait 1%nat w0 [(0, w)] = None
    /\ ai_batch_invoke_wait 1%nat w0 [(0, w); (ETIMEDOUT, w)]
       = Some (RaiseError "Batch processing timeout")
    /\ process_batch_requests_enhanced (net := sample_net)
         [mkBatchRequest 1 "o'brien" "first" "{}" false None None;
          mkBatchRequest 2 "gpt" "second" "{}" false None None]
       = None.
Proof.
  intros guc. eexists _, _, _.
  split; [vm_compute; reflexivity|].
  split; [vm_compute; reflexivity|].
  split; [reflexivity|].
  repeat split; vm_compute; reflexivity.
Qed.

Section TimedWait.
Context {net : Net}.

Lemma long_deadline_is_invalid clock :
  0 <= tv_nsec clock ->
  exists deadline,
    wait_deadline {| batch_size := 10; batch_timeout_ms := 2000;
                     enable_batch_processing := true |} clock = Some deadline
    /\ 1000000000 <= tv_nsec deadline.
Proof.
  intros Hclock. unfold wait_deadline. cbn [batch_timeout_ms].
  change (2000 * 1000000) with 2000000000.
  change ((- INT_MAX - 1 <=? 2000000000) && (2000000000 <=? INT_MAX)) with true. cbv iota.
  destruct (1000000000 <=? tv_nsec clock + 2000000000) eqn:E.
  - eexists. split; [reflexivity|]. cbn [tv_nsec]. lia.
  - apply Z.leb_gt in E. lia.
Qed.

(** C7. With the batch timeout at 2000 ms, a value [ai_configure_batch]
    accepts, and the batch size at 10: whatever the clock reads, the
    deadline the worker computes has [tv_nsec] at 10^9 or more, so every
    return of its timed wait is [EINVAL] and none is [ETIMEDOUT].  With
    one request queued the worker therefore never starts a flush, however
    often its wait returns: the timer does not elapse for it.  At 500 ms
    the deadline computed from the same reading is valid, the wait can
    time out, and the worker then flushes that request. *)
Theorem flush_timer_never_elapses_at_2000_ms (waits : list (timespec * Z)) :
  let guc := {| batch_size := 10; batch_timeout_ms := 2000;
                enable_batch_processing := true |} in
  Forall (wait_can_return guc) waits ->
  ai_configure_batch default_settings "batch_timeout_ms" 2000
  = Ok (true, mkSettings 10 2000 50)
  /\ requests (ctx one_queued) = [0%nat]
  /\ in_flight one_queued = None
  /\ Forall (fun p => p.2 = EINVAL /\ p.2 <> ETIMEDOUT) waits
  /\ run guc one_queued (WorkerWakes <$> waits.*2) = Some one_queued
  /\ (let clock := {| tv_sec := 0; tv_nsec := 0 |} in
      wait_deadline (sample_guc 10) clock = Some {| tv_sec := 0; tv_nsec := 500000000 |}
      /\ timedwait_returns {| tv_sec := 0; tv_nsec := 500000000 |} ETIMEDOUT = true
      /\ batch_addrs <$> in_flight (batch_processor_wake (sample_guc 10) one_queued ETIMEDOUT)
         = Some [0%nat]).
Proof.
  intros guc Hwaits.
  assert (Hinval : Forall (fun p : timespec * Z => p.2 = EINVAL /\ p.2 <> ETIMEDOUT) waits).
  { eapply Forall_impl; [exact Hwaits|]. intros [clock r] ([Hlo Hhi] & d & Hd & Hr).
    simpl in *. destruct (long_deadline_is_invalid clock Hlo) as (d' & Hd' & Hbig).
    fold guc in Hd'. rewrite Hd' in Hd. injection Hd as <-.
    unfold timedwait_returns in Hr.
    assert ((tv_nsec d' <? 1000000000) = false) as E by (apply Z.ltb_ge; exact Hbig).
    rewrite E, andb_false_r in Hr. apply Z.eqb_eq in Hr. subst r.
    split; [reflexivity|discriminate]. }
  split; [reflexivity|]. split; [reflexivity|]. split; [reflexivity|].
  split; [exact Hinval|]. split; [|repeat split; reflexivity].
  clear Hwaits. induction Hinval as [|[clock r] waits [Hr _] _ IH]; [reflexivity|].
  simpl in Hr. subst r. exact IH.
Qed.

End TimedWait.

Lemma flush_timer_never_elapses_at_2000_ms_witness :
  run (H := sample_net)
    {| batch_size := 10; batch_timeout_ms := 2000; enable_batch_processing := true |}
    one_queued [WorkerWakes EINVAL; WorkerWakes EINVAL] = Some one_queued.
Proof.
  refine (proj1 (proj2 (proj2 (proj2 (proj2
            (flush_timer_never_elapses_at_2000_ms (net := sample_net)
               [({| tv_sec := 0; tv_nsec := 0 |}, EINVAL);
                ({| tv_sec := 7; tv_nsec := 999999999 |}, EINVAL)] _)))))).
  repeat constructor; simpl; try lia;
    (eexists; split; [reflexivity|reflexivity]).
Defined.

End BatchSpec.

(** ** More on the result cache *)

Module CacheMore.
Import Sql Cache.

(** *** The text of a hash *)

Lemma hex_value_digit n : 0 <= n < 16 -> hex_value (hex_digit n) = Some n.
Proof.
  intros Hn. rewrite <- (Z2Nat.id n) by lia.
  assert (Hk : (Z.to_nat n < 16)%nat) by lia. revert Hk.
  generalize (Z.to_nat n). intros k Hk.
  do 16 (destruct k as [|k]; [reflexivity|]). lia.
Qed.

Lemma hex_digits_length k z acc :
  String.length (hex_digits k z acc) = (k + String.length acc)%nat.
Proof.
  revert z acc. induction k as [|k IH]; intros z acc; simpl; [reflexivity|].
  rewrite IH. simpl. lia.
Qed.

Lemma hex_decode_digits k z acc a :
  hex_decode_from a (hex_digits k z acc)
  = hex_decode_from (a * 16 ^ Z.of_nat k + z mod 16 ^ Z.of_nat k) acc.
Proof.
  revert z acc a. induction k as [|k IH]; intros z acc a.
  - simpl. rewrite Z.mod_1_r. f_equal. lia.
  - cbn [hex_digits]. rewrite IH. cbn [hex_decode_from].
    rewrite hex_value_digit by (apply Z.mod_pos_bound; lia).
    f_equal. rewrite Nat2Z.inj_succ, Z.pow_succ_r by lia.
    rewrite (Z.rem_mul_r z 16 (16 ^ Z.of_nat k)) by lia. lia.
Qed.

(** X1. The key text of a hash is eight characters long and reads back as the
    hash modulo 2^32, so two argument values get the same cache key
    exactly when their 32-bit hashes agree. *)
Theorem args_hash_text_reads_back `{host : Host} :
  (forall z, String.length (hex08 z) = 8%nat
             /\ hex_decode (hex08 z) = Some (z mod 4294967296))
  /\ (forall a b : Jsonb,
        compute_args_hash a = compute_args_hash b
        <-> hash_any (JsonbToCString a) mod 4294967296
            = hash_any (JsonbToCString b) mod 4294967296).
Proof.
  assert (Hback : forall z, hex_decode (hex08 z) = Some (z mod 4294967296)).
  { intros z. unfold hex_decode, hex08. rewrite hex_decode_digits. simpl hex_decode_from.
    f_equal. change (16 ^ Z.of_nat 8) with 4294967296. rewrite Z.mod_mod by lia. lia. }
  split.
  - intros z. split; [|apply Hback]. unfold hex08. rewrite hex_digits_length. reflexivity.
  - intros a b. unfold compute_args_hash. split.
    + intros E. apply (f_equal hex_decode) in E. rewrite !Hback in E. congruence.
    + intros E. unfold hex08. rewrite E. reflexivity.
Qed.

(** *** The cached invoke *)

Lemma live_matches_split now m h rows :
  live_matches now m h rows
  = filter (fun r => now < expiry_time r) (filter (fun r => has_key m h r = true) rows).
Proof.
  unfold live_matches. rewrite list_filter_filter.
  apply list_filter_iff. intros r. tauto.
Qed.

(** A lookup depends on the rows of its key alone. *)
Lemma lookup_same_rows d1 d2 now m h ttl :
  spi_connects d1 = spi_connects d2 ->
  filter (fun r => has_key m h r = true) (result_cache d1)
  = filter (fun r => has_key m h r = true) (result_cache d2) ->
  lookup_cache_result d1 now m h ttl = lookup_cache_result d2 now m h ttl.
Proof.
  unfold lookup_cache_result. intros -> Hrows. rewrite !live_matches_split, Hrows.
  reflexivity.
Qed.

Section InvokeFacts.
Context {host : Host} (guc : Guc).

Lemma lookup_ext d1 d2 now m h ttl :
  spi_connects d1 = spi_connects d2 -> result_cache d1 = result_cache d2 ->
  lookup_cache_result d1 now m h ttl = lookup_cache_result d2 now m h ttl.
Proof. unfold lookup_cache_result. intros -> ->. reflexivity. Qed.

Lemma count_hit_spi db : spi_connects (count_hit db) = spi_connects db.
Proof. unfold count_hit. destruct (spi_connects db) eqn:E; simpl; congruence. Qed.

Lemma count_miss_spi db : spi_connects (count_miss db) = spi_connects db.
Proof. unfold count_miss. destruct (spi_connects db) eqn:E; simpl; congruence. Qed.

Lemma count_batch_spi db a b c : spi_connects (count_batch db a b c) = spi_connects db.
Proof. unfold count_batch. destruct (spi_connects db) eqn:E; simpl; congruence. Qed.

Lemma count_batch_result_cache db a b c :
  result_cache (count_batch db a b c) = result_cache db.
Proof. unfold count_batch. destruct (spi_connects db); reflexivity. Qed.

Lemma store_spi db now m h c v ttl :
  spi_connects (store_cache_result db now m h c v ttl) = spi_connects db.
Proof. unfold store_cache_result. destruct (spi_connects db) eqn:E; simpl; congruence. Qed.

Lemma invoke_cached_cases db now model args ttl_arg :
  ai_invoke_model_cached guc db now model args ttl_arg
  = let ttl := default (ai_cache_default_ttl guc) ttl_arg in
    match effective_lookup guc db now model args ttl with
    | Some (txt, _) => Ok (txt, count_hit db)
    | None =>
        match invoke_model model args with
        | Ok r =>
            Ok (r, count_miss
                     (if cache_in_use guc ttl
                      then store_cache_result db now model (compute_args_hash args)
                             (compute_content_hash r) r ttl
                      else db))
        | Raise msg => Raise msg
        end
    end.
Proof.
  unfold ai_invoke_model_cached, effective_lookup. simpl.
  destruct (if cache_in_use guc _ then _ else None) as [[txt ct]|]; [reflexivity|].
  destruct (invoke_model model args); reflexivity.
Qed.

(** What [batch_item] does after a miss under the batch key. *)
Lemma batch_item_cases db now model user_args_text ttl i x :
  batch_item guc db now model user_args_text ttl i x
  = match (if cache_in_use guc ttl
           then lookup_cache_result db now model (simple_hash x i) ttl else None) with
    | Some (txt, _) => Ok (txt, true, db)
    | None =>
        match jsonb_in "{}" with
        | Raise msg => Raise msg
        | Ok e =>
            match (match user_args_text with Some s => jsonb_in s | None => Ok e end) with
            | Raise msg => Raise msg
            | Ok a =>
                match jsonb_in (input_json x) with
                | Raise msg => Raise msg
                | Ok ij =>
                    match ai_invoke_model_cached guc db now model (jsonb_concat a ij)
                            (Some ttl) with
                    | Ok (r, db') => Ok (r, false, db')
                    | Raise msg => Raise msg
                    end
                end
            end
        end
    end.
Proof.
  unfold batch_item.
  destruct (if cache_in_use guc ttl then _ else None) as [[txt ct]|]; [reflexivity|].
  destruct (jsonb_in "{}") as [e|]; simpl; [|reflexivity].
  destruct (match user_args_text with Some s => jsonb_in s | None => Ok e end) as [a|];
    simpl; [|reflexivity].
  destruct (jsonb_in (input_json x)) as [ij|]; simpl; [|reflexivity].
  destruct (ai_invoke_model_cached guc db now model (jsonb_concat a ij) (Some ttl))
    as [[r d']|]; reflexivity.
Qed.

(** X2. For a model name without quote or backslash: a result obtained
    from the model on a miss is served from the cache by every later call
    for the same model and arguments that is made before the time of the
    miss plus the TTL (in microseconds, TTL times 10^6) on a store whose
    rows of that key are those the miss left, whatever else has happened
    to the store: the call returns the same text whatever the model
    function would now answer (or raise), counts a hit and leaves the
    table as it is.  The statement such a lookup sends reads as the
    query for the rows of the key. *)
Theorem missed_result_is_served_until_expiry db now model args ttl_arg r :
  let ttl := default (ai_cache_default_ttl guc) ttl_arg in
  let key := compute_args_hash args in
  sql_plain model = true ->
  spi_connects db = true ->
  cache_in_use guc ttl = true ->
  lookup_cache_result_sql db now model key = Reads None ->
  invoke_model model args = Ok r ->
  exists db1,
    ai_invoke_model_cached guc db now model args ttl_arg = Ok (r, db1)
    /\ forall d now' ttl_arg' f,
         spi_connects d = true ->
         filter (fun row => has_key model key row = true) (result_cache d)
         = filter (fun row => has_key model key row = true) (result_cache db1) ->
         cache_in_use guc (default (ai_cache_default_ttl guc) ttl_arg') = true ->
         now' < now + ttl * 1000000 ->
         lookup_cache_result_sql d now' model key = Reads (Some (r, now))
         /\ ai_invoke_model_cached (host := with_invoke_model host f) guc d now' model args
              ttl_arg'
            = Ok (r, count_hit d)
         /\ result_cache (count_hit d) = result_cache d.
Proof.
  intros ttl key Hmodel Hspi Huse Hmiss Hr.
  assert (Hkey : sql_plain key = true) by apply CacheSpec.hex08_plain.
  rewrite (CacheSpec.lookup_sql_plain db now model key ttl Hmodel Hkey) in Hmiss.
  injection Hmiss as Hmiss.
  exists (count_miss (store_cache_result db now model key (compute_content_hash r) r ttl)).
  split.
  - rewrite invoke_cached_cases. fold ttl. unfold effective_lookup. fold key.
    rewrite Huse, Hmiss, Hr. reflexivity.
  - intros d now' ttl_arg' f Hspid Hrows Huse' Hlt.
    assert (Hlook : forall ttl', lookup_cache_result d now' model key ttl' = Some (r, now)).
    { intros ttl'.
      rewrite (lookup_same_rows d
                 (count_miss (store_cache_result db now model key (compute_content_hash r)
                                r ttl)) now' model key ttl');
        [|rewrite Hspid, count_miss_spi, store_spi; symmetry; exact Hspi|exact Hrows].
      erewrite lookup_ext; [|apply count_miss_spi|apply CacheSpec.count_miss_result_cache].
      apply CacheSpec.lookup_after_store_live; [exact Hspi|exact Hlt]. }
    split; [|split].
    + rewrite (CacheSpec.lookup_sql_plain d now' model key ttl Hmodel Hkey), Hlook.
      reflexivity.
    + unfold ai_invoke_model_cached.
      change (@compute_args_hash (with_invoke_model host f) args) with key.
      rewrite Huse', Hlook. reflexivity.
    + apply CacheSpec.count_hit_result_cache.
Qed.

Lemma invoke_off db now model args ttl_arg :
  off guc (default (ai_cache_default_ttl guc) ttl_arg) db ->
  ai_invoke_model_cached guc db now model args ttl_arg
  = match invoke_model model args with
    | Ok r => Ok (r, count_miss db)
    | Raise msg => Raise msg
    end.
Proof.
  intros Hoff. rewrite invoke_cached_cases. simpl. unfold effective_lookup.
  destruct Hoff as [Hoff|Hoff].
  - rewrite Hoff. reflexivity.
  - unfold lookup_cache_result, store_cache_result. rewrite Hoff.
    destruct (cache_in_use guc _); reflexivity.
Qed.

Lemma batch_item_off db now model user_args_text ttl i x r found db' :
  off guc ttl db ->
  batch_item guc db now model user_args_text ttl i x = Ok (r, found, db') ->
  spi_connects db' = spi_connects db /\ result_cache db' = result_cache db.
Proof.
  intros Hoff. rewrite batch_item_cases.
  assert ((if cache_in_use guc ttl
           then lookup_cache_result db now model (simple_hash x i) ttl else None) = None) as ->.
  { destruct Hoff as [->|Hoff]; [reflexivity|].
    unfold lookup_cache_result. rewrite Hoff. destruct (cache_in_use guc ttl); reflexivity. }
  destruct (jsonb_in "{}") as [e|]; [|discriminate].
  destruct (match user_args_text with Some s => jsonb_in s | None => Ok e end) as [a|];
    [|discriminate].
  destruct (jsonb_in (input_json x)) as [ij|]; [|discriminate].
  rewrite invoke_off by exact Hoff.
  destruct (invoke_model model (jsonb_concat a ij)); [|discriminate].
  intros [= <- <- <-]. rewrite count_miss_spi, CacheSpec.count_miss_result_cache. auto.
Qed.

Lemma batch_loop_off now model user_args_text ttl i inputs st st' :
  off guc ttl (store st) ->
  batch_loop guc now model user_args_text ttl i inputs st = Ok st' ->
  spi_connects (store st') = spi_connects (store st)
  /\ result_cache (store st') = result_cache (store st).
Proof.
  revert i st. induction inputs as [|[x|] inputs IH]; intros i st Hoff; simpl.
  - intros [= <-]. auto.
  - destruct (batch_item guc (store st) now model user_args_text ttl i x)
      as [[[r found] d']|] eqn:E; simpl; [|discriminate].
    destruct (batch_item_off _ _ _ _ _ _ _ _ _ _ Hoff E) as [Hs Hr].
    intros Hl. apply IH in Hl as [Hs' Hr'].
    + simpl in Hs', Hr'. split; congruence.
    + simpl. destruct Hoff as [Hoff|Hoff]; [left; exact Hoff|right; congruence].
  - apply IH. exact Hoff.
Qed.

(** X3. With the cache not in use (disabled, or a TTL of zero or less) or the
    store unreachable, the cached invoke is the model call itself plus the
    miss count, and neither it nor the batch function changes the table;
    this holds even when the table has a live row for the key. *)
Theorem cache_not_in_use_is_pass_through db now model ttl_arg :
  let ttl := default (ai_cache_default_ttl guc) ttl_arg in
  cache_in_use guc ttl = false \/ spi_connects db = false ->
  (forall args,
     ai_invoke_model_cached guc db now model args ttl_arg
     = match invoke_model model args with
       | Ok r => Ok (r, count_miss db)
       | Raise msg => Raise msg
       end)
  /\ (forall inputs user_args_text arr db',
        ai_batch_invoke_cached guc db now model inputs user_args_text ttl_arg = Ok (arr, db') ->
        result_cache db' = result_cache db).
Proof.
  intros ttl Hoff. split; [intros args; apply invoke_off; exact Hoff|].
  intros inputs user_args_text arr db'. unfold ai_batch_invoke_cached. fold ttl.
  destruct (batch_loop guc now model user_args_text ttl 0 inputs _) as [st|] eqn:E;
    simpl; [|discriminate].
  intros [= <- <-]. rewrite count_batch_result_cache.
  apply batch_loop_off in E; [|exact Hoff]. simpl in E. tauto.
Qed.

(** *** What every operation keeps *)

(** A property of the store kept by the counter updates and by
    [store_cache_result] is kept by the cached invoke and by the batch
    function. *)
Section Preserved.
Variable P : Database -> Prop.
Hypothesis P_hit : forall d, P d -> P (count_hit d).
Hypothesis P_miss : forall d, P d -> P (count_miss d).
Hypothesis P_batch : forall d a b c, P d -> P (count_batch d a b c).
Hypothesis P_store : forall d now m h c v ttl, P d -> P (store_cache_result d now m h c v ttl).

Lemma invoke_preserves db now model args ttl_arg r db' :
  P db -> ai_invoke_model_cached guc db now model args ttl_arg = Ok (r, db') -> P db'.
Proof.
  intros HP. rewrite invoke_cached_cases. simpl.
  destruct (effective_lookup guc db now model args _) as [[txt ct]|].
  - intros [= <- <-]. apply P_hit, HP.
  - destruct (invoke_model model args) as [r0|]; [|discriminate].
    intros [= <- <-]. apply P_miss.
    destruct (cache_in_use guc _); [apply P_store|]; exact HP.
Qed.

Lemma batch_item_preserves db now model user_args_text ttl i x r found db' :
  P db -> batch_item guc db now model user_args_text ttl i x = Ok (r, found, db') -> P db'.
Proof.
  intros HP. rewrite batch_item_cases.
  destruct (if cache_in_use guc ttl then _ else None) as [[txt ct]|].
  - intros [= <- <- <-]. exact HP.
  - destruct (jsonb_in "{}") as [e|]; [|discriminate].
    destruct (match user_args_text with Some s => jsonb_in s | None => Ok e end) as [a|];
      [|discriminate].
    destruct (jsonb_in (input_json x)) as [ij|]; [|discriminate].
    destruct (ai_invoke_model_cached guc db now model (jsonb_concat a ij) (Some ttl))
      as [[r' d']|] eqn:E; [|discriminate].
    intros [= <- <- <-]. eapply invoke_preserves; eauto.
Qed.

Lemma batch_loop_preserves now model user_args_text ttl i inputs st st' :
  P (store st) ->
  batch_loop guc now model user_args_text ttl i inputs st = Ok st' -> P (store st').
Proof.
  revert i st. induction inputs as [|[x|] inputs IH]; intros i st HP; simpl.
  - intros [= <-]. exact HP.
  - destruct (batch_item guc (store st) now model user_args_text ttl i x)
      as [[[r found] d']|] eqn:E; simpl; [|discriminate].
    apply IH. simpl. eapply batch_item_preserves; eauto.
  - apply IH. exact HP.
Qed.

Lemma batch_preserves db now model inputs user_args_text ttl_arg arr db' :
  P db ->
  ai_batch_invoke_cached guc db now model inputs user_args_text ttl_arg = Ok (arr, db') ->
  P db'.
Proof.
  intros HP. unfold ai_batch_invoke_cached.
  destruct (batch_loop guc now model user_args_text _ 0 inputs _) as [st|] eqn:E;
    simpl; [|discriminate].
  intros [= <- <-]. apply P_batch. eapply batch_loop_preserves; [|exact E]. exact HP.
Qed.

End Preserved.








Lemma clear_unique_keys db now arg :
  unique_keys (result_cache db) -> unique_keys (result_cache (ai_cache_clear db now arg).1).
Proof.
  intros Hu. unfold ai_cache_clear. destruct (spi_connects db); [|exact Hu].
  destruct (match arg with Some b => b | None => true end); simpl.
  - apply NoDup_nil_2.
  - unfold unique_keys in *. eapply sublist_NoDup; [exact Hu|].
    apply fmap_sublist, sublist_filter.
Qed.

Lemma store_unique_keys db now m h c v ttl :
  unique_keys (result_cache db) ->
  unique_keys (result_cache (store_cache_result db now m h c v ttl)).
Proof.
  intros Hu. unfold store_cache_result. destruct (spi_connects db); [|exact Hu].
  simpl. apply CacheSpec.upsert_unique_keys. exact Hu.
Qed.

(** X4. The unique index on (model_name, args_hash) is kept by every
    operation of the unit: a table with one row per key still has one row
    per key after a store, a clear of either kind, a cached invoke or a
    batch call. *)
Theorem operations_keep_one_row_per_key db :
  unique_keys (result_cache db) ->
  (forall now m h c v ttl,
     unique_keys (result_cache (store_cache_result db now m h c v ttl)))
  /\ (forall now arg, unique_keys (result_cache (ai_cache_clear db now arg).1))
  /\ (forall now model args ttl_arg r db',
        ai_invoke_model_cached guc db now model args ttl_arg = Ok (r, db') ->
        unique_keys (result_cache db'))
  /\ (forall now model inputs user_args_text ttl_arg arr db',
        ai_batch_invoke_cached guc db now model inputs user_args_text ttl_arg = Ok (arr, db') ->
        unique_keys (result_cache db')).
Proof.
  intros Hu.
  pose (P := fun d => unique_keys (result_cache d)).
  assert (Hhit : forall d, P d -> P (count_hit d))
    by (unfold P; intros d; rewrite CacheSpec.count_hit_result_cache; auto).
  assert (Hmiss : forall d, P d -> P (count_miss d))
    by (unfold P; intros d; rewrite CacheSpec.count_miss_result_cache; auto).
  assert (Hbatch : forall d a b c, P d -> P (count_batch d a b c))
    by (unfold P; intros d a b c; rewrite count_batch_result_cache; auto).
  assert (Hstore : forall d now m h c v ttl, P d -> P (store_cache_result d now m h c v ttl))
    by (unfold P; intros; apply store_unique_keys; assumption).
  split; [intros; apply store_unique_keys; exact Hu|].
  split; [intros; apply clear_unique_keys; exact Hu|]. split.
  - intros now model args ttl_arg r db' Hrun.
    exact (invoke_preserves P Hhit Hmiss Hstore _ _ _ _ _ _ _ Hu Hrun).
  - intros now model inputs user_args_text ttl_arg arr db' Hrun.
    exact (batch_preserves P Hhit Hmiss Hbatch Hstore _ _ _ _ _ _ _ _ Hu Hrun).
Qed.


(** *** Counting *)
















(** X8. An input array with no non-NULL element, the empty array included,
    makes no lookup and no model call: the call returns NULL, leaves the
    table as it is, and still counts one batch request and as many total
    requests as the array has elements. *)
Theorem batch_of_nulls_returns_null db now model inputs user_args_text ttl_arg :
  Forall (fun x => x = None) inputs ->
  ai_batch_invoke_cached guc db now model inputs user_args_text ttl_arg
  = Ok (None, count_batch db 0 0 (Z.of_nat (length inputs))).
Proof.
  intros Hnull. unfold ai_batch_invoke_cached.
  assert (Hloop : forall i st,
            batch_loop guc now model user_args_text
              (default (ai_cache_default_ttl guc) ttl_arg) i inputs st = Ok st).
  { induction Hnull as [|x inputs -> _ IH]; intros i st; simpl; [reflexivity|apply IH]. }
  rewrite Hloop. reflexivity.
Qed.

End InvokeFacts.
Lemma missed_result_is_served_until_expiry_witness :
  exists db1,
    ai_invoke_model_cached (host := echo_host) cache_on empty_store 1000 "m" "{}" (Some 60)
    = Ok ("re:{}", db1)
    /\ ai_invoke_model_cached
         (host := with_invoke_model echo_host (fun _ _ => Raise "model endpoint failed"))
         cache_on (count_hit db1) 60000999 "m" "{}" None
       = Ok ("re:{}", count_hit (count_hit db1)).
Proof.
  destruct (missed_result_is_served_until_expiry (host := echo_host) cache_on empty_store
              1000 "m" "{}" (Some 60) "re:{}" eq_refl eq_refl eq_refl eq_refl eq_refl)
    as (db1 & Hfirst & Hlater).
  exists db1. split; [exact Hfirst|].
  refine (proj1 (proj2 (Hlater (count_hit db1) 60000999 None _ _ _ _ _))).
  - rewrite count_hit_spi. injection Hfirst as <-. reflexivity.
  - rewrite CacheSpec.count_hit_result_cache. reflexivity.
  - reflexivity.
  - reflexivity.
Defined.

Lemma cache_not_in_use_is_pass_through_witness :
  ai_invoke_model_cached (host := echo_host) cache_on
    {| spi_connects := true;
       result_cache := [mkCacheRow "m" "000029a9" "c" (Some "cached") 0 60000000 1];
       cache_stats := [] |}
    1000 "m" "{}" (Some 0)
  = Ok ("re:{}", {| spi_connects := true;
                    result_cache := [mkCacheRow "m" "000029a9" "c" (Some "cached") 0 60000000 1];
                    cache_stats := [] |}).
Proof.
  refine (proj1 (cache_not_in_use_is_pass_through (host := echo_host) cache_on _ 1000 "m"
                   (Some 0) _) "{}").
  left. reflexivity.
Defined.

(** *** Clear, store and the lookups around them *)

Lemma live_matches_after_clear now now' m h rows :
  now <= now' ->
  live_matches now' m h (filter (fun r => ~ expiry_time r < now) rows)
  = live_matches now' m h rows.
Proof.
  intros Hle. unfold live_matches. rewrite list_filter_filter.
  apply list_filter_iff. intros r. split; [tauto|]. intros [Hk Hl]. repeat split; auto. lia.
Qed.

(** X9. Clearing the expired entries is not visible to a lookup made at
    that time or later under a key without quote or backslash: the
    statement it sends gives the same answer with and without the clear.
    And a second such clear at the same time finds nothing left to
    delete. *)
Theorem clear_expired_is_invisible db now :
  (forall now' m h,
     sql_plain m = true -> sql_plain h = true ->
     now <= now' ->
     lookup_cache_result_sql (ai_cache_clear db now (Some false)).1 now' m h
     = lookup_cache_result_sql db now' m h)
  /\ (let once := (ai_cache_clear db now (Some false)).1 in
      (ai_cache_clear once now (Some false)).2 = 0
      /\ result_cache (ai_cache_clear once now (Some false)).1 = result_cache once).
Proof.
  split.
  - intros now' m h Hm Hh Hle.
    rewrite !(CacheSpec.lookup_sql_plain _ now' m h 0 Hm Hh). f_equal.
    unfold ai_cache_clear, lookup_cache_result.
    destruct (spi_connects db) eqn:Hspi; simpl; [|rewrite Hspi; reflexivity].
    rewrite Hspi. rewrite live_matches_after_clear by exact Hle. reflexivity.
  - unfold ai_cache_clear. destruct (spi_connects db) eqn:Hspi; simpl.
    + rewrite Hspi. simpl.
      assert (Hsame : filter (fun r => ~ expiry_time r < now)
                        (filter (fun r => ~ expiry_time r < now) (result_cache db))
                      = filter (fun r => ~ expiry_time r < now) (result_cache db)).
      { rewrite list_filter_filter. apply list_filter_iff. intros r. tauto. }
      rewrite Hsame. split; [|reflexivity].
      rewrite Z.sub_diag. reflexivity.
    + rewrite Hspi. simpl. auto.
Qed.

Lemma clear_expired_is_invisible_witness :
  let db := {| spi_connects := true;
               result_cache := [mkCacheRow "m" "0000002a" "c" (Some "old") 0 500 1;
                                mkCacheRow "m" "0000002b" "c" (Some "live") 0 5000 1];
               cache_stats := [] |} in
  lookup_cache_result_sql (ai_cache_clear db 1000 (Some false)).1 2000 "m" "0000002b"
  = Reads (Some ("live", 0)).
Proof.
  intros db.
  rewrite (proj1 (clear_expired_is_invisible db 1000) 2000 "m" "0000002b" eq_refl eq_refl).
  - vm_compute. reflexivity.
  - vm_compute. discriminate.
Defined.

(** X10. A store under one key changes no lookup under another key, the
    texts of both keys being without quote or backslash and the result
    without backslash: the INSERT sent reads as the upsert of the key
    given, and the SELECT sent for the other key gives the same answer
    before and after it. *)
Theorem store_leaves_other_keys db now m h c v ttl m' h' :
  sql_plain m = true -> sql_plain h = true -> sql_plain c = true ->
  has_backslash v = false ->
  sql_plain m' = true -> sql_plain h' = true ->
  (m', h') <> (m, h) ->
  exists db',
    store_cache_result_sql db now m h c v ttl = Reads db'
    /\ forall t,
         lookup_cache_result_sql db' t m' h' = lookup_cache_result_sql db t m' h'.
Proof.
  intros Hm Hh Hc Hv Hm' Hh' Hne.
  exists (store_cache_result db now m h c v ttl).
  split; [apply CacheSpec.store_sql_plain; assumption|].
  intros t. rewrite !(CacheSpec.lookup_sql_plain _ t m' h' 0 Hm' Hh'). f_equal.
  unfold lookup_cache_result, store_cache_result.
  destruct (spi_connects db) eqn:Hspi; simpl; [|rewrite Hspi; reflexivity].
  rewrite Hspi. rewrite !live_matches_split.
  rewrite CacheSpec.upsert_other_keys by (simpl; exact Hne). reflexivity.
Qed.

Lemma store_leaves_other_keys_witness :
  let db := {| spi_connects := true;
               result_cache := [mkCacheRow "m" "0000002a" "c" (Some "kept") 0 60000000 1];
               cache_stats := [] |} in
  exists db',
    store_cache_result_sql db 5 "m" "0000002b" "c" "new" 60 = Reads db'
    /\ lookup_cache_result_sql db' 6 "m" "0000002a" = Reads (Some ("kept", 0)).
Proof.
  intros db.
  destruct (store_leaves_other_keys db 5 "m" "0000002b" "c" "new" 60 "m" "0000002a"
              eq_refl eq_refl eq_refl eq_refl eq_refl eq_refl) as (db' & Hstore & Hsame).
  - discriminate.
  - exists db'. split; [exact Hstore|]. rewrite Hsame. vm_compute. reflexivity.
Defined.

(** *** Keys that are read as they are *)

(** X24. A model name and an arguments hash without quote or backslash are
    read by the server as they are: the SELECT that
    [lookup_cache_result] prints asks for the unexpired rows of exactly
    that key and gives what the lookup on those strings gives, and, the
    content hash being such a text too and the result holding no
    backslash, the INSERT that [store_cache_result] prints has the four
    texts as its constants and is the upsert of that row.  The hash texts
    the unit makes are such texts, and the key of the batch lookup is one
    exactly when the input text is. *)
Theorem plain_keys_are_read_as_they_are `{host : Host} m h :
  sql_plain m = true -> sql_plain h = true ->
  read_select (lookup_query_sql m h)
  = Reads [[ColumnIs "model_name" m; ColumnIs "args_hash" h; Unexpired]]
  /\ (forall db now ttl,
        lookup_cache_result_sql db now m h = Reads (lookup_cache_result db now m h ttl))
  /\ (forall c v ttl,
        sql_plain c = true -> has_backslash v = false ->
        read_insert (store_insert_sql m h c (quote_literal_cstr v) ttl) ttl
        = Reads (m, h, c, v)
        /\ forall db now,
             store_cache_result_sql db now m h c v ttl
             = Reads (store_cache_result db now m h c v ttl))
  /\ (forall args content,
        sql_plain (compute_args_hash args) = true
        /\ sql_plain (compute_content_hash content) = true)
  /\ (forall x i, sql_plain (simple_hash x i) = sql_plain x).
Proof.
  intros Hm Hh. split; [apply CacheSpec.read_select_plain; assumption|].
  split; [intros; apply CacheSpec.lookup_sql_plain; assumption|].
  split; [|split].
  - intros c v ttl Hc Hv. split; [apply CacheSpec.read_insert_plain; assumption|].
    intros db now. apply CacheSpec.store_sql_plain; assumption.
  - intros args content. split; apply CacheSpec.hex08_plain.
  - apply CacheSpec.simple_hash_plain.
Qed.

Lemma plain_keys_are_read_as_they_are_witness :
  lookup_cache_result_sql
    {| spi_connects := true;
       result_cache := [mkCacheRow "m" "0000002a" "c" (Some "it's") 0 60000000 1];
       cache_stats := [] |} 1000 "m" "0000002a"
  = Reads (Some ("it's", 0)).
Proof.
  rewrite (proj1 (proj2 (plain_keys_are_read_as_they_are (host := echo_host)
                           "m" "0000002a" eq_refl eq_refl)) _ _ 60).
  reflexivity.
Defined.

(** X25. For a key without quote or backslash (content hash likewise, result
    without backslash) and the store reachable: after the store made at
    time t0 with TTL ttl, the lookup of that key made at time t is a hit
    with the stored result and creation time t0 when t < t0 + ttl * 10^6
    microseconds, and a miss from that instant on although the row is
    still in the table; and on any table a hit under such a key comes
    from a row of that key whose expiry time is after the time of the
    lookup. *)
Theorem plain_key_lookup_respects_ttl db t0 t m h c v ttl :
  sql_plain m = true -> sql_plain h = true -> sql_plain c = true ->
  has_backslash v = false ->
  spi_connects db = true ->
  exists db',
    store_cache_result_sql db t0 m h c v ttl = Reads db'
    /\ (t < t0 + ttl * 1000000 ->
        lookup_cache_result_sql db' t m h = Reads (Some (v, t0)))
    /\ (t0 + ttl * 1000000 <= t ->
        lookup_cache_result_sql db' t m h = Reads None
        /\ exists r, r ∈ result_cache db' /\ model_name r = m /\ args_hash r = h
                     /\ expiry_time r = t0 + ttl * 1000000)
    /\ (forall d now txt ct,
          lookup_cache_result_sql d now m h = Reads (Some (txt, ct)) ->
          exists r, r ∈ result_cache d /\ model_name r = m /\ args_hash r = h
                    /\ result_text r = Some txt /\ created_time r = ct
                    /\ now < expiry_time r).
Proof.
  intros Hm Hh Hc Hv Hspi.
  exists (store_cache_result db t0 m h c v ttl).
  split; [apply CacheSpec.store_sql_plain; assumption|]. split; [|split].
  - intros Hlt. rewrite (CacheSpec.lookup_sql_plain _ t m h 0 Hm Hh). f_equal.
    apply CacheSpec.lookup_after_store_live; [exact Hspi|exact Hlt].
  - intros Hge. rewrite (CacheSpec.lookup_sql_plain _ t m h 0 Hm Hh).
    destruct (CacheSpec.lookup_after_store_expired db t0 t m h c v ttl 0 Hspi Hge)
      as [-> _].
    split; [reflexivity|].
    destruct (CacheSpec.store_result_cache db t0 m h c v ttl Hspi) as [Hrc _].
    destruct (CacheSpec.upsert_has_row (inserted_row t0 m h c v ttl) (result_cache db))
      as (r & Hin & Hk).
    exists r. rewrite Hrc. split; [exact Hin|].
    destruct (CacheSpec.upsert_rows_of_key _ _ r Hin Hk) as (_ & _ & He).
    simpl in Hk. apply CacheSpec.has_key_true in Hk as [-> ->].
    split; [reflexivity|]. split; [reflexivity|]. exact He.
  - intros d now txt ct. rewrite (CacheSpec.lookup_sql_plain _ now m h 0 Hm Hh).
    intros [= Hhit]. apply CacheSpec.lookup_hit_inv in Hhit as (r & Hin & Hk & Hl & Ht & Hct).
    apply CacheSpec.has_key_true in Hk as [Hkm Hkh]. exists r. auto 10.
Qed.

Lemma plain_key_lookup_respects_ttl_witness :
  let db := {| spi_connects := true; result_cache := []; cache_stats := [] |} in
  (exists db',
      store_cache_result_sql db 0 "m" "0000002a" "c" "v" 60 = Reads db'
      /\ lookup_cache_result_sql db' 59999999 "m" "0000002a" = Reads (Some ("v", 0)))
  /\ (exists db',
         store_cache_result_sql db 0 "m" "0000002a" "c" "v" 60 = Reads db'
         /\ lookup_cache_result_sql db' 60000000 "m" "0000002a" = Reads None).
Proof.
  intros db. split.
  - destruct (plain_key_lookup_respects_ttl db 0 59999999 "m" "0000002a" "c" "v" 60
                eq_refl eq_refl eq_refl eq_refl eq_refl) as (db' & Hstore & Hlive & _).
    exists db'. split; [exact Hstore|]. apply Hlive. reflexivity.
  - destruct (plain_key_lookup_respects_ttl db 0 60000000 "m" "0000002a" "c" "v" 60
                eq_refl eq_refl eq_refl eq_refl eq_refl) as (db' & Hstore & _ & Hlate & _).
    exists db'. split; [exact Hstore|]. apply Hlate. vm_compute. discriminate.
Defined.

(** X26. For a key without quote or backslash, the table carrying its unique
    index and the store reachable, [store_cache_result] is an upsert.
    With no row of the key it appends the row (key, content hash, result,
    created now, expiring at now + ttl * 10^6 microseconds, access count
    1).  With a row of the key it rewrites that row: new result, created
    now, expiring at now + ttl * 10^6, access count one up, content hash
    as it was; the table keeps its length and the rows of every other key
    stay as they were.  After two stores under the key exactly one row
    has it, and a lookup before the second expiry returns the second
    result. *)
Theorem plain_key_store_is_upsert db m h :
  sql_plain m = true -> sql_plain h = true ->
  spi_connects db = true ->
  unique_keys (result_cache db) ->
  (forall now c v ttl,
     sql_plain c = true -> has_backslash v = false ->
     entries_for m h (result_cache db) = 0%nat ->
     exists db',
       store_cache_result_sql db now m h c v ttl = Reads db'
       /\ result_cache db'
          = (result_cache db ++ [mkCacheRow m h c (Some v) now (now + ttl * 1000000) 1])%list)
  /\ (forall now c v ttl old,
        sql_plain c = true -> has_backslash v = false ->
        old ∈ result_cache db -> model_name old = m -> args_hash old = h ->
        exists db',
          store_cache_result_sql db now m h c v ttl = Reads db'
          /\ mkCacheRow m h (content_hash old) (Some v) now (now + ttl * 1000000)
                        (access_count old + 1) ∈ result_cache db'
          /\ entries_for m h (result_cache db') = 1%nat
          /\ length (result_cache db') = length (result_cache db)
          /\ (forall m' h', (m', h') <> (m, h) ->
                filter (fun r => has_key m' h' r = true) (result_cache db')
                = filter (fun r => has_key m' h' r = true) (result_cache db)))
  /\ (forall t1 c1 v1 ttl1 t2 c2 v2 ttl2 t,
        sql_plain c1 = true -> has_backslash v1 = false ->
        sql_plain c2 = true -> has_backslash v2 = false ->
        exists db1 db2,
          store_cache_result_sql db t1 m h c1 v1 ttl1 = Reads db1
          /\ store_cache_result_sql db1 t2 m h c2 v2 ttl2 = Reads db2
          /\ unique_keys (result_cache db2)
          /\ entries_for m h (result_cache db2) = 1%nat
          /\ (t < t2 + ttl2 * 1000000 ->
              lookup_cache_result_sql db2 t m h = Reads (Some (v2, t2)))).
Proof.
  intros Hm Hh Hspi Hu.
  destruct (CacheSpec.upsert_on_values db m h Hspi Hu) as (Hins & Hupd & Htwice).
  split; [|split].
  - intros now c v ttl Hc Hv Hzero. exists (store_cache_result db now m h c v ttl).
    split; [apply CacheSpec.store_sql_plain; assumption|].
    exact (Hins now c v ttl Hzero).
  - intros now c v ttl old Hc Hv Hin Hom Hoh.
    exists (store_cache_result db now m h c v ttl).
    split; [apply CacheSpec.store_sql_plain; assumption|].
    apply (Hupd now c v ttl old Hin). apply CacheSpec.has_key_true. auto.
  - intros t1 c1 v1 ttl1 t2 c2 v2 ttl2 t Hc1 Hv1 Hc2 Hv2.
    exists (store_cache_result db t1 m h c1 v1 ttl1),
           (store_cache_result (store_cache_result db t1 m h c1 v1 ttl1) t2 m h c2 v2 ttl2).
    split; [apply CacheSpec.store_sql_plain; assumption|].
    split; [apply CacheSpec.store_sql_plain; assumption|].
    destruct (Htwice t1 c1 v1 ttl1 t2 c2 v2 ttl2 t 0) as (Hu2 & Hone & Hlook).
    split; [exact Hu2|]. split; [exact Hone|].
    intros Hlt. rewrite (CacheSpec.lookup_sql_plain _ t m h 0 Hm Hh). f_equal.
    apply Hlook. exact Hlt.
Qed.

Lemma plain_key_store_is_upsert_witness :
  let db := {| spi_connects := true;
               result_cache := [mkCacheRow "m" "0000002a" "c0" (Some "v0") 0 60000000 4];
               cache_stats := [] |} in
  exists db',
    store_cache_result_sql db 5000000 "m" "0000002a" "c1" "v1" 60 = Reads db'
    /\ mkCacheRow "m" "0000002a" "c0" (Some "v1") 5000000 65000000 5 ∈ result_cache db'
    /\ length (result_cache db') = 1%nat.
Proof.
  intros db.
  destruct (plain_key_store_is_upsert db "m" "0000002a" eq_refl eq_refl eq_refl)
    as (_ & Hupd & _).
  - apply NoDup_singleton.
  - destruct (Hupd 5000000 "c1" "v1" 60
                (mkCacheRow "m" "0000002a" "c0" (Some "v0") 0 60000000 4)
                eq_refl eq_refl) as (db' & Hstore & Hrow & _ & Hlen & _).
    + left.
    + reflexivity.
    + reflexivity.
    + exists db'. split; [exact Hstore|]. split; [exact Hrow|exact Hlen].
Defined.

(** X11. What the statistics function reports around the other operations:
    after a clear of everything it reports zero total requests, hits,
    misses and entries and a hit ratio of zero, the ratio never being
    computed on a zero total; after a store or a clear of expired entries
    the entry count it reports is the size of the table. *)
Theorem stats_report_follows_operations (round_percent : Z -> Z -> Z) (guc : Guc)
    (max_entries : Z) (db : Database) :
  spi_connects db = true ->
  (forall now,
     exists t, ai_cache_stats round_percent guc max_entries (ai_cache_clear db now (Some true)).1
               = Some t
          /\ out_total_requests t = 0 /\ out_cache_hits t = 0 /\ out_cache_misses t = 0
          /\ out_hit_ratio t = 0 /\ out_current_entries t = 0)
  /\ (forall d t, ai_cache_stats round_percent guc max_entries d = Some t ->
        out_total_requests t <= 0 -> out_hit_ratio t = 0)
  /\ (cache_stats db <> [] ->
      (forall now m h c v ttl,
         exists t, ai_cache_stats round_percent guc max_entries
                     (store_cache_result db now m h c v ttl) = Some t
              /\ out_current_entries t
                 = Z.of_nat (length (result_cache (store_cache_result db now m h c v ttl))))
      /\ (forall now,
            exists t, ai_cache_stats round_percent guc max_entries
                        (ai_cache_clear db now (Some false)).1 = Some t
                 /\ out_current_entries t
                    = Z.of_nat (length (result_cache (ai_cache_clear db now (Some false)).1)))).
Proof.
  intros Hspi. split; [|split].
  - intros now. unfold ai_cache_clear, ai_cache_stats. rewrite Hspi. simpl. rewrite Hspi.
    destruct (cache_stats db) as [|s rest]; simpl; eexists; split; try reflexivity; simpl; auto.
  - intros d t. unfold ai_cache_stats. destruct (spi_connects d); [|discriminate].
    destruct (cache_stats d) as [|s rest]; intros [= <-]; simpl; [reflexivity|].
    intros Hle. destruct (0 <? total_requests s) eqn:E; [|reflexivity].
    apply Z.ltb_lt in E. lia.
  - intros Hrows. destruct (cache_stats db) as [|s rest] eqn:Hst; [congruence|]. split.
    + intros now m h c v ttl. unfold store_cache_result, ai_cache_stats. rewrite Hspi.
      simpl. rewrite Hspi, Hst. simpl. eexists. split; reflexivity.
    + intros now. unfold ai_cache_clear, ai_cache_stats. rewrite Hspi. simpl.
      rewrite Hspi, Hst. simpl. eexists. split; reflexivity.
Qed.

(** *** The batch key as a function of text and position *)

Lemma pretty_N_go_no_underscore x s :
  has_underscore (pretty_N_go x s) = has_underscore s.
Proof.
  revert s. induction (N.lt_wf_0 x) as [x _ IH]; intros s.
  destruct (decide (x = 0)%N) as [->|Hx].
  - rewrite pretty_N_go_0. reflexivity.
  - rewrite pretty_N_go_step by lia. rewrite IH by (apply N.div_lt; lia).
    simpl. rewrite bool_decide_eq_false_2; [reflexivity|].
    unfold pretty_N_char. repeat case_match; discriminate.
Qed.

Lemma pretty_index_no_underscore (i : nat) : has_underscore (pretty (Z.of_nat i)) = false.
Proof.
  unfold pretty, pretty_Z. destruct (Z.of_nat i) as [|p|p] eqn:E; [reflexivity| |lia].
  unfold pretty, pretty_positive, pretty, pretty_N.
  destruct (decide (N.pos p = 0%N)); [reflexivity|].
  apply pretty_N_go_no_underscore.
Qed.

Lemma has_underscore_app s1 s2 :
  has_underscore (s1 +:+ s2) = has_underscore s1 || has_underscore s2.
Proof.
  induction s1 as [|c s1 IH]; [reflexivity|].
  change (has_underscore (String c (s1 +:+ s2))
          = has_underscore (String c s1) || has_underscore s2).
  simpl. rewrite IH, orb_assoc. reflexivity.
Qed.

Lemma has_underscore_tail s d : has_underscore (s +:+ "_" +:+ d) = true.
Proof.
  rewrite has_underscore_app. change ("_" +:+ d) with (String "_" d). simpl.
  apply orb_true_r.
Qed.

(** A text is cut in one way only at its last underscore. *)
Lemma split_at_last_underscore x y d1 d2 :
  has_underscore d1 = false -> has_underscore d2 = false ->
  x +:+ "_" +:+ d1 = y +:+ "_" +:+ d2 -> x = y /\ d1 = d2.
Proof.
  intros H1 H2. revert y. induction x as [|c x IH]; intros [|c' y] E.
  - change (String "_" d1 = String "_" d2) in E. injection E as ->. auto.
  - change (String "_" d1 = String c' (y +:+ "_" +:+ d2)) in E. injection E as _ E.
    rewrite E, has_underscore_tail in H1. discriminate.
  - change (String c (x +:+ "_" +:+ d1) = String "_" d2) in E. injection E as _ E.
    rewrite <- E, has_underscore_tail in H2. discriminate.
  - change (String c (x +:+ "_" +:+ d1) = String c' (y +:+ "_" +:+ d2)) in E.
    injection E as -> E. destruct (IH y E) as [-> ->]. auto.
Qed.

(** X12. The key of the batch lookup determines both the input text and the
    position: two elements get the same key only if they have the same
    text at the same position, also when the text itself holds
    underscores and digits. *)
Theorem batch_key_determines_text_and_position x y i j :
  simple_hash x i = simple_hash y j -> x = y /\ i = j.
Proof.
  unfold simple_hash. intros E. apply (inj (String.app _)) in E.
  apply split_at_last_underscore in E as [-> E];
    [|apply pretty_index_no_underscore|apply pretty_index_no_underscore].
  split; [reflexivity|]. apply (inj pretty) in E. lia.
Qed.

Lemma batch_key_determines_text_and_position_witness :
  simple_hash "a_1" 2 <> simple_hash "a" 12.
Proof.
  intros E. apply batch_key_determines_text_and_position in E as [E _]. discriminate.
Defined.

(** *** Worked instances *)



Lemma batch_of_nulls_returns_null_witness :
  ai_batch_invoke_cached (host := echo_host) cache_on empty_store 1000 "m"
    [None; None] None (Some 60)
  = Ok (None, {| spi_connects := true; result_cache := [];
                 cache_stats := [mkStatsRow 2 0 0 1 0] |}).
Proof.
  apply (batch_of_nulls_returns_null (host := echo_host) cache_on empty_store 1000 "m"
           [None; None] None (Some 60)).
  repeat constructor.
Defined.

Lemma operations_keep_one_row_per_key_witness :
  let db := {| spi_connects := true;
               result_cache := [mkCacheRow "m" "0000002a" "c0" (Some "v0") 0 60000000 1;
                                mkCacheRow "m" "0000002b" "c0" (Some "w0") 0 60000000 1];
               cache_stats := [mkStatsRow 2 0 2 0 2] |} in
  unique_keys (result_cache (store_cache_result db 5 "m" "0000002a" "c1" "v1" 60))
  /\ length (result_cache (store_cache_result db 5 "m" "0000002a" "c1" "v1" 60)) = 2%nat.
Proof.
  intros db. split; [|reflexivity].
  apply (operations_keep_one_row_per_key (host := echo_host) cache_on db).
  unfold unique_keys. simpl. apply NoDup_cons. split.
  - rewrite list_elem_of_singleton. discriminate.
  - apply NoDup_singleton.
Defined.


Lemma stats_report_follows_operations_witness :
  exists t,
    ai_cache_stats (fun hits total => hits * 10000 / total) cache_on 10000
      (ai_cache_clear {| spi_connects := true; result_cache := [];
                         cache_stats := [mkStatsRow 9 4 5 5 1] |} 1000 (Some true)).1
    = Some t
    /\ out_hit_ratio t = 0.
Proof.
  destruct (proj1 (stats_report_follows_operations (fun hits total => hits * 10000 / total)
                     cache_on 10000
                     {| spi_connects := true; result_cache := [];
                        cache_stats := [mkStatsRow 9 4 5 5 1] |} eq_refl) 1000)
    as (t & Ht & _ & _ & _ & Hratio & _).
  exists t. split; [exact Ht|exact Hratio].
Defined.

End CacheMore.

(** ** More on the queue, the worker and the executors *)

(** As above, a request is named by its allocation: every enqueue gets a
    fresh name, and the [free] a caller makes on return is not followed,
    so nothing here speaks of memory being reused. *)

Module BatchMore.
Import Batch.

Section Worlds.
Context {net : Net} (guc : Guc).

Lemma copies_in_longer_heap (h k : list BatchRequest) (l : list addr) :
  Forall (fun a => (a < length h)%nat) l ->
  omap (fun a => (h ++ k)%list !! a) l = omap (fun a => h !! a) l.
Proof.
  induction 1 as [|a l Ha _ IH]; [reflexivity|].
  cbn. rewrite lookup_app_l by exact Ha. rewrite IH. reflexivity.
Qed.

Lemma prefix_Forall {A} (P : A -> Prop) (l1 l2 : list A) :
  l1 `prefix_of` l2 -> Forall P l2 -> Forall P l1.
Proof. intros [k ->] H. apply Forall_app in H. tauto. Qed.

Lemma elem_of_concat {A} (x : A) (ls : list (list A)) :
  x ∈ concat ls <-> exists l, x ∈ l /\ l ∈ ls.
Proof.
  rewrite list_elem_of_In, in_concat. split.
  - intros (l & Hl & Hx). exists l. rewrite !list_elem_of_In. auto.
  - intros (l & Hx & Hl). exists l. rewrite <- !list_elem_of_In. auto.
Qed.

Lemma init_all_pending : all_pending init_batch_context.
Proof. constructor. Qed.

Lemma init_well_formed : well_formed init_batch_context.
Proof.
  unfold well_formed, history. simpl.
  split; [reflexivity|]. split; [constructor|]. split; [constructor|].
  split; [reflexivity|]. discriminate.
Qed.

Lemma step_well_formed w e w' sigs :
  well_formed w -> step guc w e = Some (w', sigs) -> well_formed w'.
Proof.
  intros Hw. pose proof Hw as (Hc & Hsort & Hvalid & Hflag & Hfl).
  destruct e as [rid m i args|wr|]; simpl.
  - destruct (enable_batch_processing guc);
      [|intros [= <- <-]; exact Hw].
    intros [= <- <-]. unfold well_formed, history. simpl. split; [|split; [|split; [|split]]].
    + rewrite length_app. simpl. lia.
    + rewrite app_assoc. apply StronglySorted_app_2.
      * intros x1 x2 Hx1 Hx2. apply list_elem_of_singleton in Hx2 as ->.
        exact (proj1 (Forall_forall _ _) Hvalid x1 Hx1).
      * exact Hsort.
      * repeat constructor.
    + rewrite length_app, app_assoc. simpl. apply Forall_app. split.
      * eapply Forall_impl; [exact Hvalid|]. simpl. intros; lia.
      * constructor; [lia|constructor].
    + exact Hflag.
    + intros f Hf. destruct (Hfl f Hf) as (Hpre & Harr & Hne).
      split; [apply prefix_app_r; exact Hpre|]. split; [|exact Hne].
      rewrite Harr. symmetry. apply copies_in_longer_heap.
      apply (prefix_Forall _ _ _ Hpre). apply Forall_app in Hvalid. tauto.
  - destruct (in_flight w) eqn:Eidle; [discriminate|]. intros [= <- <-].
    unfold batch_processor_wake. destruct (flush_due guc (ctx w) wr) eqn:Edue.
    + unfold copy_requests. unfold well_formed, history. simpl.
      split; [exact Hc|]. split; [exact Hsort|]. split; [exact Hvalid|]. split; [reflexivity|].
      intros f [= <-]. simpl. split; [apply prefix_take|]. split; [reflexivity|].
      unfold flush_due in Edue. apply andb_true_iff in Edue as [Hpos _].
      apply Z.ltb_lt in Hpos. rewrite Hc, Nat2Z.id, firstn_all.
      destruct (requests (ctx w)); [simpl in Hc; lia|discriminate].
    + exact Hw.
  - destruct (in_flight w) as [f|] eqn:Ef; [|discriminate]. intros [= <- <-].
    destruct (Hfl f eq_refl) as ([k Hk] & _ & _).
    unfold well_formed, history. simpl.
    rewrite fmap_app, concat_app. simpl. rewrite !app_nil_r.
    fold (history w). rewrite Hk, app_assoc in Hsort, Hvalid.
    split; [reflexivity|]. split; [eapply StronglySorted_app_1_l; exact Hsort|].
    split; [apply Forall_app in Hvalid; tauto|]. split; [reflexivity|]. discriminate.
Qed.

Lemma run_well_formed es w w' :
  well_formed w -> run guc w es = Some w' -> well_formed w'.
Proof.
  revert w. induction es as [|e es IH]; intros w Hw; simpl.
  - intros [= <-]. exact Hw.
  - destruct (step guc w e) as [[w1 sigs]|] eqn:E; [|discriminate].
    apply IH. eapply step_well_formed; eauto.
Qed.

Lemma step_whole_queue_taken w e w' sigs :
  well_formed w -> whole_queue_taken w ->
  enqueues_between_flushes guc w [e] = true ->
  step guc w e = Some (w', sigs) -> whole_queue_taken w'.
Proof.
  intros (Hc & _) Hq Hcalm. destruct e as [rid m i args|wr|]; simpl.
  - simpl in Hcalm. destruct (in_flight w) eqn:Eidle; [discriminate|].
    destruct (enable_batch_processing guc); intros [= <- <-] f Hf; simpl in Hf;
      congruence.
  - destruct (in_flight w) eqn:Eidle; [discriminate|]. intros [= <- <-].
    unfold batch_processor_wake. destruct (flush_due guc (ctx w) wr).
    + unfold copy_requests. intros f. simpl. intros [= <-]. simpl.
      rewrite Hc, Nat2Z.id. apply firstn_all.
    + exact Hq.
  - destruct (in_flight w); [|discriminate]. intros [= <- <-] f0. simpl. discriminate.
Qed.

Lemma run_whole_queue_taken es w w' :
  well_formed w -> whole_queue_taken w ->
  enqueues_between_flushes guc w es = true ->
  run guc w es = Some w' -> whole_queue_taken w'.
Proof.
  revert w. induction es as [|e es IH]; intros w Hw Hq Hcalm; simpl.
  - intros [= <-]. exact Hq.
  - simpl in Hcalm. destruct (step guc w e) as [[w1 sigs]|] eqn:E; [|discriminate].
    apply andb_true_iff in Hcalm as [He Hrest].
    apply IH; [eapply step_well_formed; eauto| |exact Hrest].
    eapply step_whole_queue_taken; eauto. simpl. rewrite He, E. reflexivity.
Qed.

(** X13. In a run in which no request arrives while a flush is in flight:
    [processing] is set exactly while a flush is in flight, and between
    flushes the counter is the length of the queue and the queue lists
    its requests in the order they were enqueued (a request is named by
    its allocation, numbered as enqueued), each a request not yet
    completed. *)
Theorem queue_stays_consistent es w :
  run guc init_batch_context es = Some w ->
  enqueues_between_flushes guc init_batch_context es = true ->
  (processing (ctx w) = true <-> is_Some (in_flight w))
  /\ (in_flight w = None ->
      request_count (ctx w) = Z.of_nat (length (requests (ctx w)))
      /\ StronglySorted lt (requests (ctx w))
      /\ Forall (fun a => exists r, heap w !! a = Some r /\ completed r = false)
           (requests (ctx w))).
Proof.
  intros Hrun _.
  destruct (run_well_formed _ _ _ init_well_formed Hrun) as (Hc & Hsort & Hvalid & Hflag & _).
  split; [rewrite Hflag; apply bool_decide_eq_true|].
  intros _. split; [exact Hc|]. split; [eapply StronglySorted_app_1_r; exact Hsort|].
  assert (Hpend : all_pending w).
  { eapply BatchSpec.run_all_pending; [|exact Hrun]. constructor. }
  apply Forall_app in Hvalid as [_ Hq]. eapply Forall_impl; [exact Hq|].
  intros a Ha. simpl in Ha. destruct (lookup_lt_is_Some_2 _ _ Ha) as [r Hr].
  exists r. split; [exact Hr|]. exact (proj1 (Forall_lookup _ _) Hpend a r Hr).
Qed.

(** X14. In a run in which no request arrives while a flush is in flight, no
    request is handed to the executor twice: over all flushes made so far
    and the one in flight, the addresses taken are strictly increasing,
    so each occurs once and batches follow enqueue order.  The flush in
    flight has taken the whole queue, one struct copy per request, none
    of them completed, and the count the executor is given (read from the
    context after the unlock) is the length of the array. *)
Theorem no_request_is_flushed_twice es w :
  run guc init_batch_context es = Some w ->
  enqueues_between_flushes guc init_batch_context es = true ->
  StronglySorted lt (history w ++ current_batch w)
  /\ NoDup (history w ++ current_batch w)
  /\ (forall f, in_flight w = Some f ->
        batch_addrs f = requests (ctx w)
        /\ request_count (ctx w) = Z.of_nat (length (req_array f))
        /\ length (req_array f) = length (batch_addrs f)
        /\ Forall (fun r => completed r = false) (req_array f)).
Proof.
  intros Hrun Hcalm.
  destruct (run_well_formed _ _ _ init_well_formed Hrun) as (Hc & Hsort & Hvalid & Hflag & Hfl).
  assert (Hs : StronglySorted lt (history w ++ current_batch w)).
  { unfold current_batch. destruct (in_flight w) as [f|] eqn:Ef.
    - destruct (Hfl f eq_refl) as ([k Hk] & _ & _). rewrite Hk, app_assoc in Hsort.
      eapply StronglySorted_app_1_l. exact Hsort.
    - rewrite app_nil_r. eapply StronglySorted_app_1_l. exact Hsort. }
  split; [exact Hs|]. split.
  - clear -Hs. induction Hs as [|a l _ IH Ha]; constructor; [|exact IH].
    intros Hin. apply (proj1 (Forall_forall _ _) Ha) in Hin. lia.
  - intros f Hf. destruct (Hfl f Hf) as (Hpre & Harr & _).
    assert (Hall : batch_addrs f = requests (ctx w)).
    { eapply (run_whole_queue_taken es init_batch_context w); eauto.
      - apply init_well_formed.
      - intros f0 [=]. }
    assert (Hv : Forall (fun a => (a < length (heap w))%nat) (batch_addrs f)).
    { apply (prefix_Forall _ _ _ Hpre). apply Forall_app in Hvalid. tauto. }
    assert (Hlen : length (req_array f) = length (batch_addrs f)).
    { rewrite Harr. apply BatchSpec.length_copies. exact Hv. }
    split; [exact Hall|]. split; [rewrite Hc, Hlen, Hall; reflexivity|].
    split; [exact Hlen|].
    assert (Hpend : all_pending w).
    { eapply BatchSpec.run_all_pending; [|exact Hrun]. constructor. }
    rewrite Harr. apply Forall_forall. intros r Hr.
    apply list_elem_of_omap in Hr as (a & _ & Ha).
    exact (proj1 (Forall_lookup _ _) Hpend a r Ha).
Qed.

(** *** What a caller can get *)

Lemma keeps_waiting_reachable w a :
  all_pending w -> is_Some (heap w !! a) ->
  keeps_waiting w a = negb (processing (ctx w)).
Proof.
  intros Hpend [r Hr]. unfold keeps_waiting. rewrite Hr.
  rewrite (proj1 (Forall_lookup _ _) Hpend a r Hr). reflexivity.
Qed.

(** X15. [ai_batch_invoke] never returns a payload: whatever worlds the unit
    can build are shown to a caller at its wake-ups, the call is still
    blocked, returns NULL or raises. *)
Theorem batch_invoke_never_returns_payload es w a wakes s :
  run guc init_batch_context es = Some w ->
  Forall (fun p => exists es', run guc init_batch_context es' = Some p.2) wakes ->
  ai_batch_invoke_wait a w wakes <> Some (ReturnText s).
Proof.
  intros Hrun Hwakes. apply BatchSpec.wait_never_returns_text.
  - eapply BatchSpec.run_all_pending; [apply init_all_pending|exact Hrun].
  - eapply Forall_impl; [exact Hwakes|]. intros p [es' Hp].
    eapply BatchSpec.run_all_pending; [apply init_all_pending|exact Hp].
Qed.

(** X16. A caller that tests the loop condition while a flush is in flight
    does not wait at all: its call returns NULL at once, whatever
    wake-ups would follow. *)
Theorem caller_during_flush_returns_null es w a wakes :
  run guc init_batch_context es = Some w ->
  is_Some (in_flight w) ->
  is_Some (heap w !! a) ->
  ai_batch_invoke_wait a w wakes = Some ReturnNull.
Proof.
  intros Hrun Hfl Ha.
  assert (Hpend : all_pending w)
    by (eapply BatchSpec.run_all_pending; [apply init_all_pending|exact Hrun]).
  destruct (run_well_formed _ _ _ init_well_formed Hrun) as (_ & _ & _ & Hflag & _).
  assert (Hk : keeps_waiting w a = false).
  { rewrite keeps_waiting_reachable by assumption.
    rewrite Hflag, bool_decide_eq_true_2 by exact Hfl. reflexivity. }
  destruct wakes as [|[wr w1] rest]; simpl; rewrite Hk;
    rewrite BatchSpec.result_pending by exact Hpend; reflexivity.
Qed.

(** X17. A caller woken any number of times while no flush is in flight waits
    on each time, and raises "Batch processing timeout" at the first
    wake-up that reports the time is up. *)
Theorem caller_waits_until_timeout es w a quiet late rest :
  run guc init_batch_context es = Some w ->
  in_flight w = None ->
  is_Some (heap w !! a) ->
  Forall (fun p => p.1 <> ETIMEDOUT /\ in_flight p.2 = None /\ is_Some (heap p.2 !! a)
                   /\ exists es', run guc init_batch_context es' = Some p.2) quiet ->
  ai_batch_invoke_wait a w quiet = None
  /\ ai_batch_invoke_wait a w (quiet ++ (ETIMEDOUT, late) :: rest)
     = Some (RaiseError "Batch processing timeout").
Proof.
  intros Hrun Hidle Ha Hquiet. revert es w Hrun Hidle Ha.
  induction Hquiet as [|[wr w1] quiet (Hwr & Hidle1 & Ha1 & es1 & Hrun1) _ IH];
    intros es w Hrun Hidle Ha.
  - assert (Hk : keeps_waiting w a = true).
    { rewrite keeps_waiting_reachable;
        [|eapply BatchSpec.run_all_pending; [apply init_all_pending|exact Hrun]|exact Ha].
      destruct (run_well_formed _ _ _ init_well_formed Hrun) as (_ & _ & _ & -> & _).
      rewrite Hidle. reflexivity. }
    simpl. rewrite Hk. auto.
  - assert (Hk : keeps_waiting w a = true).
    { rewrite keeps_waiting_reachable;
        [|eapply BatchSpec.run_all_pending; [apply init_all_pending|exact Hrun]|exact Ha].
      destruct (run_well_formed _ _ _ init_well_formed Hrun) as (_ & _ & _ & -> & _).
      rewrite Hidle. reflexivity. }
    simpl in *. rewrite Hk. apply Z.eqb_neq in Hwr. rewrite Hwr.
    exact (IH es1 w1 Hrun1 Hidle1 Ha1).
Qed.

(** *** Requests enqueued during a flush *)

Lemma step_doomed a w e w' sigs :
  doomed a w -> step guc w e = Some (w', sigs) -> doomed a w'.
Proof.
  intros Hd. pose proof Hd as (Hlt & Hfl & Hin). destruct e as [rid m i args|wr|]; simpl.
  - destruct (enable_batch_processing guc); [|intros [= <- <-]; exact Hd].
    intros [= <- <-]. unfold doomed. simpl. split; [|split].
    + rewrite length_app. simpl. lia.
    + exact Hfl.
    + destruct (in_flight w); [exact Hin|].
      rewrite elem_of_app, list_elem_of_singleton. intros [?|?]; [tauto|lia].
  - destruct (in_flight w) eqn:Eidle; [discriminate|]. intros [= <- <-].
    unfold batch_processor_wake. destruct (flush_due guc (ctx w) wr); [|exact Hd].
    unfold copy_requests, doomed. simpl. split; [exact Hlt|]. split; [exact Hfl|].
    intros Ha. apply Hin. eapply subseteq_take. exact Ha.
  - destruct (in_flight w) as [f|] eqn:Ef; [|discriminate]. intros [= <- <-].
    unfold doomed. simpl. split; [exact Hlt|]. split; [|apply not_elem_of_nil].
    intros f' Hf'. apply elem_of_app in Hf' as [Hf'|Hf'].
    + apply Hfl. exact Hf'.
    + apply list_elem_of_singleton in Hf' as ->. simpl. exact Hin.
Qed.

Lemma run_doomed a es w w' :
  doomed a w -> run guc w es = Some w' -> doomed a w'.
Proof.
  revert w. induction es as [|e es IH]; intros w Hw; simpl.
  - intros [= <-]. exact Hw.
  - destruct (step guc w e) as [[w1 sigs]|] eqn:E; [|discriminate].
    apply IH. eapply step_doomed; eauto.
Qed.

(** X18. Every request enqueued while a flush is in flight is lost: it is not
    part of the running flush, the queue it was linked onto is dropped
    when that flush ends, and whatever happens next it is never part of a
    flush. *)
Theorem request_enqueued_during_any_flush_is_lost es w rid m i args :
  run guc init_batch_context es = Some w ->
  is_Some (in_flight w) ->
  enable_batch_processing guc = true ->
  let out := ai_batch_invoke_enqueue guc w rid m i args in
  out.1.2 = length (heap w)
  /\ step guc w (Enqueue rid m i args) = Some (out.1.1, out.2)
  /\ forall es' w',
       run guc out.1.1 es' = Some w' ->
       (out.1.2 ∉ (history w' ++ current_batch w')%list)
       /\ (in_flight w' = None -> out.1.2 ∉ requests (ctx w')).
Proof.
  intros Hrun [f Hf] Hen out. split; [reflexivity|]. split.
  - simpl. rewrite Hen. reflexivity.
  - intros es' w' Hrun'.
    destruct (run_well_formed _ _ _ init_well_formed Hrun) as (_ & _ & Hvalid & _ & Hfl).
    assert (Hd : doomed (length (heap w)) out.1.1).
    { unfold doomed. simpl. rewrite Hf. split; [rewrite length_app; simpl; lia|].
      apply Forall_app in Hvalid as [Hh Hq]. split.
      - intros f' Hf' Hin.
        assert (length (heap w) ∈ history w) as Hbad.
        { unfold history. apply elem_of_concat. exists (batch_addrs f').
          split; [exact Hin|]. apply list_elem_of_fmap. eauto. }
        apply (proj1 (Forall_forall _ _) Hh) in Hbad. lia.
      - intros Hin. destruct (Hfl f Hf) as (Hpre & _ & _).
        pose proof (prefix_Forall _ _ _ Hpre Hq) as Hb.
        apply (proj1 (Forall_forall _ _) Hb) in Hin. lia. }
    apply (run_doomed _ _ _ _ Hd) in Hrun'. destruct Hrun' as (_ & Hfl' & Hin').
    split.
    + rewrite elem_of_app. intros [Hin|Hin].
      * unfold history in Hin. apply elem_of_concat in Hin as (b & Hb & Hbs).
        apply list_elem_of_fmap in Hbs as (f' & -> & Hf'). exact (Hfl' f' Hf' Hb).
      * unfold current_batch in Hin. destruct (in_flight w'); [tauto|inversion Hin].
    + intros Hidle. rewrite Hidle in Hin'. exact Hin'.
Qed.

End Worlds.

(** *** The executors *)

Section Executors.
Context {net : Net}.

Lemma length_substring_le n m s : (String.length (String.substring n m s) <= m)%nat.
Proof.
  revert n m. induction s as [|c s IH]; intros n m.
  - destruct n, m; simpl; lia.
  - destruct n as [|n].
    + destruct m as [|m]; simpl; [lia|]. specialize (IH 0%nat m). lia.
    + simpl. apply IH.
Qed.

Lemma set_up_cases i req p :
  set_up i req = Ok p ->
  (curl_easy_init i = false /\ p = (req, None))
  \/ (curl_easy_init i = true
      /\ exists row, SPI_execute (model_query (model_name req)) = Ok (Some row)
                     /\ p = (req, Some (configure row)))
  \/ (curl_easy_init i = true
      /\ SPI_execute (model_query (model_name req)) = Ok None
      /\ p = (mkBatchRequest (request_id req) (model_name req) (input_data req)
                (user_args_json req) true (result req) (Some "Model not found"), None)).
Proof.
  unfold set_up. destruct (curl_easy_init i); [|intros [= <-]; auto].
  destruct (SPI_execute (model_query (model_name req))) as [[row|]|]; simpl;
    [intros [= <-]..|discriminate].
  - right. left. eauto.
  - right. right. auto.
Qed.

(** X19. Whenever the enhanced executor returns, it leaves every request of
    the array completed, with its identity, model, input and arguments as
    they were; a request that came in fresh leaves with exactly one of a
    result and the error "Model not found".  It returns when SPI connects
    and the server raises on none of the queries sent for the requests
    whose handle was created; one query on which the server raises makes
    it leave with no request of the batch served. *)
Theorem executor_completes_every_request (reqs : list BatchRequest) :
  (forall out sent,
     process_batch_requests_enhanced reqs = Some (out, sent) ->
     length out = length reqs
     /\ Forall (fun r => completed r = true) out
     /\ Forall2 (fun r r' => request_id r' = request_id r /\ model_name r' = model_name r
                             /\ input_data r' = input_data r
                             /\ user_args_json r' = user_args_json r) reqs out
     /\ (Forall (fun r => completed r = false /\ result r = None /\ error_msg r = None) reqs ->
         Forall (fun r => (is_Some (result r) /\ error_msg r = None)
                          \/ (result r = None /\ error_msg r = Some "Model not found")) out))
  /\ (SPI_connect_ok = true ->
      (forall i req, reqs !! i = Some req -> curl_easy_init i = true ->
         exists found, SPI_execute (model_query (model_name req)) = Ok found) ->
      is_Some (process_batch_requests_enhanced reqs))
  /\ (forall i req msg,
        reqs !! i = Some req -> curl_easy_init i = true ->
        SPI_execute (model_query (model_name req)) = Raise msg ->
        process_batch_requests_enhanced reqs = None).
Proof.
  split; [|split].
  - intros out sent Hrun.
    assert (Hlen : length out = length reqs).
    { destruct reqs as [|r0 reqs'] eqn:Ereqs.
      - revert Hrun. unfold process_batch_requests_enhanced.
        destruct SPI_connect_ok; [|discriminate]. simpl. intros [= <- _]. reflexivity.
      - destruct (BatchSpec.process_lookup _ _ _ 0%nat r0 Hrun eq_refl) as (_ & _ & H & _).
        exact H. }
    assert (Hat : forall i r', out !! i = Some r' ->
              exists r p, reqs !! i = Some r /\ set_up i r = Ok p /\ r' = store_result i p).
    { intros i r' Hi. destruct (reqs !! i) as [r|] eqn:Hr.
      - destruct (BatchSpec.process_lookup _ _ _ i r Hrun Hr) as (p & Hp & _ & Ho & _).
        exists r, p. split; [reflexivity|]. split; [exact Hp|]. congruence.
      - apply lookup_ge_None in Hr. apply lookup_lt_Some in Hi. lia. }
    split; [exact Hlen|]. split; [|split].
    + apply Forall_lookup. intros i r' Hi. destruct (Hat i r' Hi) as (r & p & _ & _ & ->).
      unfold store_result. destruct (completed p.1) eqn:E; [exact E|reflexivity].
    + apply Forall2_same_length_lookup_2; [symmetry; exact Hlen|].
      intros i r r' Hr Hi. destruct (Hat i r' Hi) as (r0 & p & Hr0 & Hp & ->).
      assert (r0 = r) as -> by congruence.
      unfold store_result.
      destruct (set_up_cases i r p Hp) as [[_ ->]|[(_ & row & _ & ->)|(_ & _ & ->)]];
        simpl; destruct (completed r); simpl; auto.
    + intros Hfresh. apply Forall_lookup. intros i r' Hi.
      destruct (Hat i r' Hi) as (r & p & Hr & Hp & ->).
      destruct (proj1 (Forall_lookup _ _) Hfresh i r Hr) as (Hc & Hres & Herr).
      unfold store_result.
      destruct (set_up_cases i r p Hp) as [[_ ->]|[(_ & row & _ & ->)|(_ & _ & ->)]];
        simpl.
      * rewrite Hc. simpl. left. eauto.
      * rewrite Hc. simpl. left. eauto.
      * right. auto.
  - intros Hspi Hall. unfold process_batch_requests_enhanced. rewrite Hspi.
    destruct (BatchSpec.set_up_from_ok 0 reqs) as [set ->]; [|eauto].
    intros i req Hi. simpl. unfold set_up.
    destruct (curl_easy_init i) eqn:Hcurl; [|eauto].
    destruct (Hall i req Hi Hcurl) as [[row|] ->]; simpl; eauto.
  - intros i req msg Hi Hcurl Hraise. unfold process_batch_requests_enhanced.
    destruct SPI_connect_ok; [|reflexivity].
    destruct (BatchSpec.set_up_from_raise 0 reqs i req msg Hi) as [msg' ->]; [|reflexivity].
    simpl. unfold set_up. rewrite Hcurl, Hraise. reflexivity.
Qed.

Lemma omap_length_le {A B} (f : A -> option B) (l : list A) :
  (length (omap f l) <= length l)%nat.
Proof.
  induction l as [|x l IH]; [reflexivity|].
  cbn. destruct (f x); simpl; lia.
Qed.

Lemma dispatched_sorted_from {R} (n : nat) (set : list (R * option Transfer)) :
  let l := omap (fun p : nat * (R * option Transfer) => t ← p.2.2; Some (p.1, t))
             (imap (fun i x => ((n + i)%nat, x)) set) in
  StronglySorted lt l.*1 /\ Forall (fun j => (n <= j < n + length set)%nat) l.*1.
Proof.
  revert n. induction set as [|[r ot] set IH]; intros n; simpl.
  - split; constructor.
  - rewrite (imap_ext _ (fun i x => ((S n + i)%nat, x)))
      by (intros; simpl; f_equal; lia).
    destruct (IH (S n)) as [Hs Hb]. simpl in Hs, Hb.
    assert (Hb' : Forall (fun j => (n <= j < n + S (length set))%nat)
                    (omap (fun p : nat * (R * option Transfer) => t ← p.2.2; Some (p.1, t))
                       (imap (fun i x => ((S n + i)%nat, x)) set)).*1).
    { eapply Forall_impl; [exact Hb|]. simpl. intros; lia. }
    destruct ot as [t|]; simpl.
    + split.
      * constructor; [exact Hs|]. eapply Forall_impl; [exact Hb|]. simpl. intros; lia.
      * constructor; [lia|exact Hb'].
    + split; [exact Hs|exact Hb'].
Qed.

(** X20. When the enhanced executor returns, the transfers it has made are
    exactly those of the requests whose handle was created and for whose
    query the server gave a row, each set up from that row: its URL, the
    content type header cut to 255 characters and a timeout of 30
    seconds.  The body of a transfer is never a text of its own request:
    for a POST model it is the shared array [merged_args].  The transfers
    are listed by growing array index, each index once, so there are
    never more transfers than requests. *)
Theorem executor_dispatches_resolved_requests_in_order (reqs : list BatchRequest) out sent :
  process_batch_requests_enhanced reqs = Some (out, sent) ->
  (forall i t,
     (i, t) ∈ sent <->
     exists req row, reqs !! i = Some req /\ curl_easy_init i = true
                     /\ SPI_execute (model_query (model_name req)) = Ok (Some row)
                     /\ t = configure row)
  /\ Forall (fun p => (CURLOPT_POSTFIELDS p.2 = None
                       \/ CURLOPT_POSTFIELDS p.2 = Some merged_args_array)
                      /\ CURLOPT_TIMEOUT p.2 = 30
                      /\ Forall (fun h => (String.length h <= 255)%nat)
                           (CURLOPT_HTTPHEADER p.2)) sent
  /\ StronglySorted lt sent.*1
  /\ Forall (fun i => (i < length reqs)%nat) sent.*1
  /\ (length sent <= length reqs)%nat.
Proof.
  intros Hrun.
  assert (Hsent : forall i t,
            (i, t) ∈ sent <->
            exists req row, reqs !! i = Some req /\ curl_easy_init i = true
                            /\ SPI_execute (model_query (model_name req)) = Ok (Some row)
                            /\ t = configure row).
  { intros i t. split.
    - intros Hin.
      assert (exists req, reqs !! i = Some req) as [req Hreq].
      { destruct (reqs !! i) as [req|] eqn:E; [eauto|]. exfalso.
        revert Hrun Hin. unfold process_batch_requests_enhanced.
        destruct SPI_connect_ok; [|discriminate].
        destruct (set_up_from 0 reqs) as [set|] eqn:Eset; [|discriminate].
        intros [= _ <-]. rewrite BatchSpec.dispatched_elem. intros (r & Hr).
        destruct (BatchSpec.set_up_from_lookup _ _ _ Eset) as [Hlen _].
        apply lookup_ge_None in E. apply lookup_lt_Some in Hr. lia. }
      destruct (BatchSpec.process_lookup _ _ _ i req Hrun Hreq) as (p & Hp & _ & _ & Hs).
      apply Hs in Hin. exists req.
      destruct (set_up_cases i req p Hp) as [[_ ->]|[(Hc & row & Hrow & ->)|(_ & _ & ->)]];
        simpl in Hin; try discriminate.
      injection Hin as <-. exists row. auto.
    - intros (req & row & Hreq & Hcurl & Hrow & ->).
      destruct (BatchSpec.process_lookup _ _ _ i req Hrun Hreq) as (p & Hp & _ & _ & Hs).
      apply Hs. unfold set_up in Hp. rewrite Hcurl, Hrow in Hp. simpl in Hp.
      injection Hp as <-. reflexivity. }
  split; [exact Hsent|].
  revert Hrun Hsent. unfold process_batch_requests_enhanced.
  destruct SPI_connect_ok; [|discriminate].
  destruct (set_up_from 0 reqs) as [set|] eqn:Eset; [|discriminate].
  intros [= <- <-] Hsent. destruct (BatchSpec.set_up_from_lookup _ _ _ Eset) as [Hlen _].
  split; [|split; [|split]].
  - apply Forall_forall. intros [i t] Hin. apply Hsent in Hin as (req & row & _ & _ & _ & ->).
    unfold configure. cbn [CURLOPT_POSTFIELDS CURLOPT_TIMEOUT CURLOPT_HTTPHEADER snd].
    split; [destruct (bool_decide _); auto|]. split; [reflexivity|].
    constructor; [|constructor]. apply length_substring_le.
  - destruct (dispatched_sorted_from 0 set) as [Hs _]. exact Hs.
  - destruct (dispatched_sorted_from 0 set) as [_ Hb].
    rewrite Hlen in Hb. eapply Forall_impl; [exact Hb|]. simpl. intros; lia.
  - unfold dispatched. etransitivity; [apply omap_length_le|].
    rewrite length_imap, Hlen. reflexivity.
Qed.

(** X21. The plain executor completes every request with the response of its
    transfer as result, also one that came in completed or with an error
    already set, and never touches [error_msg]; it makes a transfer for
    each request whose handle was created, to the fixed URL with the
    input as body. *)
Theorem plain_executor_overwrites_every_result (reqs : list BatchRequest) (i : nat)
    (req : BatchRequest) :
  reqs !! i = Some req ->
  let out := process_batch_requests reqs in
  length out.1 = length reqs
  /\ Forall (fun r => completed r = true /\ is_Some (result r)) out.1
  /\ (curl_easy_init i = true ->
      out.1 !! i
      = Some (mkBatchRequest (request_id req) (model_name req) (input_data req)
                (user_args_json req) true
                (Some (response_data i (plain_transfer req)))
                (error_msg req)))
  /\ (forall t, (i, t) ∈ out.2 <-> curl_easy_init i = true /\ t = plain_transfer req).
Proof.
  intros Hi out. unfold out, process_batch_requests. simpl.
  split; [rewrite !length_imap; reflexivity|]. split; [|split].
  - apply Forall_lookup. intros j r. rewrite !list_lookup_imap.
    destruct (reqs !! j); simpl; [|discriminate]. intros [= <-]. simpl. eauto.
  - intros Hcurl. rewrite !list_lookup_imap, Hi. simpl. rewrite Hcurl. reflexivity.
  - intros t. rewrite BatchSpec.dispatched_elem, list_lookup_imap, Hi. simpl.
    destruct (curl_easy_init i); split.
    + intros (r & [= _ <-]). auto.
    + intros [_ ->]. eauto.
    + intros (r & [=]).
    + intros [[=] _].
Qed.

End Executors.

(** *** The response buffer *)

Lemma string_app_cons c s t : String c s +:+ t = String c (s +:+ t).
Proof. reflexivity. Qed.

Lemma string_app_nil_r s : s +:+ EmptyString = s.
Proof. induction s as [|c s IH]; [reflexivity|]. rewrite string_app_cons, IH. reflexivity. Qed.

Lemma string_app_assoc s t u : (s +:+ t) +:+ u = s +:+ (t +:+ u).
Proof.
  induction s as [|c s IH]; [reflexivity|]. rewrite !string_app_cons, IH. reflexivity.
Qed.

Lemma string_length_app s t :
  String.length (s +:+ t) = (String.length s + String.length t)%nat.
Proof.
  induction s as [|c s IH]; [reflexivity|]. rewrite string_app_cons. simpl. rewrite IH.
  reflexivity.
Qed.

Lemma substring_whole s : String.substring 0 (String.length s) s = s.
Proof. induction s as [|c s IH]; [reflexivity|]. simpl. rewrite IH. reflexivity. Qed.

Lemma write_callback_chunk chunk r :
  Z.of_nat (String.length (data r)) + Z.of_nat (String.length chunk) < 18446744073709551616 ->
  size r = Z.of_nat (String.length (data r)) ->
  WriteCallback true chunk 1 (Z.of_nat (String.length chunk)) r
  = (Z.of_nat (String.length chunk),
     {| data := data r +:+ chunk;
        size := Z.of_nat (String.length (data r +:+ chunk)) |}).
Proof.
  intros Hfit Hsize. unfold WriteCallback, size_t.
  rewrite Z.mul_1_l. rewrite (Z.mod_small (Z.of_nat (String.length chunk))) by lia.
  rewrite Nat2Z.id, substring_whole, Hsize, string_length_app.
  rewrite Z.mod_small by lia. f_equal. f_equal. lia.
Qed.

Lemma receive_cons chunk chunks r :
  receive (chunk :: chunks) r
  = receive chunks (WriteCallback true chunk 1 (Z.of_nat (String.length chunk)) r).2.
Proof. reflexivity. Qed.

Lemma receive_from chunks r :
  Z.of_nat (String.length (data r)) + Z.of_nat (String.length (joined chunks))
  < 18446744073709551616 ->
  size r = Z.of_nat (String.length (data r)) ->
  data (receive chunks r) = data r +:+ joined chunks
  /\ size (receive chunks r) = Z.of_nat (String.length (data r +:+ joined chunks)).
Proof.
  revert r. induction chunks as [|chunk chunks IH]; intros r Hfit Hsize.
  - simpl. rewrite string_app_nil_r. auto.
  - simpl in Hfit. rewrite string_length_app in Hfit.
    rewrite receive_cons, write_callback_chunk by (assumption || lia).
    cbn [snd joined foldr].
    destruct (IH {| data := data r +:+ chunk;
                    size := Z.of_nat (String.length (data r +:+ chunk)) |}) as [Hd Hs].
    + simpl. rewrite string_length_app. lia.
    + reflexivity.
    + simpl in Hd, Hs. rewrite Hd, Hs, string_app_assoc. auto.
Qed.

(** X22. A transfer whose chunks arrive one callback each leaves in its
    response buffer the chunks joined in order of arrival, with [size]
    their total length; each such call returns the length of its chunk;
    and a call for which memory fails returns 0 and leaves what was
    received as it is. *)
Theorem write_callback_accumulates (chunks : list string) :
  Z.of_nat (String.length (joined chunks)) < 18446744073709551616 ->
  data (receive chunks empty_response) = joined chunks
  /\ size (receive chunks empty_response) = Z.of_nat (String.length (joined chunks))
  /\ (forall chunk r,
        Z.of_nat (String.length chunk) < 18446744073709551616 ->
        (WriteCallback true chunk 1 (Z.of_nat (String.length chunk)) r).1
        = Z.of_nat (String.length chunk))
  /\ (forall chunk size_arg nmemb r, WriteCallback false chunk size_arg nmemb r = (0, r)).
Proof.
  intros Hfit.
  assert (Hrec := receive_from chunks empty_response).
  destruct Hrec as [Hd Hs]; [simpl; lia|reflexivity|]. simpl in Hd, Hs.
  split; [exact Hd|]. split; [exact Hs|]. split; [|reflexivity].
  intros chunk r Hc. unfold WriteCallback, size_t. simpl.
  rewrite Z.mul_1_l. apply Z.mod_small. lia.
Qed.

Lemma write_callback_accumulates_witness :
  receive ["{ans"; "wer}"] empty_response = {| data := "{answer}"; size := 8 |}.
Proof.
  destruct (write_callback_accumulates ["{ans"; "wer}"]) as (Hd & Hs & _).
  - vm_compute. reflexivity.
  - destruct (receive ["{ans"; "wer}"] empty_response) as [d s]. simpl in Hd, Hs.
    rewrite Hd, Hs. reflexivity.
Defined.

(** *** The settings *)

Lemma configure_step_bounds s name v b s' :
  in_bounds s -> ai_configure_batch s name v = Ok (b, s') -> b = true /\ in_bounds s'.
Proof.
  intros (Hb & Ht & Hm). unfold ai_configure_batch.
  destruct (bool_decide (name = "batch_size")).
  { destruct (_ && _) eqn:E; [|discriminate]. intros [= <- <-].
    apply andb_true_iff in E as [E1 E2]. apply Z.leb_le in E1, E2.
    unfold in_bounds. simpl. split; [reflexivity|lia]. }
  destruct (bool_decide (name = "batch_timeout_ms")).
  { destruct (_ && _) eqn:E; [|discriminate]. intros [= <- <-].
    apply andb_true_iff in E as [E1 E2]. apply Z.leb_le in E1, E2.
    unfold in_bounds. simpl. split; [reflexivity|lia]. }
  destruct (bool_decide (name = "max_concurrent_requests")); [|discriminate].
  destruct (_ && _) eqn:E; [|discriminate]. intros [= <- <-].
  apply andb_true_iff in E as [E1 E2]. apply Z.leb_le in E1, E2.
  unfold in_bounds. simpl. split; [reflexivity|lia].
Qed.

(** X23. Whatever calls of [ai_configure_batch] a session makes, the batch
    size stays within 1..100, the batch timeout within 100..5000 ms and
    the concurrency limit within 1..200: a call succeeds only with a
    known name and a value in that name's range, returns true and sets
    that one variable, and a call that raises sets nothing. *)
Theorem configure_batch_keeps_bounds (s : Settings) :
  in_bounds s ->
  (forall calls, in_bounds (configure_all s calls))
  /\ (forall name v,
        match ai_configure_batch s name v with
        | Ok (b, s') =>
            b = true
            /\ ((name = "batch_size" /\ 1 <= v <= 100
                 /\ s' = mkSettings v (set_batch_timeout_ms s) (set_max_concurrent_requests s))
                \/ (name = "batch_timeout_ms" /\ 100 <= v <= 5000
                    /\ s' = mkSettings (set_batch_size s) v (set_max_concurrent_requests s))
                \/ (name = "max_concurrent_requests" /\ 1 <= v <= 200
                    /\ s' = mkSettings (set_batch_size s) (set_batch_timeout_ms s) v))
        | Raise _ =>
            (name = "batch_size" -> ~ 1 <= v <= 100)
            /\ (name = "batch_timeout_ms" -> ~ 100 <= v <= 5000)
            /\ (name = "max_concurrent_requests" -> ~ 1 <= v <= 200)
        end).
Proof.
  intros Hs. split.
  - intros calls. revert s Hs. induction calls as [|[name v] calls IH]; intros s Hs.
    + exact Hs.
    + unfold configure_all. simpl. fold (configure_all).
      destruct (ai_configure_batch s name v) as [[b s']|] eqn:E; apply IH.
      * exact (proj2 (configure_step_bounds _ _ _ _ _ Hs E)).
      * exact Hs.
  - intros name v. unfold ai_configure_batch.
    destruct (decide (name = "batch_size")) as [->|N1].
    { rewrite bool_decide_eq_true_2 by reflexivity.
      destruct (_ && _) eqn:E.
      - apply andb_true_iff in E as [E1 E2]. apply Z.leb_le in E1, E2.
        split; [reflexivity|]. left. auto.
      - apply andb_false_iff in E. rewrite !Z.leb_gt in E.
        repeat split; intros; try discriminate. lia. }
    rewrite (bool_decide_eq_false_2 _ N1).
    destruct (decide (name = "batch_timeout_ms")) as [->|N2].
    { rewrite bool_decide_eq_true_2 by reflexivity.
      destruct (_ && _) eqn:E.
      - apply andb_true_iff in E as [E1 E2]. apply Z.leb_le in E1, E2.
        split; [reflexivity|]. right. left. auto.
      - apply andb_false_iff in E. rewrite !Z.leb_gt in E.
        repeat split; intros; try discriminate. lia. }
    rewrite (bool_decide_eq_false_2 _ N2).
    destruct (decide (name = "max_concurrent_requests")) as [->|N3].
    { rewrite bool_decide_eq_true_2 by reflexivity.
      destruct (_ && _) eqn:E.
      - apply andb_true_iff in E as [E1 E2]. apply Z.leb_le in E1, E2.
        split; [reflexivity|]. right. right. auto.
      - apply andb_false_iff in E. rewrite !Z.leb_gt in E.
        repeat split; intros; try discriminate. lia. }
    rewrite (bool_decide_eq_false_2 _ N3). repeat split; intros; congruence.
Qed.

Lemma configure_batch_keeps_bounds_witness :
  in_bounds (configure_all default_settings
               [("batch_size", 3); ("batch_size", 0); ("nonsense", 7);
                ("batch_timeout_ms", 5000)])
  /\ set_batch_size (configure_all default_settings
                       [("batch_size", 3); ("batch_size", 0); ("nonsense", 7);
                        ("batch_timeout_ms", 5000)]) = 3.
Proof.
  split; [|reflexivity].
  apply (configure_batch_keeps_bounds default_settings).
  unfold in_bounds, default_settings. simpl. lia.
Defined.

(** *** Worked instances *)

Lemma queue_stays_consistent_witness :
  StronglySorted lt (requests (ctx three_queued))
  /\ processing (ctx flushing) = true.
Proof.
  split.
  - apply (queue_stays_consistent (net := sample_net) (sample_guc 3) three_queued_events);
      reflexivity.
  - apply (queue_stays_consistent (net := sample_net) (sample_guc 3) flushing_events).
    + reflexivity.
    + reflexivity.
    + vm_compute. eauto.
Defined.

Lemma no_request_is_flushed_twice_witness :
  NoDup (history flushing ++ current_batch flushing)
  /\ request_count (ctx flushing) = 3.
Proof.
  destruct (no_request_is_flushed_twice (net := sample_net) (sample_guc 3) flushing_events
              flushing eq_refl eq_refl) as (_ & Hnodup & Hfl).
  split; [exact Hnodup|].
  destruct (Hfl _ eq_refl) as (_ & Hcount & _). exact Hcount.
Defined.

Lemma batch_invoke_never_returns_payload_witness :
  ai_batch_invoke_wait 0%nat three_queued [(0, flushing)] <> Some (ReturnText "answer").
Proof.
  apply (batch_invoke_never_returns_payload (net := sample_net) (sample_guc 3)
           three_queued_events).
  - reflexivity.
  - constructor; [|constructor]. exists flushing_events. reflexivity.
Defined.

Lemma caller_during_flush_returns_null_witness :
  ai_batch_invoke_wait 1%nat flushing [] = Some ReturnNull.
Proof.
  apply (caller_during_flush_returns_null (net := sample_net) (sample_guc 3) flushing_events).
  - reflexivity.
  - vm_compute. eauto.
  - vm_compute. eauto.
Defined.

Lemma caller_waits_until_timeout_witness :
  ai_batch_invoke_wait 0%nat three_queued
    ([(0, three_queued)] ++ (ETIMEDOUT, flushing) :: [])%list
  = Some (RaiseError "Batch processing timeout").
Proof.
  apply (caller_waits_until_timeout (net := sample_net) (sample_guc 3) three_queued_events).
  - reflexivity.
  - reflexivity.
  - vm_compute. eauto.
  - constructor; [|constructor]. simpl. split; [discriminate|]. split; [reflexivity|].
    split; [vm_compute; eauto|]. exists three_queued_events. reflexivity.
Defined.

Lemma request_enqueued_during_any_flush_is_lost_witness :
  exists w',
    run (H := sample_net) (sample_guc 3)
      (ai_batch_invoke_enqueue (sample_guc 3) flushing 4 "gpt" "D" "{}").1.1
      [WorkerFinishes; WorkerWakes ETIMEDOUT] = Some w'
    /\ 3%nat ∉ (history w' ++ current_batch w')%list.
Proof.
  eexists. split; [reflexivity|].
  destruct (request_enqueued_during_any_flush_is_lost (net := sample_net) (sample_guc 3)
              flushing_events flushing 4 "gpt" "D" "{}") as (_ & _ & Hlost).
  - reflexivity.
  - vm_compute. eauto.
  - reflexivity.
  - refine (proj1 (Hlost [WorkerFinishes; WorkerWakes ETIMEDOUT] _ _)). reflexivity.
Defined.

Lemma executor_completes_every_request_witness :
  (exists out sent,
      process_batch_requests_enhanced (net := sample_net)
        [mkBatchRequest 1 "gpt" "hi" "{}" false None None;
         mkBatchRequest 2 "nope" "hi" "{}" false None None] = Some (out, sent)
      /\ Forall (fun r => completed r = true) out)
  /\ process_batch_requests_enhanced (net := sample_net)
       [mkBatchRequest 1 "gpt" "hi" "{}" false None None;
        mkBatchRequest 2 "o'brien" "hi" "{}" false None None] = None.
Proof.
  split.
  - eexists _, _. split; [vm_compute; reflexivity|].
    refine (proj1 (proj2 (proj1 (executor_completes_every_request (net := sample_net)
                                   [mkBatchRequest 1 "gpt" "hi" "{}" false None None;
                                    mkBatchRequest 2 "nope" "hi" "{}" false None None])
                            _ _ _))).
    vm_compute. reflexivity.
  - eapply (proj2 (proj2 (executor_completes_every_request (net := sample_net) _))
              1%nat _ "unterminated quoted string"); reflexivity.
Defined.

Lemma executor_dispatches_resolved_requests_in_order_witness :
  exists out sent,
    process_batch_requests_enhanced (net := sample_net)
      [mkBatchRequest 1 "gpt" "hi" "{}" false None None;
       mkBatchRequest 2 "nope" "hi" "{}" false None None;
       mkBatchRequest 3 "gpt" "ho" "{}" false None None] = Some (out, sent)
    /\ sent.*1 = [0%nat; 2%nat]
    /\ sent.*2 = replicate 2 (mkTransfer "https://models.example/gpt"
                                (Some merged_args_array)
                                ["Content-Type: application/json"] 30)
    /\ StronglySorted lt sent.*1.
Proof.
  eexists _, _. split; [vm_compute; reflexivity|]. split; [reflexivity|].
  split; [reflexivity|].
  refine (proj1 (proj2 (proj2 (executor_dispatches_resolved_requests_in_order
                                 (net := sample_net)
                                 [mkBatchRequest 1 "gpt" "hi" "{}" false None None;
                                  mkBatchRequest 2 "nope" "hi" "{}" false None None;
                                  mkBatchRequest 3 "gpt" "ho" "{}" false None None]
                                 _ _ _)))).
  vm_compute. reflexivity.
Defined.

Lemma plain_executor_overwrites_every_result_witness :
  (process_batch_requests (H := sample_net)
     [mkBatchRequest 1 "nope" "hi" "{}" true (Some "old") (Some "Model not found")]).1
  !! 0%nat
  = Some (mkBatchRequest 1 "nope" "hi" "{}" true
            (Some "answer from https://api.example.com/v1/completions")
            (Some "Model not found")).
Proof.
  apply (plain_executor_overwrites_every_result (net := sample_net)
           [mkBatchRequest 1 "nope" "hi" "{}" true (Some "old") (Some "Model not found")]
           0 (mkBatchRequest 1 "nope" "hi" "{}" true (Some "old") (Some "Model not found"))).
  - reflexivity.
  - reflexivity.
Defined.

End BatchMore.
